(** * Receipt backend: OCR field parser and keyword categorizer

    A shallow embedding of [backend/src/services/ocrService.ts] and of the
    categorization service (the keyword table, [categorizeReceipt]), with
    the properties of the specification stated and settled against it.

    Conventions of the model.
    - A JavaScript string is a [string]: a sequence of code units, here
      the code units below 256 (ASCII and Latin-1).  [toLowerCase], the
      white space of [trim] and of the regular-expression class [\s], the
      digits of [\d] and the line terminators excluded by [.] are the
      ECMAScript ones restricted to that range.
    - A JavaScript number is a [number]: [NaN] or an exact rational.  The
      numerals read by [parseFloat] here are digit strings with at most
      one dot; their IEEE rounding is monotone, so the comparisons made
      by the code are not affected by working with the exact values
      (numerals outside the range of a double are not modelled).
    - Regular expressions are run by a backtracking matcher that follows
      the ECMAScript matching algorithm (continuations, greedy and lazy
      quantifiers, capture groups, leftmost search).
    - The file system touched by the OCR pipeline is a finite set of
      paths, threaded through the pipeline together with the outcome of
      the two external steps (image conversion, recognition).
    - Around the two services, the steps of the receipt route and of the
      receipt and user models that consume their results (category
      lookup, auto-categorization, the date kept at save time, the
      monthly reset of the OCR usage) are embedded the same way; dates
      are time values in milliseconds.
    - The date parsing of the platform ([new Date]) is a parameter of
      the field parser.  Two readings of it are given:
      [Calendar.calendarDate], the calendar dates of the specification,
      and [PlatformDate.legacyDate], the date parsing of Node.js on the
      texts that the date pattern captures. *)

From Stdlib Require Import ZArith QArith List Ascii String Bool Lia.
From stdpp Require Import base gmap strings.
Import ListNotations.

Open Scope string_scope.
Open Scope list_scope.
Open Scope Z_scope.

(* ===================================================================== *)
(** ** Code units and the string primitives the services use *)
(* ===================================================================== *)

Module Js.

Definition code (c : ascii) : N := N_of_ascii c.

Definition inRange (lo hi : N) (c : ascii) : bool :=
  (N.leb lo (code c)) && (N.leb (code c) hi).

(** [\d] *)
Definition isDigit (c : ascii) : bool := inRange 48 57 c.

(** WhiteSpace and LineTerminator code units below 256: TAB, LF, VT, FF,
    CR, SP, NBSP.  This is the set removed by [trim] and matched by [\s]. *)
Definition isSpace (c : ascii) : bool :=
  inRange 9 13 c || N.eqb (code c) 32 || N.eqb (code c) 160.

(** Line terminators, which [.] does not match. *)
Definition isLineTerminator (c : ascii) : bool :=
  N.eqb (code c) 10 || N.eqb (code c) 13.

Definition lowerChar (c : ascii) : ascii :=
  if inRange 65 90 c
     || (inRange 192 222 c && negb (N.eqb (code c) 215))
  then ascii_of_N (code c + 32)
  else c.

Fixpoint toLowerCase (s : string) : string :=
  match s with
  | EmptyString => EmptyString
  | String c s' => String (lowerChar c) (toLowerCase s')
  end.

(** [s.startsWith(p)] *)
Fixpoint startsWith (s p : string) {struct p} : bool :=
  match p, s with
  | EmptyString, _ => true
  | String _ _, EmptyString => false
  | String a p', String b s' => Ascii.eqb a b && startsWith s' p'
  end.

(** [s.includes(p)] *)
Fixpoint includes (s p : string) : bool :=
  startsWith s p ||
  match s with
  | EmptyString => false
  | String _ s' => includes s' p
  end.

(** [l.join(sep)] *)
Fixpoint join (sep : string) (l : list string) : string :=
  match l with
  | [] => EmptyString
  | [x] => x
  | x :: xs => String.append x (String.append sep (join sep xs))
  end.

Fixpoint trimStart (s : string) : string :=
  match s with
  | EmptyString => EmptyString
  | String c s' => if isSpace c then trimStart s' else s
  end.

(** [trimEnd]: a code unit is kept when it is not white space or when
    something is kept after it. *)
Fixpoint trimEnd (s : string) : string :=
  match s with
  | EmptyString => EmptyString
  | String c s' =>
      match trimEnd s' with
      | EmptyString => if isSpace c then EmptyString else String c EmptyString
      | t => String c t
      end
  end.

Definition trim (s : string) : string := trimEnd (trimStart s).

(** [s.split(sep)] for a one-character separator: the pieces between the
    separators, empty pieces included; the result is never empty. *)
Fixpoint split (sep : ascii) (s : string) : list string :=
  match s with
  | EmptyString => [EmptyString]
  | String c s' =>
      if Ascii.eqb c sep then EmptyString :: split sep s'
      else match split sep s' with
           | [] => [String c EmptyString]
           | piece :: pieces => String c piece :: pieces
           end
  end.

(** Whether some code unit of [s] satisfies [p]. *)
Fixpoint existsChar (p : ascii -> bool) (s : string) : bool :=
  match s with
  | EmptyString => false
  | String c s' => p c || existsChar p s'
  end.

(** The truthiness of a string: the empty string is falsy. *)
Definition truthy (s : string) : bool :=
  match s with EmptyString => false | _ => true end.

End Js.

(* ===================================================================== *)
(** ** Regular expressions: the ECMAScript backtracking matcher *)
(* ===================================================================== *)

Module Regex.
Import Js.

(** The patterns of the services use single-character terms, sequence,
    alternation, quantifiers (greedy and lazy, with bounds), capture
    groups and the two anchors. *)
Inductive regex : Type :=
| Empty
| Char (p : ascii -> bool)
| Seq (r1 r2 : regex)
| Alt (r1 r2 : regex)
| Repeat (greedy : bool) (min : nat) (max : option nat) (r : regex)
| Group (n : nat) (r : regex)
| Bol
| Eol.

(** A match state: the index reached in the input ([endIndex]), the input
    from that index on, and the captures made so far (latest first). *)
Record mstate := {
  endIndex : nat;
  rest : string;
  captures : list (nat * string)
}.

Definition cont := mstate -> option mstate.

Fixpoint takeString (n : nat) (s : string) : string :=
  match n, s with
  | S n', String c s' => String c (takeString n' s')
  | _, _ => EmptyString
  end.

Fixpoint dropString (n : nat) (s : string) : string :=
  match n, s with
  | S n', String _ s' => dropString n' s'
  | _, _ => s
  end.

Definition setCapture (n : nat) (x y : mstate) : mstate :=
  {| endIndex := endIndex y;
     rest := rest y;
     captures :=
       (n, takeString (endIndex y - endIndex x) (rest x)) :: captures y |}.

(** RepeatMatcher of the ECMAScript specification.  An iteration that
    matches the empty string once the minimum is reached is rejected, so
    every call below the first either lowers [min] or advances in the
    input: [fuel] is given as [min + length of the rest + 1] and is never
    exhausted. *)
Fixpoint repeatMatcher (m : mstate -> cont -> option mstate) (fuel : nat)
    (greedy : bool) (min : nat) (max : option nat)
    (x : mstate) (c : cont) : option mstate :=
  match fuel with
  | O => None
  | S fuel' =>
      match max with
      | Some O => c x
      | _ =>
          let d : cont := fun y =>
            if Nat.eqb min 0 && Nat.eqb (endIndex y) (endIndex x) then None
            else repeatMatcher m fuel' greedy (Nat.pred min)
                   (option_map Nat.pred max) y c in
          if negb (Nat.eqb min 0) then m x d
          else if greedy then
            match m x d with
            | Some z => Some z
            | None => c x
            end
          else
            match c x with
            | Some z => Some z
            | None => m x d
            end
      end
  end.

Fixpoint matcher (r : regex) (x : mstate) (c : cont) {struct r} : option mstate :=
  match r with
  | Empty => c x
  | Char p =>
      match rest x with
      | String ch s' =>
          if p ch
          then c {| endIndex := S (endIndex x); rest := s'; captures := captures x |}
          else None
      | EmptyString => None
      end
  | Seq r1 r2 => matcher r1 x (fun y => matcher r2 y c)
  | Alt r1 r2 =>
      match matcher r1 x c with
      | Some z => Some z
      | None => matcher r2 x c
      end
  | Repeat greedy min max r1 =>
      repeatMatcher (matcher r1) (min + String.length (rest x) + 1)
        greedy min max x c
  | Group n r1 => matcher r1 x (fun y => c (setCapture n x y))
  | Bol => if Nat.eqb (endIndex x) 0 then c x else None
  | Eol => match rest x with EmptyString => c x | _ => None end
  end.

(** The array returned by a successful [exec]/[match]: the index of the
    match, the matched text (element 0) and the captures. *)
Record matchResult := {
  index : nat;
  matched : string;
  groups : list (nat * string)
}.

Fixpoint lookupCapture (n : nat) (caps : list (nat * string)) : option string :=
  match caps with
  | [] => None
  | (k, s) :: caps' => if Nat.eqb k n then Some s else lookupCapture n caps'
  end.

(** [m[n]] for a group that took part in the match (in the patterns below
    every group does); an unset group reads as the empty string. *)
Definition capture (m : matchResult) (n : nat) : string :=
  match lookupCapture n (groups m) with
  | Some s => s
  | None => EmptyString
  end.

(** One attempt at index [i], where [s] is the input from [i] on. *)
Definition matchAt (r : regex) (i : nat) (s : string) : option matchResult :=
  match matcher r {| endIndex := i; rest := s; captures := [] |} Some with
  | Some y =>
      Some {| index := i;
              matched := takeString (endIndex y - i) s;
              groups := captures y |}
  | None => None
  end.

(** The search loop of RegExpBuiltinExec: the first index, from [i] up to
    the end of the input included, at which the pattern matches. *)
Fixpoint searchFrom (r : regex) (i : nat) (s : string) : option matchResult :=
  match matchAt r i s with
  | Some m => Some m
  | None =>
      match s with
      | EmptyString => None
      | String _ s' => searchFrom r (S i) s'
      end
  end.

(** [text.match(r)] and [r.exec(text)] for a pattern without the [g] flag. *)
Definition exec (r : regex) (text : string) : option matchResult :=
  searchFrom r 0 text.

(** [r.test(text)] *)
Definition test (r : regex) (text : string) : bool :=
  match exec r text with Some _ => true | None => false end.

(** [r.exec(text)] for a pattern with the [g] flag: the search starts at
    [lastIndex]; the result comes with the new value of [lastIndex]. *)
Definition execGlobal (r : regex) (text : string) (lastIndex : nat)
  : option matchResult * nat :=
  if Nat.ltb (String.length text) lastIndex then (None, O)
  else
    match searchFrom r lastIndex (dropString lastIndex text) with
    | Some m => (Some m, (index m + String.length (matched m))%nat)
    | None => (None, O)
    end.

(** Pattern shorthands. *)
Definition chr (a : ascii) : regex := Char (Ascii.eqb a).
Definition star (r : regex) : regex := Repeat true 0 None r.
Definition plus (r : regex) : regex := Repeat true 1 None r.
Definition lazyPlus (r : regex) : regex := Repeat false 1 None r.
Definition opt (r : regex) : regex := Repeat true 0 (Some 1%nat) r.
Definition between (lo hi : nat) (r : regex) : regex := Repeat true lo (Some hi) r.

(** A character of a pattern under the [i] flag.  The patterns here have
    ASCII letters only, which match their two cases and nothing else. *)
Definition chrNoCase (a : ascii) : regex :=
  Char (fun ch => Ascii.eqb (lowerChar a) (lowerChar ch)).

Fixpoint literalNoCase (s : string) : regex :=
  match s with
  | EmptyString => Empty
  | String a EmptyString => chrNoCase a
  | String a s' => Seq (chrNoCase a) (literalNoCase s')
  end.

Definition digit : regex := Char isDigit.              (* \d *)
Definition space : regex := Char isSpace.              (* \s *)
Definition anyChar : regex := Char (fun ch => negb (isLineTerminator ch)). (* . *)

End Regex.
(* ===================================================================== *)
(** ** What a pattern can match: words, captures, static checks *)
(* ===================================================================== *)

Module RegexLang.
Import Js Regex.

(** [iter W k w]: [w] is made of [k] words of [W] in a row. *)
Inductive iter (W : string -> Prop) : nat -> string -> Prop :=
| iter_O : iter W O EmptyString
| iter_S (k : nat) (w1 w2 : string) :
    W w1 -> iter W k w2 -> iter W (S k) (String.append w1 w2).

Definition withinMax (max : option nat) (k : nat) : Prop :=
  match max with
  | Some mx => (k <= mx)%nat
  | None => True
  end.

(** The words of a pattern (the anchors consume nothing). *)
Fixpoint lang (r : regex) (w : string) : Prop :=
  match r with
  | Empty | Bol | Eol => w = EmptyString
  | Char p => exists ch, p ch = true /\ w = String ch EmptyString
  | Seq r1 r2 =>
      exists w1 w2, w = String.append w1 w2 /\ lang r1 w1 /\ lang r2 w2
  | Alt r1 r2 => lang r1 w \/ lang r2 w
  | Repeat _ min max r1 =>
      exists k, (min <= k)%nat /\ withinMax max k /\ iter (lang r1) k w
  | Group _ r1 => lang r1 w
  end.

(** [groupLang r n s]: [s] is a word of a group numbered [n] of [r]. *)
Fixpoint groupLang (r : regex) (n : nat) (s : string) : Prop :=
  match r with
  | Group m r1 => (m = n /\ lang r1 s) \/ groupLang r1 n s
  | Seq r1 r2 | Alt r1 r2 => groupLang r1 n s \/ groupLang r2 n s
  | Repeat _ _ _ r1 => groupLang r1 n s
  | _ => False
  end.

(** A quantifier is well formed when its bounds are in order; the
    parser of regular-expression literals rejects the others. *)
Fixpoint wellFormed (r : regex) : bool :=
  match r with
  | Seq r1 r2 | Alt r1 r2 => wellFormed r1 && wellFormed r2
  | Repeat _ min max r1 =>
      match max with
      | Some mx => Nat.leb min mx
      | None => true
      end && wellFormed r1
  | Group _ r1 => wellFormed r1
  | _ => true
  end.

Fixpoint allChars (p : ascii -> bool) (s : string) : bool :=
  match s with
  | EmptyString => true
  | String c s' => p c && allChars p s'
  end.

(** The 256 code units of the model. *)
Definition allAscii : list ascii := map ascii_of_nat (seq 0 256).

(** [subclass q p]: every code unit accepted by [q] is accepted by [p]. *)
Definition subclass (q p : ascii -> bool) : bool :=
  forallb (fun ch => implb (q ch) (p ch)) allAscii.

(** [onlyChars p r]: the pattern [r] consumes code units of [p] only. *)
Fixpoint onlyChars (p : ascii -> bool) (r : regex) : bool :=
  match r with
  | Char q => subclass q p
  | Seq r1 r2 | Alt r1 r2 => onlyChars p r1 && onlyChars p r2
  | Repeat _ _ _ r1 | Group _ r1 => onlyChars p r1
  | _ => true
  end.

(** [requires p r]: every word of [r] has a code unit of [p]. *)
Fixpoint requires (p : ascii -> bool) (r : regex) : bool :=
  match r with
  | Char q => subclass q p
  | Seq r1 r2 => requires p r1 || requires p r2
  | Alt r1 r2 => requires p r1 && requires p r2
  | Repeat _ min _ r1 => Nat.ltb 0 min && requires p r1
  | Group _ r1 => requires p r1
  | _ => false
  end.

(** [startsOn p r]: every word of [r] starts with a code unit of [p]. *)
Fixpoint startsOn (p : ascii -> bool) (r : regex) : bool :=
  match r with
  | Char q => subclass q p
  | Seq r1 _ => startsOn p r1
  | Alt r1 r2 => startsOn p r1 && startsOn p r2
  | Repeat _ min _ r1 => Nat.ltb 0 min && startsOn p r1
  | Group _ r1 => startsOn p r1
  | _ => false
  end.

(** The least and the greatest length of a word of [r] ([None]: no
    bound). *)
Fixpoint minLength (r : regex) : nat :=
  match r with
  | Char _ => 1
  | Seq r1 r2 => minLength r1 + minLength r2
  | Alt r1 r2 => Nat.min (minLength r1) (minLength r2)
  | Repeat _ min _ r1 => min * minLength r1
  | Group _ r1 => minLength r1
  | _ => 0
  end.

Fixpoint maxLength (r : regex) : option nat :=
  match r with
  | Char _ => Some 1%nat
  | Seq r1 r2 =>
      match maxLength r1, maxLength r2 with
      | Some a, Some b => Some (a + b)%nat
      | _, _ => None
      end
  | Alt r1 r2 =>
      match maxLength r1, maxLength r2 with
      | Some a, Some b => Some (Nat.max a b)
      | _, _ => None
      end
  | Repeat _ _ max r1 =>
      match max, maxLength r1 with
      | Some mx, Some a => Some (mx * a)%nat
      | _, _ => None
      end
  | Group _ r1 => maxLength r1
  | _ => Some O
  end.

(** [steps x y w added]: the state [y] is the state [x] after the word
    [w] was consumed and the captures [added] were made. *)
Definition steps (x y : mstate) (w : string) (added : list (nat * string)) : Prop :=
  rest x = String.append w (rest y)
  /\ endIndex y = (endIndex x + String.length w)%nat
  /\ captures y = added ++ captures x.

(** A matcher is sound for the words [W], the captures [G] and the
    group numbers [S] when it succeeds only through its continuation,
    after a word of [W] and captures of [G], a capture for each number
    of [S] among them. *)
Definition soundFor (W : string -> Prop) (G : nat -> string -> Prop)
    (S : nat -> bool) (m : mstate -> cont -> option mstate) : Prop :=
  forall x c z, m x c = Some z ->
    exists y w added,
      c y = Some z /\ steps x y w added /\ W w
      /\ Forall (fun e => G (fst e) (snd e)) added
      /\ forall n, S n = true -> In n (map fst added).

(** [alwaysSet r n]: every match of [r] sets a group numbered [n]. *)
Fixpoint alwaysSet (r : regex) (n : nat) : bool :=
  match r with
  | Group m r1 => Nat.eqb m n || alwaysSet r1 n
  | Seq r1 r2 => alwaysSet r1 n || alwaysSet r2 n
  | Alt r1 r2 => alwaysSet r1 n && alwaysSet r2 n
  | Repeat _ min _ r1 => Nat.ltb 0 min && alwaysSet r1 n
  | _ => false
  end.

(** The sub-patterns of [r] that are the bodies of its groups numbered [n]. *)
Fixpoint groupsNamed (r : regex) (n : nat) : list regex :=
  match r with
  | Group m r1 => (if Nat.eqb m n then [r1] else []) ++ groupsNamed r1 n
  | Seq r1 r2 | Alt r1 r2 => groupsNamed r1 n ++ groupsNamed r2 n
  | Repeat _ _ _ r1 => groupsNamed r1 n
  | _ => []
  end.

(** States of a run over an input of length [N]. *)
Definition inInput (N : nat) (x : mstate) : Prop :=
  (endIndex x + String.length (rest x))%nat = N.

(** Two continuations that agree on the states of the input from index
    [i] on. *)
Definition agreeFrom (N i : nat) (c1 c2 : cont) : Prop :=
  forall y, inInput N y -> (i <= endIndex y)%nat -> c1 y = c2 y.

(** A matcher that only looks at its continuation on later states of
    the input. *)
Definition forwardOnly (m : mstate -> cont -> option mstate) : Prop :=
  forall N x c1 c2,
    inInput N x -> agreeFrom N (endIndex x) c1 c2 -> m x c1 = m x c2.

End RegexLang.
(* ===================================================================== *)
(** ** Numbers *)
(* ===================================================================== *)

Module Number.
Import Js.

Inductive number : Type :=
| NaN
| Num (q : Q).

Definition isNaN (n : number) : bool :=
  match n with NaN => true | Num _ => false end.

(** [a > b]; false when either side is [NaN]. *)
Definition gt (a b : number) : bool :=
  match a, b with
  | Num x, Num y => negb (Qle_bool x y)
  | _, _ => false
  end.

(** [a <= b] on numbers that are not [NaN]. *)
Definition leNum (a b : number) : Prop :=
  match a, b with
  | Num x, Num y => Qle x y
  | _, _ => False
  end.

Definition digitValue (c : ascii) : Z := Z.of_N (code c) - 48.

(** Reads the leading decimal digits of [s]: their value on top of [acc],
    how many there are, and what follows them. *)
Fixpoint readDigits (acc : Z) (count : nat) (s : string) : Z * nat * string :=
  match s with
  | String c s' =>
      if isDigit c then readDigits (10 * acc + digitValue c) (S count) s'
      else (acc, count, s)
  | EmptyString => (acc, count, s)
  end.

(** The numeral read at the start of [s]: digits, then optionally a dot
    and more digits; at least one digit is needed. *)
Definition readDecimal (s : string) : number :=
  let '(int, intCount, afterInt) := readDigits 0 O s in
  let '(all, fracCount, _) :=
    match afterInt with
    | String "." s' =>
        let '(v, n, r) := readDigits int O s' in (v, n, r)
    | _ => (int, O, afterInt)
    end in
  if Nat.eqb (intCount + fracCount) 0 then NaN
  else Num (Qred (all # Pos.of_nat (Nat.pow 10 fracCount))).

Definition negate (n : number) : number :=
  match n with NaN => NaN | Num q => Num (Qred (- q)) end.

(** [parseFloat]: leading white space is skipped, a sign is accepted, the
    longest numeral is read and what follows it is ignored.  Exponents
    and the word Infinity, which no capture of the patterns of this
    service can contain, are not read. *)
Definition parseFloat (s : string) : number :=
  match trimStart s with
  | String c s' =>
      if Ascii.eqb c "-" then negate (readDecimal s')
      else if Ascii.eqb c "+" then readDecimal s'
      else readDecimal (String c s')
  | EmptyString => NaN
  end.

(** [Math.max] of two arguments. *)
Definition max2 (a b : number) : number :=
  match a, b with
  | Num x, Num y => if Qle_bool x y then Num y else Num x
  | _, _ => NaN
  end.

(** [Math.max(...l)] for a non-empty [l]; [None] stands for the value
    returned on no argument, which the service never asks for. *)
Definition mathMax (l : list number) : option number :=
  match l with
  | [] => None
  | a :: l' => Some (fold_left max2 l' a)
  end.

End Number.
(* ===================================================================== *)
(** ** The OCR service: the field parser *)
(* ===================================================================== *)

Module Ocr.
Import Js Regex Number.

Record LineItem := {
  name : string;
  quantity : number;
  price : number
}.

(** [Partial<OCRResult>] as [parseReceiptText] fills it: a field that
    was never assigned is [None]. *)
Record ParsedFields := {
  merchantName : option string;
  totalAmount : option number;
  date : option Z;
  items : option (list LineItem)
}.

Definition LF : ascii := "010"%char.

(** DECIMAL, the numeral pattern \d+\.?\d* of the source. *)
Definition decimal : regex :=
  Seq (plus digit) (Seq (opt (chr ".")) (star digit)).

(** /\d/ *)
Definition digitRegex : regex := digit.

(** /(?:total|amount|sum)[:\s]*\$?(DECIMAL)/i *)
Definition totalRegex : regex :=
  Seq (Alt (literalNoCase "total")
        (Alt (literalNoCase "amount") (literalNoCase "sum")))
   (Seq (star (Char (fun ch => Ascii.eqb ch ":" || isSpace ch)))
     (Seq (opt (chr "$"))
       (Group 1 decimal))).

(** /\$(DECIMAL)/g *)
Definition amountRegex : regex :=
  Seq (chr "$") (Group 1 decimal).

(** The class [\/\-\.] *)
Definition dateSeparator : regex :=
  Char (fun ch => Ascii.eqb ch "/" || Ascii.eqb ch "-" || Ascii.eqb ch ".").

(** /(\d{1,2}[\/\-\.]\d{1,2}[\/\-\.]\d{2,4})/ *)
Definition dateRegex : regex :=
  Group 1
    (Seq (between 1 2 digit)
      (Seq dateSeparator
        (Seq (between 1 2 digit)
          (Seq dateSeparator
            (between 2 4 digit))))).

(** /^(.+?)\s+(QUANTITY)\s*\$?(DECIMAL)$/, with QUANTITY the pattern
    \d*\.?\d* of the source. *)
Definition itemRegex : regex :=
  Seq Bol
   (Seq (Group 1 (lazyPlus anyChar))
     (Seq (plus space)
       (Seq (Group 2 (Seq (star digit) (Seq (opt (chr ".")) (star digit))))
         (Seq (star space)
           (Seq (opt (chr "$"))
             (Seq (Group 3 decimal)
               Eol)))))).

(** The body of the loop of [parseLineItems]: the item pushed for [line],
    if any. *)
Definition lineItem (line : string) : option LineItem :=
  match exec itemRegex line with
  | Some m =>
      let name := trim (capture m 1) in
      let quantityStr := capture m 2 in
      let priceStr := capture m 3 in
      if truthy name && truthy priceStr then
        let quantity := if truthy quantityStr then parseFloat quantityStr
                        else Num 1 in
        let price := parseFloat priceStr in
        if negb (isNaN price) && gt price (Num 0) then
          Some {| name := name;
                  quantity := if isNaN quantity then Num 1 else quantity;
                  price := price |}
        else None
      else None
  | None => None
  end.

(** [parseLineItems]: [items] starts empty and grows by [push]. *)
Definition parseLineItems (lines : list string) : list LineItem :=
  fold_left
    (fun items line =>
       match lineItem line with
       | Some item => items ++ [item]
       | None => items
       end)
    lines [].

(** The test made on a candidate merchant line. *)
Definition merchantCandidate (line : string) : bool :=
  negb (test digitRegex line)
  && negb (includes (toLowerCase line) "receipt")
  && negb (includes (toLowerCase line) "tax")
  && Nat.ltb 3 (String.length line).

(** The loop [for (let i = 0; i < Math.min(3, lines.length); i++)] with
    its [break]; [steps] bounds the iterations left. *)
Fixpoint merchantLoop (lines : list string) (i steps : nat) : option string :=
  match steps with
  | O => None
  | S steps' =>
      if Nat.ltb i (Nat.min 3 (List.length lines)) then
        let line := nth i lines EmptyString in
        if merchantCandidate line then Some line
        else merchantLoop lines (S i) steps'
      else None
  end.

Definition extractMerchant (lines : list string) : option string :=
  if Nat.ltb 0 (List.length lines) then merchantLoop lines 0 3 else None.

(** The loop [while ((match = amountRegex.exec(text)) !== null)].  A
    match takes at least two characters, so [lastIndex] grows at every
    turn and [fuel], one more than the length of the text, is enough. *)
Fixpoint amountsLoop (fuel : nat) (text : string) (lastIndex : nat)
    (amounts : list number) : list number :=
  match fuel with
  | O => amounts
  | S fuel' =>
      match execGlobal amountRegex text lastIndex with
      | (Some m, lastIndex') =>
          amountsLoop fuel' text lastIndex' (amounts ++ [parseFloat (capture m 1)])
      | (None, _) => amounts
      end
  end.

Definition dollarAmounts (text : string) : list number :=
  amountsLoop (S (String.length text)) text 0 [].

Definition extractTotal (text : string) : option number :=
  match exec totalRegex text with
  | Some totalMatch => Some (parseFloat (capture totalMatch 1))
  | None =>
      let amounts := dollarAmounts text in
      if Nat.ltb 0 (List.length amounts) then mathMax amounts else None
  end.

(** The normalized lines:
    [text.split('\n').map(line => line.trim()).filter(line => line)]. *)
Definition normalizedLines (text : string) : list string :=
  List.filter truthy (map trim (split LF text)).

(** The merchant test as the specification words it: no digit, neither
    "receipt" nor "tax" whatever the case, more than 3 characters. *)
Definition qualifiesAsMerchant (line : string) : bool :=
  negb (existsChar isDigit line)
  && negb (includes (toLowerCase line) "receipt")
  && negb (includes (toLowerCase line) "tax")
  && Nat.ltb 3 (String.length line).

(** The quantity of an item as the specification words it: the number
    read from the quantity text, 1 when there is none to read. *)
Definition quantityOrOne (quantityStr : string) : number :=
  match parseFloat quantityStr with
  | Num q => Num q
  | NaN => Num 1
  end.

(** Texts used as examples. *)
Definition newline : string := String LF EmptyString.








Definition invalidThenValidDateText : string :=
  String.append "02/30/2023" (String.append newline "03/01/2023").

Definition rejectedThenValidDateText : string :=
  String.append "13/45/2023" (String.append newline "03/01/2023").

Definition futureDateText : string := "Date: 12/31/2099".

(** 2026-11-03T00:00:00Z as a time value. *)
Definition sampleNow : Z := 1793664000000.

Section Parser.

(** [new Date(s).getTime()], a service of the platform: the time value
    in milliseconds, or [None] for an invalid date (time value [NaN]). *)
Variable newDate : string -> option Z.

Definition extractDate (text : string) : option Z :=
  match exec dateRegex text with
  | Some dateMatch => newDate (capture dateMatch 1)
  | None => None
  end.

Definition parseReceiptText (text : string) : ParsedFields :=
  let lines := normalizedLines text in
  let items := parseLineItems lines in
  {| merchantName := extractMerchant lines;
     totalAmount := extractTotal text;
     date := extractDate text;
     items := if Nat.ltb 0 (List.length items) then Some items else None |}.

End Parser.

End Ocr.

(* ===================================================================== *)
(** ** Calendar dates *)
(* ===================================================================== *)

Module Calendar.
Import Js Number.

Definition isLeapYear (y : Z) : bool :=
  (y mod 4 =? 0) && (negb (y mod 100 =? 0) || (y mod 400 =? 0)).

Definition daysInMonth (y m : Z) : Z :=
  if m =? 2 then (if isLeapYear y then 29 else 28)
  else if (m =? 4) || (m =? 6) || (m =? 9) || (m =? 11) then 30
  else 31.

(** Days from 1970-01-01 to the given civil date. *)
Definition daysFromCivil (y m d : Z) : Z :=
  let y' := if m <=? 2 then y - 1 else y in
  let era := y' / 400 in
  let yoe := y' - era * 400 in
  let mp := if m <=? 2 then m + 9 else m - 3 in
  let doy := (153 * mp + 2) / 5 + d - 1 in
  let doe := yoe * 365 + yoe / 4 - yoe / 100 + doy in
  era * 146097 + doe - 719468.

Definition msPerDay : Z := 86400000.

Definition isDateSeparator (c : ascii) : bool :=
  Ascii.eqb c "/" || Ascii.eqb c "-" || Ascii.eqb c ".".

(** Modelled from the spec: the date parsing of the platform, which the
    service calls as [new Date(s)] and which is not part of the
    repository.  The specification has the matched text parsed "as a
    calendar date" and has parsing fail on an "invalid calendar date
    (e.g. 02/30/2023)": the text is read as month, day, year; a month
    outside 1..12 or a day that the month does not have is invalid; a
    valid date gives the time value of its midnight (UTC). *)
Definition calendarDate (s : string) : option Z :=
  let '(m, _, afterMonth) := readDigits 0 O s in
  match afterMonth with
  | String c1 s1 =>
      let '(d, _, afterDay) := readDigits 0 O s1 in
      match afterDay with
      | String c2 s2 =>
          let '(y, _, afterYear) := readDigits 0 O s2 in
          if isDateSeparator c1 && isDateSeparator c2
             && negb (truthy afterYear)
             && (1 <=? m) && (m <=? 12) && (1 <=? d) && (d <=? daysInMonth y m)
          then Some (daysFromCivil y m d * msPerDay)
          else None
      | EmptyString => None
      end
  | EmptyString => None
  end.

End Calendar.

Module PlatformDate.
Import Js Number Calendar.

(** The date parsing of the platform the service runs on (Node.js, whose
    engine reads a text that is not in the ISO format with its legacy
    date parser), on the texts that the date pattern captures: three
    numerals separated by "/", "-" or ".".  It is not part of the
    repository.  The numerals are month, day and year, unless the first
    one is not in 1..31: then they are year, month and day.  A year of
    0..49 stands for 20xx and a year of 50..99 for 19xx.  The month has
    to be in 1..12 and the day in 1..31, otherwise the date is invalid;
    the day is not compared with the length of the month: the days that
    the month does not have are counted into the following month.  The
    result is the time value of midnight in local time, where
    [localTZA t] is the offset of local time from UTC at the local time
    [t], in milliseconds.  Texts of another shape are outside this model
    and give [None]. *)
Definition isDay (n : Z) : bool := (1 <=? n) && (n <=? 31).

Definition isMonth (n : Z) : bool := (1 <=? n) && (n <=? 12).

Definition fullYear (y : Z) : Z :=
  if (0 <=? y) && (y <=? 49) then y + 2000
  else if (50 <=? y) && (y <=? 99) then y + 1900
  else y.

(** The day number of day [d] of month [m] of year [y], with [d]
    counted on from the first of the month. *)
Definition makeDay (y m d : Z) : Z := daysFromCivil y m 1 + (d - 1).

Definition legacyDate (localTZA : Z -> Z) (s : string) : option Z :=
  let '(a, countA, afterA) := readDigits 0 O s in
  match afterA with
  | String c1 s1 =>
      let '(b, countB, afterB) := readDigits 0 O s1 in
      match afterB with
      | String c2 s2 =>
          let '(c, countC, afterC) := readDigits 0 O s2 in
          if isDateSeparator c1 && isDateSeparator c2
             && negb (truthy afterC)
             && Nat.ltb 0 countA && Nat.ltb 0 countB && Nat.ltb 0 countC
          then
            let '(year, month, day) :=
              if isDay a then (c, a, b) else (a, b, c) in
            if isMonth month && isDay day
            then let t := makeDay (fullYear year) month day * msPerDay in
                 Some (t - localTZA t)
            else None
          else None
      | EmptyString => None
      end
  | EmptyString => None
  end.

(** A server whose local time is UTC. *)
Definition utcZone : Z -> Z := fun _ => 0.

End PlatformDate.
(* ===================================================================== *)
(** ** Shapes of what the field parser reads and returns *)
(* ===================================================================== *)

Module OcrShapes.
Import Js Regex Number Ocr.

(** A digit or the decimal dot. *)
Definition isDigitOrDot (ch : ascii) : bool :=
  isDigit ch || Ascii.eqb ch ".".

(** A digit or one of the three date separators. *)
Definition isDateChar (ch : ascii) : bool :=
  isDigit ch || Ascii.eqb ch "/" || Ascii.eqb ch "-" || Ascii.eqb ch ".".


(** The bounds [min: 0] of the item schema of the receipt model, on
    numbers that may be [NaN]. *)
Definition atLeastZero (n : number) : Prop :=
  match n with
  | Num q => (0 <= q)%Q
  | NaN => False
  end.

End OcrShapes.
(* ===================================================================== *)
(** ** The OCR service: the pipeline around the parser *)
(* ===================================================================== *)

Module Pipeline.
Import Js Number Ocr.

(** [OCRResult] as [processReceiptOCR] builds it:
    [{ ...parsedData, rawText, confidence }]. *)
Record OCRResult := {
  parsedData : ParsedFields;
  rawText : string;
  confidence : Q
}.

(** The directory part (with its final slash) and the file name of a path. *)
Fixpoint splitLastSlash (p : string) : option (string * string) :=
  match p with
  | EmptyString => None
  | String c p' =>
      match splitLastSlash p' with
      | Some (dir, base) => Some (String c dir, base)
      | None => if Ascii.eqb c "/" then Some ("/", p') else None
      end
  end.

(** [path.join(path.dirname(imagePath), 'processed_' + path.basename(imagePath))]
    for a normalized path: the file name gets the prefix, the directory
    is kept. *)
Definition outputPathOf (imagePath : string) : string :=
  match splitLastSlash imagePath with
  | Some (dir, base) => String.append dir (String.append "processed_" base)
  | None => String.append "processed_" imagePath
  end.

Definition ocrFailure : string := "Failed to process receipt with OCR".

Section Pipeline.

(** The external steps.  [sharpWrites p] tells whether the image
    conversion of [p] succeeds and writes its output file;
    [recognize p] is the outcome of [Tesseract.recognize] on [p]: the
    text and the confidence on the scale 0..100, or [None] when it
    rejects. [newDate] is the date parsing of the platform. *)
Variable sharpWrites : string -> bool.
Variable recognize : string -> option (string * Q).
Variable newDate : string -> option Z.

(** [preprocessImage]: the files after the call and the path returned. *)
Definition preprocessImage (files : gset string) (imagePath : string)
  : gset string * string :=
  let outputPath := outputPathOf imagePath in
  if sharpWrites imagePath then ({[ outputPath ]} ∪ files, outputPath)
  else (files, imagePath).

(** [fs.unlinkSync(p)]: [None] when it throws because [p] does not exist. *)
Definition unlinkSync (files : gset string) (p : string) : option (gset string) :=
  if decide (p ∈ files) then Some (files ∖ {[ p ]}) else None.

(** [processReceiptOCR]: the files left behind, and the result returned
    ([inl]) or the message of the error thrown ([inr]). *)
Definition processReceiptOCR (files : gset string) (imagePath : string)
  : gset string * (OCRResult + string) :=
  let '(files1, preprocessedPath) := preprocessImage files imagePath in
  match recognize preprocessedPath with
  | None => (files1, inr ocrFailure)
  | Some (text, engineConfidence) =>
      let rawText := text in
      let confidence := Qred (engineConfidence / (100 # 1)) in
      let parsed := parseReceiptText newDate rawText in
      let result := {| parsedData := parsed;
                       rawText := rawText;
                       confidence := confidence |} in
      if negb (String.eqb preprocessedPath imagePath) then
        match unlinkSync files1 preprocessedPath with
        | Some files2 => (files2, inl result)
        | None => (files1, inr ocrFailure)
        end
      else (files1, inl result)
  end.

End Pipeline.

(** A run in which the image conversion succeeds and the recognition
    engine rejects. *)
Definition uploadedImage : string := "uploads/r.jpg".

Definition runWithFailingOcr : gset string * (OCRResult + string) :=
  processReceiptOCR (fun _ => true) (fun _ => None) (fun _ => None)
    {[ uploadedImage ]} uploadedImage.

(** A run in which both external steps succeed. *)
Definition runWithWorkingOcr : gset string * (OCRResult + string) :=
  processReceiptOCR (fun _ => true) (fun _ => Some ("Total $8.10", 87 # 1))
    (fun _ => None) {[ uploadedImage ]} uploadedImage.

End Pipeline.

Module PipelineMore.
Import Pipeline.

(** The path given to the recognition engine: the output path when the
    conversion wrote it, else the image path itself. *)
Definition recognizedPath (sharpWrites : string -> bool) (imagePath : string)
  : string :=
  if sharpWrites imagePath then outputPathOf imagePath else imagePath.

Definition isSlash (c : ascii) : bool := Ascii.eqb c "/".

(** A file name: a path without slash. *)
Definition isFileName (s : string) : bool := negb (Js.existsChar isSlash s).

(** A segment of a path that is a name: not empty, not "." and not "..". *)
Definition isPlainSegment (s : string) : bool :=
  Js.truthy s && negb (String.eqb s ".") && negb (String.eqb s "..").

(** A normalized path to a file, as the upload middleware builds it:
    names separated by single slashes, after a leading slash or not; no
    empty segment, no "." or ".." segment and no slash at the end. *)
Definition isNormalizedPath (p : string) : bool :=
  match Js.split "/" p with
  | first :: rest =>
      (isPlainSegment first
       || (negb (Js.truthy first)
           && match rest with [] => false | _ :: _ => true end))
      && forallb isPlainSegment rest
  | [] => false
  end.

End PipelineMore.
(* ===================================================================== *)
(** ** The categorization service *)
(* ===================================================================== *)

Module Categorization.
Import Js.

Record Item := { itemName : string; itemPrice : Q }.

Record CategorizationInput := {
  merchantName : string;
  items : option (list Item);
  description : option string
}.

Definition CATEGORY_KEYWORDS : list (string * list string) :=
  [ ("Food & Dining",
     ["restaurant"; "cafe"; "coffee"; "pizza"; "burger"; "sushi"; "food"; "deli"; "bakery";
      "bar"; "pub"; "grill"; "bistro"; "kitchen"; "dining"; "eatery"; "takeout"; "delivery";
      "mcdonalds"; "starbucks"; "subway"; "kfc"; "dominos"; "pizza hut"; "taco bell";
      "grocery"; "supermarket"; "walmart"; "target"; "kroger"; "safeway"; "whole foods"]);
    ("Transportation",
     ["gas"; "fuel"; "petrol"; "shell"; "bp"; "exxon"; "chevron"; "uber"; "lyft"; "taxi";
      "bus"; "train"; "subway"; "metro"; "parking"; "toll"; "airline"; "flight"; "airport"]);
    ("Shopping",
     ["amazon"; "ebay"; "store"; "shop"; "retail"; "mall"; "department"; "clothing";
      "fashion"; "shoes"; "electronics"; "best buy"; "apple store"; "nike"; "adidas"]);
    ("Entertainment",
     ["movie"; "cinema"; "theater"; "concert"; "tickets"; "game"; "sports"; "netflix";
      "spotify"; "music"; "entertainment"; "amusement"; "park"; "zoo"; "museum"]);
    ("Healthcare",
     ["hospital"; "clinic"; "doctor"; "medical"; "pharmacy"; "cvs"; "walgreens"; "prescription";
      "dental"; "vision"; "health"; "medicine"; "drug"; "therapy"; "treatment"]);
    ("Travel",
     ["hotel"; "motel"; "resort"; "booking"; "expedia"; "airbnb"; "rental car"; "hertz";
      "avis"; "enterprise"; "travel"; "vacation"; "trip"; "tourism"]);
    ("Utilities",
     ["electric"; "electricity"; "gas"; "water"; "internet"; "phone"; "cable"; "utilities";
      "bill"; "service"; "att"; "verizon"; "comcast"; "power"; "energy"]);
    ("Education",
     ["school"; "university"; "college"; "tuition"; "books"; "education"; "learning";
      "course"; "class"; "training"; "certification"; "academic"]);
    ("Business",
     ["office"; "supplies"; "business"; "professional"; "consulting"; "services";
      "meeting"; "conference"; "equipment"; "software"; "subscription"]);
    ("Personal Care",
     ["salon"; "spa"; "beauty"; "barber"; "hair"; "nails"; "cosmetics"; "skincare";
      "personal care"; "hygiene"; "grooming"; "wellness"]);
    ("Home & Garden",
     ["home depot"; "lowes"; "furniture"; "garden"; "hardware"; "tools"; "home improvement";
      "decoration"; "appliances"; "ikea"; "bed bath beyond"]);
    ("Insurance",
     ["insurance"; "policy"; "premium"; "coverage"; "claim"; "deductible"; "allstate";
      "state farm"; "geico"; "progressive"]);
    ("Investments",
     ["investment"; "stock"; "bond"; "mutual fund"; "retirement"; "401k"; "ira";
      "brokerage"; "trading"; "dividend"]);
    ("Gifts & Donations",
     ["gift"; "donation"; "charity"; "nonprofit"; "giving"; "present"; "contribution";
      "fundraiser"; "support"]) ].

(** A JavaScript object with string keys and numeric values, as the list
    of its entries in insertion order. *)
Definition scoreObject := list (string * Z).

(** [obj[k]]; [None] is [undefined]. *)
Fixpoint getProp (obj : scoreObject) (k : string) : option Z :=
  match obj with
  | [] => None
  | (k', v) :: obj' => if String.eqb k' k then Some v else getProp obj' k
  end.

(** [obj[k] = v]: an existing key keeps its place, a new key goes last. *)
Fixpoint setProp (obj : scoreObject) (k : string) (v : Z) : scoreObject :=
  match obj with
  | [] => [(k, v)]
  | (k', v') :: obj' =>
      if String.eqb k' k then (k', v) :: obj' else (k', v') :: setProp obj' k v
  end.

(** [a > b] on values that may be [undefined]: false unless both are
    numbers. *)
Definition jsGt (a b : option Z) : bool :=
  match a, b with
  | Some x, Some y => Z.ltb y x
  | _, _ => false
  end.

(** [input.description || ''] *)
Definition descriptionOrEmpty (input : CategorizationInput) : string :=
  match description input with
  | Some d => if truthy d then d else EmptyString
  | None => EmptyString
  end.

(** [input.items?.map(item => item.name) || []] *)
Definition itemNames (input : CategorizationInput) : list string :=
  match items input with
  | Some l => map itemName l
  | None => []
  end.

(** The lowercase haystack [text]. *)
Definition haystack (input : CategorizationInput) : string :=
  toLowerCase
    (join " " (merchantName input :: descriptionOrEmpty input :: itemNames input)).

(** The body of the inner loop: what one keyword adds to [score]. *)
Definition keywordPoints (input : CategorizationInput) (keyword : string) : Z :=
  if includes (haystack input) (toLowerCase keyword) then
    if includes (toLowerCase (merchantName input)) (toLowerCase keyword)
    then 3 else 1
  else 0.

(** The inner loop: [score] starts at 0 and is increased keyword by keyword. *)
Definition categoryScore (input : CategorizationInput) (keywords : list string) : Z :=
  fold_left (fun score keyword => score + keywordPoints input keyword) keywords 0.

(** The outer loop: [categoryScores[category] = score] for every entry of
    the table, in table order. *)
Definition scoresOver (table : list (string * list string))
    (input : CategorizationInput) : scoreObject :=
  fold_left
    (fun obj entry => setProp obj (fst entry) (categoryScore input (snd entry)))
    table [].

Definition categoryScores (input : CategorizationInput) : scoreObject :=
  scoresOver CATEGORY_KEYWORDS input.

(** The entry the outer loop writes for one row of the table. *)
Definition scoreEntry (input : CategorizationInput)
    (entry : string * list string) : string * Z :=
  (fst entry, categoryScore input (snd entry)).

(** The callback of [reduce]. *)
Definition better (obj : scoreObject) (a b : string * Z) : string * Z :=
  if jsGt (getProp obj (fst a)) (getProp obj (fst b)) then a else b.

(** [Object.entries(obj).reduce(f)] without an initial value; [None] is
    the [TypeError] raised on an empty array. *)
Definition reduceEntries (obj : scoreObject) : option (string * Z) :=
  match obj with
  | [] => None
  | first :: others => Some (fold_left (better obj) others first)
  end.

(** [categorizeReceipt]; the [catch] branch returns ["Other"]. *)
Definition categorizeReceipt (input : CategorizationInput) : string :=
  match reduceEntries (categoryScores input) with
  | Some bestCategory =>
      if Z.ltb 0 (snd bestCategory) then fst bestCategory else "Other"
  | None => "Other"
  end.

(** [getAllCategories] *)
Definition getAllCategories : list string := map fst CATEGORY_KEYWORDS.

(** The largest score of an object (0 for the empty object; scores are
    never negative). *)
Definition maxScoreOf (obj : scoreObject) : Z :=
  fold_right (fun e m => Z.max (snd e) m) 0 obj.

Definition maxScore (input : CategorizationInput) : Z :=
  maxScoreOf (categoryScores input).

(** The categories whose score is the maximum, in table order. *)
Definition maximalCategories (input : CategorizationInput) : list string :=
  map fst (List.filter (fun e => Z.eqb (snd e) (maxScore input)) (categoryScores input)).

(** The weighting as the specification words it: 3 for a keyword found
    in the lowercased merchant name, otherwise 1 for a keyword found in
    the haystack, otherwise 0. *)
Definition merchantWeightedPoints (input : CategorizationInput)
    (keyword : string) : Z :=
  if includes (toLowerCase (merchantName input)) (toLowerCase keyword) then 3
  else if includes (haystack input) (toLowerCase keyword) then 1
  else 0.

(** Sum of a list of points. *)
Definition sumPoints (l : list Z) : Z := fold_right Z.add 0 l.

(** Inputs used as examples. *)
Definition starbucksInput : CategorizationInput :=
  {| merchantName := "Starbucks Coffee"; items := Some []; description := Some "" |}.

Definition randomLlcInput : CategorizationInput :=
  {| merchantName := "Random LLC";
     items := Some [ {| itemName := "Widget"; itemPrice := 5 # 1 |} ];
     description := Some "" |}.

Definition gasInput : CategorizationInput :=
  {| merchantName := "Gas"; items := None; description := None |}.

(** The haystack in the words of the specification: the merchant name,
    the description (nothing when there is none) and the name of every
    item, neighbours separated by one space.  It is written over the
    fields of the input directly, to be compared with [haystack]. *)
Definition spaceSeparatedNames (l : list Item) : string :=
  fold_right
    (fun item rest => String.append " " (String.append (itemName item) rest))
    EmptyString l.

Definition concatenatedTexts (input : CategorizationInput) : string :=
  String.append (merchantName input)
    (String.append " "
       (String.append
          (match description input with Some d => d | None => EmptyString end)
          (spaceSeparatedNames
             (match items input with Some l => l | None => [] end)))).

(** Inputs whose only keyword is outside the merchant name: in the name
    of an item, and in the description. *)
Definition acmeCoffeeInput : CategorizationInput :=
  {| merchantName := "ACME";
     items := Some [ {| itemName := "Filter Coffee"; itemPrice := 3 # 1 |} ];
     description := None |}.

Definition acmeTaxiInput : CategorizationInput :=
  {| merchantName := "ACME"; items := None;
     description := Some "Taxi to the Airport" |}.

End Categorization.
(* ===================================================================== *)
(** ** The categorization service: lookups and its users *)
(* ===================================================================== *)

Module CategorizationMore.
Import Js Categorization.

(** The [enum] of the [category] field of the receipt schema, which is
    also the list accepted by the validators of the receipt routes. *)
Definition RECEIPT_CATEGORY_ENUM : list string :=
  [ "Food & Dining"; "Transportation"; "Shopping"; "Entertainment";
    "Healthcare"; "Travel"; "Utilities"; "Education"; "Business";
    "Personal Care"; "Home & Garden"; "Insurance"; "Investments";
    "Gifts & Donations"; "Other" ].

(** [CATEGORY_KEYWORDS[category]] for an own property of the table. *)
Fixpoint ownKeywords (table : list (string * list string)) (category : string)
  : option (list string) :=
  match table with
  | [] => None
  | (c, keywords) :: table' =>
      if String.eqb c category then Some keywords else ownKeywords table' category
  end.

(** The property names every object inherits from [Object.prototype]. *)
Definition objectPrototypeNames : list string :=
  [ "constructor"; "toString"; "toLocaleString"; "valueOf"; "hasOwnProperty";
    "isPrototypeOf"; "propertyIsEnumerable"; "__proto__";
    "__defineGetter__"; "__defineSetter__"; "__lookupGetter__";
    "__lookupSetter__" ].

(** [getCategoryKeywords]: [CATEGORY_KEYWORDS[category] || []].  For a
    name inherited from [Object.prototype] the lookup yields the
    inherited value, which is no list of keywords: [None]. *)
Definition getCategoryKeywords (category : string) : option (list string) :=
  match ownKeywords CATEGORY_KEYWORDS category with
  | Some keywords => Some keywords
  | None =>
      if existsb (String.eqb category) objectPrototypeNames then None
      else Some []
  end.

(** The texts the scorer reads besides the merchant name. *)
Definition otherTexts (input : CategorizationInput) : list string :=
  descriptionOrEmpty input :: itemNames input.

(** The input with one more item at the end of its items. *)
Definition addItem (input : CategorizationInput) (item : Item)
  : CategorizationInput :=
  {| merchantName := merchantName input;
     items := Some (match items input with
                    | Some l => l ++ [item]
                    | None => [item]
                    end);
     description := description input |}.

End CategorizationMore.
(* ===================================================================== *)
(** ** The receipt route and the receipt model around the two services *)
(* ===================================================================== *)

Module Receipts.
Import Js Categorization CategorizationMore.

(** The truthiness of an optional string: absent and empty are falsy. *)
Definition truthyField (field : option string) : bool :=
  match field with
  | Some s => truthy s
  | None => false
  end.

(** The spread [{ ...ocrResult, ...receiptData }], field by field: the
    field of the request when the request has it, else the field found
    by OCR. *)
Definition mergeField {A : Type} (manual ocr : option A) : option A :=
  match manual with
  | Some v => Some v
  | None => ocr
  end.

(** The step "auto-categorize if category not provided" of the POST
    handler, on the merged receipt data: the category after the step. *)
Definition autoCategorize (category merchantName : option string)
    (items : option (list Item)) (description : option string)
  : option string :=
  if negb (truthyField category) && truthyField merchantName then
    match merchantName with
    | Some name =>
        Some (categorizeReceipt
                {| merchantName := name;
                   items := Some (match items with Some l => l | None => [] end);
                   description := description |})
    | None => category
    end
  else category.

(** [receiptData.date ? new Date(receiptData.date) : new Date()], on
    time values; [handlerTime] is the time of the call. *)
Definition defaultDate (handlerTime : Z) (date : option Z) : Z :=
  match date with
  | Some d => d
  | None => handlerTime
  end.

(** The first step of the pre-save hook of the receipt model:
    [if (this.date > new Date()) this.date = new Date()].  The clock is
    read twice: [compareTime] for the test, [assignTime] for the value
    assigned. *)
Definition preSaveDate (compareTime assignTime : Z) (date : Z) : Z :=
  if Z.ltb compareTime date then assignTime else date.

(** The date stored for a receipt created by the POST handler. *)
Definition storedDate (handlerTime compareTime assignTime : Z)
    (date : option Z) : Z :=
  preSaveDate compareTime assignTime (defaultDate handlerTime date).

End Receipts.
(* ===================================================================== *)
(** ** The user model: the monthly reset of the OCR usage *)
(* ===================================================================== *)

Module Users.

(** [apiUsage] of a user; dates are time values. *)
Record ApiUsage := {
  ocrRequestsThisMonth : Z;
  maxOcrRequests : Z;
  lastResetDate : Z
}.

Section Reset.

(** [getMonth] and [getFullYear] of the platform's dates, on time values. *)
Variable getMonth : Z -> Z.
Variable getFullYear : Z -> Z.

(** [resetMonthlyApiUsage], with [now] the value of [new Date()]. *)
Definition resetMonthlyApiUsage (now : Z) (usage : ApiUsage) : ApiUsage :=
  let lastReset := lastResetDate usage in
  if negb (Z.eqb (getMonth lastReset) (getMonth now))
     || negb (Z.eqb (getFullYear lastReset) (getFullYear now))
  then {| ocrRequestsThisMonth := 0;
          maxOcrRequests := maxOcrRequests usage;
          lastResetDate := now |}
  else usage.

End Reset.

End Users.
(* ===================================================================== *)
(** ** Properties of the string primitives *)
(* ===================================================================== *)

Module JsFacts.
Import Js.

Lemma toLowerCase_app (a b : string) :
  toLowerCase (String.append a b) = String.append (toLowerCase a) (toLowerCase b).
Proof.
  induction a as [|c a IH]; simpl; [reflexivity|].
  now rewrite IH.
Qed.

Lemma startsWith_app (s r p : string) :
  startsWith s p = true -> startsWith (String.append s r) p = true.
Proof.
  revert s; induction p as [|a p IH]; intros s H; [reflexivity|].
  destruct s as [|b s]; simpl in *; [discriminate|].
  apply andb_true_iff in H as [Hab Hrest].
  rewrite Hab; simpl. now apply IH.
Qed.

Lemma includes_app (s r p : string) :
  includes s p = true -> includes (String.append s r) p = true.
Proof.
  induction s as [|c s IH]; intros H.
  - simpl in H. rewrite orb_false_r in H.
    destruct p; [|discriminate].
    destruct r; reflexivity.
  - simpl in H. apply orb_true_iff in H as [H|H].
    + change (String.append (String c s) r) with (String c (String.append s r)).
      cbn [includes]. apply orb_true_iff; left.
      now apply (startsWith_app (String c s) r p).
    + change (String.append (String c s) r) with (String c (String.append s r)).
      cbn [includes]. apply orb_true_iff; right. now apply IH.
Qed.

Lemma join_cons2 (sep x y : string) (l : list string) :
  join sep (x :: y :: l) = String.append x (String.append sep (join sep (y :: l))).
Proof. reflexivity. Qed.

End JsFacts.

(* ===================================================================== *)
(** ** Properties of the matcher *)
(* ===================================================================== *)

Module RegexFacts.
Import Js Regex.

(** A matcher only succeeds through its continuation, and hands it a
    state that is not before the one it started from. *)
Definition advancing (m : mstate -> cont -> option mstate) : Prop :=
  forall x c z, m x c = Some z ->
    exists y, c y = Some z /\ (endIndex x <= endIndex y)%nat.

Lemma repeatMatcher_advancing (m : mstate -> cont -> option mstate) :
  advancing m ->
  forall fuel greedy min max, advancing (repeatMatcher m fuel greedy min max).
Proof.
  intros Hm. induction fuel as [|fuel IH]; intros greedy min max x c z H.
  - discriminate H.
  - cbn [repeatMatcher] in H.
    set (d := fun y : mstate =>
           if Nat.eqb min 0 && Nat.eqb (endIndex y) (endIndex x) then None
           else repeatMatcher m fuel greedy (Nat.pred min)
                  (option_map Nat.pred max) y c) in H.
    assert (Hd : forall z', m x d = Some z' ->
                 exists y, c y = Some z' /\ (endIndex x <= endIndex y)%nat).
    { intros z' Hz. apply Hm in Hz as (y & Hy & Hle). unfold d in Hy.
      destruct (Nat.eqb min 0 && Nat.eqb (endIndex y) (endIndex x));
        [discriminate|].
      apply IH in Hy as (y' & Hy' & Hle'). exists y'. split; [exact Hy'|lia]. }
    assert (Hc : forall z', c x = Some z' ->
                 exists y, c y = Some z' /\ (endIndex x <= endIndex y)%nat).
    { intros z' Hz. exists x. split; [exact Hz|lia]. }
    destruct max as [[|max']|].
    + now apply Hc.
    + destruct (negb (Nat.eqb min 0)); [now apply Hd|].
      destruct greedy.
      * destruct (m x d) eqn:E; [inversion H; subst; now apply Hd|now apply Hc].
      * destruct (c x) eqn:E; [inversion H; subst; now apply Hc|now apply Hd].
    + destruct (negb (Nat.eqb min 0)); [now apply Hd|].
      destruct greedy.
      * destruct (m x d) eqn:E; [inversion H; subst; now apply Hd|now apply Hc].
      * destruct (c x) eqn:E; [inversion H; subst; now apply Hc|now apply Hd].
Qed.

Lemma matcher_advancing (r : regex) : advancing (matcher r).
Proof.
  induction r as [|p|r1 IH1 r2 IH2|r1 IH1 r2 IH2|greedy min max r IH|n r IH| |];
    intros x c z H; cbn [matcher] in H.
  - exists x. split; [exact H|lia].
  - destruct (rest x) as [|ch s']; [discriminate|].
    destruct (p ch); [|discriminate].
    eexists. split; [exact H|]. simpl. lia.
  - apply IH1 in H as (y & Hy & Hle).
    apply IH2 in Hy as (y' & Hy' & Hle').
    exists y'. split; [exact Hy'|lia].
  - destruct (matcher r1 x c) eqn:E.
    + inversion H; subst. now apply IH1.
    + now apply IH2.
  - eapply repeatMatcher_advancing; [exact IH|exact H].
  - apply IH in H as (y & Hy & Hle).
    exists (setCapture n x y). split; [exact Hy|exact Hle].
  - destruct (Nat.eqb (endIndex x) 0); [|discriminate].
    exists x. split; [exact H|lia].
  - destruct (rest x); [|discriminate].
    exists x. split; [exact H|lia].
Qed.

(** One turn of a quantifier whose minimum is not reached yet. *)
Lemma repeatMatcher_below_min (m : mstate -> cont -> option mstate)
    (fuel : nat) (greedy : bool) (k : nat) (x : mstate) (c : cont) :
  repeatMatcher m (S fuel) greedy (S k) None x c
  = m x (fun y => repeatMatcher m fuel greedy k None y c).
Proof. reflexivity. Qed.

Lemma matcher_Char_inv (p : ascii -> bool) (x : mstate) (c : cont) (z : mstate) :
  matcher (Char p) x c = Some z ->
  exists ch s',
    rest x = String ch s' /\ p ch = true
    /\ c {| endIndex := S (endIndex x); rest := s'; captures := captures x |}
       = Some z.
Proof.
  cbn [matcher]. destruct (rest x) as [|ch s']; [discriminate|].
  destruct (p ch) eqn:E; [|discriminate]. eauto.
Qed.

(** The search returns a match at the first index that has one. *)
Lemma searchFrom_first (r : regex) (s : string) :
  forall i m, searchFrom r i s = Some m ->
    (i <= index m)%nat
    /\ matchAt r (index m) (dropString (index m - i) s) = Some m
    /\ forall j, (i <= j < index m)%nat ->
         matchAt r j (dropString (j - i) s) = None.
Proof.
  induction s as [|ch s IH]; intros i m H; cbn [searchFrom] in H.
  - destruct (matchAt r i EmptyString) eqn:E; [|discriminate].
    inversion H; subst.
    assert (Hi : index m = i).
    { unfold matchAt in E. destruct (matcher r _ Some); [|discriminate].
      now inversion E. }
    rewrite Hi, Nat.sub_diag. simpl. split; [lia|]. split; [exact E|]. intros j Hj; lia.
  - destruct (matchAt r i (String ch s)) eqn:E.
    + inversion H; subst.
      assert (Hi : index m = i).
      { unfold matchAt in E. destruct (matcher r _ Some); [|discriminate].
        now inversion E. }
      rewrite Hi, Nat.sub_diag. simpl. split; [lia|]. split; [exact E|]. intros j Hj; lia.
    + apply IH in H as (Hle & Hat & Hbefore).
      split; [lia|]. split.
      * replace (index m - i)%nat with (S (index m - S i)) by lia. exact Hat.
      * intros j Hj. destruct (Nat.eq_dec j i) as [->|Hne].
        -- rewrite Nat.sub_diag. exact E.
        -- replace (j - i)%nat with (S (j - S i)) by lia.
           apply Hbefore. lia.
Qed.

Lemma exec_first (r : regex) (text : string) (m : matchResult) :
  exec r text = Some m ->
  matchAt r (index m) (dropString (index m) text) = Some m
  /\ forall j, (j < index m)%nat -> matchAt r j (dropString j text) = None.
Proof.
  intros H. apply searchFrom_first in H as (_ & Hat & Hbefore).
  rewrite Nat.sub_0_r in Hat. split; [exact Hat|].
  intros j Hj. specialize (Hbefore j). rewrite Nat.sub_0_r in Hbefore.
  apply Hbefore. lia.
Qed.

(** Every match found by a search is a match at some index. *)
Lemma searchFrom_matchAt (r : regex) (s : string) :
  forall i m, searchFrom r i s = Some m ->
    exists j s', matchAt r j s' = Some m.
Proof.
  intros i m H. apply searchFrom_first in H as (_ & Hat & _). eauto.
Qed.

(** Testing a one-character pattern is looking for such a character. *)
Lemma searchFrom_Char (p : ascii -> bool) (s : string) :
  forall i,
    match searchFrom (Char p) i s with Some _ => true | None => false end
    = existsChar p s.
Proof.
  induction s as [|ch s IH]; intros i; [reflexivity|].
  cbn [searchFrom]. unfold matchAt. cbn [matcher rest].
  destruct (p ch) eqn:E; simpl; rewrite E; [reflexivity|].
  apply IH.
Qed.

Lemma test_Char (p : ascii -> bool) (s : string) :
  test (Char p) s = existsChar p s.
Proof. apply searchFrom_Char. Qed.

End RegexFacts.
(* ===================================================================== *)
(** ** Soundness of the matcher for the words of a pattern *)
(* ===================================================================== *)

Module RegexLangFacts.
Import Js Regex RegexLang RegexFacts.

(** *** Strings *)

Lemma string_app_cons (c : ascii) (a b : string) :
  String.append (String c a) b = String c (String.append a b).
Proof. reflexivity. Qed.

Lemma string_app_nil_l (b : string) : String.append EmptyString b = b.
Proof. reflexivity. Qed.

Lemma string_app_nil_r (s : string) : String.append s EmptyString = s.
Proof.
  induction s as [|c s IH]; [reflexivity|].
  now rewrite string_app_cons, IH.
Qed.

Lemma string_app_assoc (a b c : string) :
  String.append (String.append a b) c = String.append a (String.append b c).
Proof.
  induction a as [|x a IH]; [reflexivity|].
  now rewrite !string_app_cons, IH.
Qed.

Lemma string_app_length (a b : string) :
  String.length (String.append a b) = (String.length a + String.length b)%nat.
Proof.
  induction a as [|x a IH]; [reflexivity|].
  rewrite string_app_cons. cbn [String.length]. now rewrite IH.
Qed.

Lemma takeString_app (w s : string) :
  takeString (String.length w) (String.append w s) = w.
Proof.
  induction w as [|x w IH]; [now destruct s|].
  rewrite string_app_cons. cbn [String.length takeString]. now rewrite IH.
Qed.

Lemma existsChar_app (p : ascii -> bool) (a b : string) :
  existsChar p (String.append a b) = existsChar p a || existsChar p b.
Proof.
  induction a as [|x a IH]; [reflexivity|].
  rewrite string_app_cons. cbn [existsChar]. rewrite IH. now rewrite orb_assoc.
Qed.

Lemma allChars_app (p : ascii -> bool) (a b : string) :
  allChars p (String.append a b) = allChars p a && allChars p b.
Proof.
  induction a as [|x a IH]; [reflexivity|].
  rewrite string_app_cons. cbn [allChars]. rewrite IH. now rewrite andb_assoc.
Qed.

(** *** Steps *)

Lemma steps_refl (x : mstate) : steps x x EmptyString [].
Proof. unfold steps. simpl. repeat split. lia. Qed.

Lemma steps_trans (x y z : mstate) (w1 w2 : string)
    (a1 a2 : list (nat * string)) :
  steps x y w1 a1 -> steps y z w2 a2 ->
  steps x z (String.append w1 w2) (a2 ++ a1).
Proof.
  intros (Hr1 & He1 & Hc1) (Hr2 & He2 & Hc2). unfold steps.
  rewrite string_app_assoc, <- Hr2, <- Hr1.
  rewrite string_app_length, He2, He1, Hc2, Hc1, <- app_assoc.
  repeat split. lia.
Qed.

(** *** The quantifier *)

Lemma repeat_sound (W : string -> Prop) (G : nat -> string -> Prop)
    (S : nat -> bool) (m : mstate -> cont -> option mstate) :
  soundFor W G S m ->
  forall fuel greedy min max,
    match max with Some mx => (min <= mx)%nat | None => True end ->
    soundFor (fun w => exists k, (min <= k)%nat /\ withinMax max k /\ iter W k w)
      G (fun n => Nat.ltb 0 min && S n)
      (repeatMatcher m fuel greedy min max).
Proof.
  intros Hm. induction fuel as [|fuel IH]; intros greedy min max Hord x c z H.
  - discriminate H.
  - cbn [repeatMatcher] in H.
    set (d := fun y : mstate =>
           if Nat.eqb min 0 && Nat.eqb (endIndex y) (endIndex x) then None
           else repeatMatcher m fuel greedy (Nat.pred min)
                  (option_map Nat.pred max) y c) in H.
    assert (Hstop : min = O -> c x = Some z ->
      exists y w added,
        c y = Some z /\ steps x y w added
        /\ (exists k, (min <= k)%nat /\ withinMax max k /\ iter W k w)
        /\ Forall (fun e => G (fst e) (snd e)) added
        /\ forall n, Nat.ltb 0 min && S n = true -> In n (map fst added)).
    { intros Hmin Hc. exists x, EmptyString, [].
      split; [exact Hc|]. split; [apply steps_refl|].
      split; [|split; [constructor|]].
      - exists O. split; [lia|]. split; [|constructor].
        destruct max; simpl; [lia|exact I].
      - intros n Hn. subst min. discriminate Hn. }
    assert (Hgo : max <> Some O -> m x d = Some z ->
      exists y w added,
        c y = Some z /\ steps x y w added
        /\ (exists k, (min <= k)%nat /\ withinMax max k /\ iter W k w)
        /\ Forall (fun e => G (fst e) (snd e)) added
        /\ forall n, Nat.ltb 0 min && S n = true -> In n (map fst added)).
    { intros Hmax Hd.
      apply Hm in Hd as (y1 & w1 & a1 & Hd & Hs1 & Hw1 & Ha1 & Hset1).
      unfold d in Hd.
      destruct (Nat.eqb min 0 && Nat.eqb (endIndex y1) (endIndex x));
        [discriminate|].
      apply IH in Hd
        as (y2 & w2 & a2 & Hc & Hs2 & (k & Hk1 & Hk2 & Hit) & Ha2 & _).
      - exists y2, (String.append w1 w2), (a2 ++ a1).
        split; [exact Hc|]. split; [eapply steps_trans; eauto|].
        split; [|split; [apply List.Forall_app; split; assumption|]].
        + exists (Datatypes.S k). split; [lia|]. split; [|now constructor].
          destruct max as [[|mx]|]; simpl in *; [congruence|lia|exact I].
        + intros n Hn. apply andb_true_iff in Hn as [_ Hn].
          rewrite map_app. apply in_or_app. right. now apply Hset1.
      - destruct max as [[|mx]|]; simpl in *; [congruence|lia|exact I]. }
    destruct max as [[|mx]|].
    + apply Hstop; [lia|exact H].
    + destruct (Nat.eqb min 0) eqn:Emin; cbn [negb] in H.
      * apply Nat.eqb_eq in Emin. destruct greedy.
        -- destruct (m x d) eqn:E.
           ++ inversion H; subst. apply Hgo; [discriminate|reflexivity].
           ++ now apply Hstop.
        -- destruct (c x) eqn:E.
           ++ inversion H; subst. now apply Hstop.
           ++ apply Hgo; [discriminate|exact H].
      * apply Hgo; [discriminate|exact H].
    + destruct (Nat.eqb min 0) eqn:Emin; cbn [negb] in H.
      * apply Nat.eqb_eq in Emin. destruct greedy.
        -- destruct (m x d) eqn:E.
           ++ inversion H; subst. apply Hgo; [discriminate|reflexivity].
           ++ now apply Hstop.
        -- destruct (c x) eqn:E.
           ++ inversion H; subst. now apply Hstop.
           ++ apply Hgo; [discriminate|exact H].
      * apply Hgo; [discriminate|exact H].
Qed.

(** *** The matcher *)

Lemma Forall_groupLang_weaken (G G' : nat -> string -> Prop)
    (added : list (nat * string)) :
  (forall n s, G n s -> G' n s) ->
  Forall (fun e => G (fst e) (snd e)) added ->
  Forall (fun e => G' (fst e) (snd e)) added.
Proof.
  intros Himp H. eapply List.Forall_impl; [|exact H].
  intros e He. now apply Himp.
Qed.

(** A successful match has consumed a word of the pattern, every capture
    it has made is a word of a group of that number, and the groups that
    every match sets are among them. *)
Theorem matcher_sound (r : regex) :
  wellFormed r = true ->
  soundFor (lang r) (groupLang r) (alwaysSet r) (matcher r).
Proof.
  induction r as [|p|r1 IH1 r2 IH2|r1 IH1 r2 IH2|greedy min max r IH|n r IH| |];
    intros Hwf x c z H; cbn [matcher] in H; cbn [wellFormed] in Hwf.
  - exists x, EmptyString, []. split; [exact H|].
    split; [apply steps_refl|]. split; [reflexivity|].
    split; [constructor|discriminate].
  - destruct (rest x) as [|ch s'] eqn:Hrest; [discriminate|].
    destruct (p ch) eqn:Hp; [|discriminate].
    eexists _, (String ch EmptyString), []. split; [exact H|].
    split; [|split; [exists ch; auto|split; [constructor|discriminate]]].
    unfold steps. cbn [rest endIndex captures String.length app].
    rewrite Hrest. repeat split. lia.
  - apply andb_true_iff in Hwf as [Hwf1 Hwf2].
    apply (IH1 Hwf1) in H as (y1 & w1 & a1 & H & Hs1 & Hw1 & Ha1 & Hset1).
    apply (IH2 Hwf2) in H as (y2 & w2 & a2 & H & Hs2 & Hw2 & Ha2 & Hset2).
    exists y2, (String.append w1 w2), (a2 ++ a1).
    split; [exact H|]. split; [eapply steps_trans; eauto|].
    split; [exists w1, w2; auto|]. split.
    + apply List.Forall_app; split.
      * eapply Forall_groupLang_weaken; [|exact Ha2]. cbn [groupLang]; auto.
      * eapply Forall_groupLang_weaken; [|exact Ha1]. cbn [groupLang]; auto.
    + intros n Hn. cbn [alwaysSet] in Hn. rewrite map_app. apply in_or_app.
      apply orb_true_iff in Hn as [Hn|Hn]; [right|left]; auto.
  - apply andb_true_iff in Hwf as [Hwf1 Hwf2].
    destruct (matcher r1 x c) eqn:E.
    + inversion H; subst.
      apply (IH1 Hwf1) in E as (y & w & a & Hc & Hs & Hw & Ha & Hset).
      exists y, w, a. split; [exact Hc|]. split; [exact Hs|].
      split; [now left|]. split.
      * eapply Forall_groupLang_weaken; [|exact Ha]. cbn [groupLang]; auto.
      * intros n Hn. cbn [alwaysSet] in Hn.
        apply andb_true_iff in Hn as [Hn _]. auto.
    + apply (IH2 Hwf2) in H as (y & w & a & Hc & Hs & Hw & Ha & Hset).
      exists y, w, a. split; [exact Hc|]. split; [exact Hs|].
      split; [now right|]. split.
      * eapply Forall_groupLang_weaken; [|exact Ha]. cbn [groupLang]; auto.
      * intros n Hn. cbn [alwaysSet] in Hn.
        apply andb_true_iff in Hn as [_ Hn]. auto.
  - apply andb_true_iff in Hwf as [Hord Hwf].
    assert (Hord' : match max with Some mx => (min <= mx)%nat | None => True end).
    { destruct max; [now apply Nat.leb_le|exact I]. }
    exact (repeat_sound (lang r) (groupLang r) (alwaysSet r) (matcher r)
             (IH Hwf) _ greedy min max Hord' x c z H).
  - apply (IH Hwf) in H as (y & w & a & Hc & (Hr & He & Hcap) & Hw & Ha & Hset).
    exists (setCapture n x y), w, ((n, w) :: a).
    split; [exact Hc|]. split; [|split; [exact Hw|split]].
    + unfold steps, setCapture. cbn [rest endIndex captures].
      split; [exact Hr|]. split; [exact He|].
      rewrite Hcap. cbn [app]. f_equal. f_equal.
      replace (endIndex y - endIndex x)%nat with (String.length w) by lia.
      rewrite Hr. apply takeString_app.
    + constructor; [cbn [groupLang fst snd]; left; auto|].
      eapply Forall_groupLang_weaken; [|exact Ha]. cbn [groupLang]; auto.
    + intros k Hk. cbn [alwaysSet] in Hk. cbn [map fst].
      apply orb_true_iff in Hk as [Hk|Hk].
      * apply Nat.eqb_eq in Hk. now left.
      * right. auto.
  - destruct (Nat.eqb (endIndex x) 0); [|discriminate].
    exists x, EmptyString, []. split; [exact H|].
    split; [apply steps_refl|]. split; [reflexivity|].
    split; [constructor|discriminate].
  - destruct (rest x); [|discriminate].
    exists x, EmptyString, []. split; [exact H|].
    split; [apply steps_refl|]. split; [reflexivity|].
    split; [constructor|discriminate].
Qed.

(** *** Matches and searches *)

Lemma matchAt_sound (r : regex) (j : nat) (s : string) (m : matchResult) :
  wellFormed r = true ->
  matchAt r j s = Some m ->
  index m = j
  /\ (exists tail, s = String.append (matched m) tail)
  /\ lang r (matched m)
  /\ Forall (fun e => groupLang r (fst e) (snd e)) (groups m)
  /\ (forall n, alwaysSet r n = true -> In n (map fst (groups m))).
Proof.
  intros Hwf. unfold matchAt.
  destruct (matcher r _ Some) as [z|] eqn:E; [|discriminate].
  intros H; inversion H; subst m; clear H. cbn [index matched groups].
  apply (matcher_sound r Hwf) in E
    as (y & w & added & Hy & (Hr & He & Hc) & Hw & Ha & Hset).
  inversion Hy; subst y; clear Hy. cbn [rest endIndex captures] in *.
  replace (endIndex z - j)%nat with (String.length w) by lia.
  rewrite Hr, takeString_app, Hc, app_nil_r. eauto 10.
Qed.

Lemma searchFrom_sound (r : regex) :
  wellFormed r = true ->
  forall s i m, searchFrom r i s = Some m ->
    exists pre tail,
      s = String.append pre (String.append (matched m) tail)
      /\ index m = (i + String.length pre)%nat
      /\ lang r (matched m)
      /\ Forall (fun e => groupLang r (fst e) (snd e)) (groups m)
      /\ (forall n, alwaysSet r n = true -> In n (map fst (groups m))).
Proof.
  intros Hwf. induction s as [|ch s IH]; intros i m H; cbn [searchFrom] in H.
  - destruct (matchAt r i EmptyString) eqn:E; [|discriminate].
    inversion H; subst.
    apply (matchAt_sound r i _ m Hwf) in E as (Hi & [tail Ht] & Hl & Hg & Hset).
    exists EmptyString, tail. rewrite string_app_nil_l. cbn [String.length].
    split; [exact Ht|]. split; [lia|]. auto.
  - destruct (matchAt r i (String ch s)) eqn:E.
    + inversion H; subst.
      apply (matchAt_sound r i _ m Hwf) in E as (Hi & [tail Ht] & Hl & Hg & Hset).
      exists EmptyString, tail. rewrite string_app_nil_l. cbn [String.length].
      split; [exact Ht|]. split; [lia|]. auto.
    + apply IH in H as (pre & tail & Hs & Hi & Hl & Hg & Hset).
      exists (String ch pre), tail. rewrite string_app_cons, <- Hs.
      cbn [String.length]. split; [reflexivity|]. split; [lia|]. auto.
Qed.

Lemma exec_sound (r : regex) (text : string) (m : matchResult) :
  wellFormed r = true ->
  exec r text = Some m ->
  exists pre tail,
    text = String.append pre (String.append (matched m) tail)
    /\ index m = String.length pre
    /\ lang r (matched m)
    /\ Forall (fun e => groupLang r (fst e) (snd e)) (groups m)
    /\ (forall n, alwaysSet r n = true -> In n (map fst (groups m))).
Proof.
  intros Hwf H. apply (searchFrom_sound r Hwf) in H. exact H.
Qed.

(** A capture read from a match is empty (unset) or a word of a group
    of that number. *)
Lemma capture_groupLang (r : regex) (m : matchResult) (n : nat) :
  Forall (fun e => groupLang r (fst e) (snd e)) (groups m) ->
  capture m n = EmptyString \/ groupLang r n (capture m n).
Proof.
  unfold capture. induction (groups m) as [|[k s] caps IH]; intros Hall.
  - now left.
  - cbn [lookupCapture]. inversion Hall as [|? ? Hhead Htail]; subst.
    destruct (Nat.eqb k n) eqn:E.
    + apply Nat.eqb_eq in E. subst k. right. exact Hhead.
    + now apply IH.
Qed.

(** A capture of a group that every match sets is a word of a group of
    that number. *)
Lemma capture_set_groupLang (r : regex) (m : matchResult) (n : nat) :
  Forall (fun e => groupLang r (fst e) (snd e)) (groups m) ->
  In n (map fst (groups m)) ->
  groupLang r n (capture m n).
Proof.
  unfold capture. induction (groups m) as [|[k s] caps IH]; intros Hall Hin.
  - contradiction.
  - cbn [lookupCapture]. inversion Hall as [|? ? Hhead Htail]; subst.
    destruct (Nat.eqb k n) eqn:E.
    + apply Nat.eqb_eq in E. subst k. exact Hhead.
    + apply IH; [exact Htail|]. destruct Hin as [Hin|Hin]; [|exact Hin].
      apply Nat.eqb_neq in E. cbn [fst] in Hin. congruence.
Qed.

Lemma groupLang_groupsNamed (r : regex) (n : nat) (s : string) :
  groupLang r n s -> exists g, In g (groupsNamed r n) /\ lang g s.
Proof.
  induction r as [|p|r1 IH1 r2 IH2|r1 IH1 r2 IH2|greedy min max r IH|k r IH| |];
    cbn [groupLang groupsNamed]; intros H; try contradiction.
  - destruct H as [H|H]; [apply IH1 in H|apply IH2 in H];
      destruct H as (g & Hg & Hl); exists g; split; auto;
      apply in_or_app; auto.
  - destruct H as [H|H]; [apply IH1 in H|apply IH2 in H];
      destruct H as (g & Hg & Hl); exists g; split; auto;
      apply in_or_app; auto.
  - auto.
  - destruct H as [[-> Hl]|H].
    + exists r. rewrite Nat.eqb_refl. split; [now left|exact Hl].
    + apply IH in H as (g & Hg & Hl). exists g. split; [|exact Hl].
      apply in_or_app. now right.
Qed.

(** *** Static checks *)

Lemma In_allAscii (ch : ascii) : In ch allAscii.
Proof.
  unfold allAscii. rewrite <- (ascii_nat_embedding ch).
  apply in_map, in_seq. pose proof (nat_ascii_bounded ch). lia.
Qed.

Lemma subclass_sound (q p : ascii -> bool) (ch : ascii) :
  subclass q p = true -> q ch = true -> p ch = true.
Proof.
  unfold subclass. rewrite forallb_forall. intros H Hq.
  specialize (H ch (In_allAscii ch)). rewrite Hq in H. exact H.
Qed.

Lemma iter_allChars (p : ascii -> bool) (W : string -> Prop) :
  (forall w, W w -> allChars p w = true) ->
  forall k w, iter W k w -> allChars p w = true.
Proof.
  intros HW k w Hit. induction Hit as [|k w1 w2 H1 _ IH]; [reflexivity|].
  rewrite allChars_app, (HW _ H1), IH. reflexivity.
Qed.

Lemma lang_onlyChars (p : ascii -> bool) (r : regex) :
  onlyChars p r = true -> forall w, lang r w -> allChars p w = true.
Proof.
  induction r as [|q|r1 IH1 r2 IH2|r1 IH1 r2 IH2|greedy min max r IH|n r IH| |];
    cbn [onlyChars lang]; intros Hok w Hw.
  - now subst.
  - destruct Hw as (ch & Hq & ->). simpl.
    now rewrite (subclass_sound q p ch Hok Hq).
  - apply andb_true_iff in Hok as [H1 H2].
    destruct Hw as (w1 & w2 & -> & Hw1 & Hw2).
    now rewrite allChars_app, (IH1 H1 _ Hw1), (IH2 H2 _ Hw2).
  - apply andb_true_iff in Hok as [H1 H2]. destruct Hw; auto.
  - destruct Hw as (k & _ & _ & Hit).
    eapply iter_allChars; [|exact Hit]. auto.
  - auto.
  - now subst.
  - now subst.
Qed.

Lemma lang_requires (p : ascii -> bool) (r : regex) :
  requires p r = true -> forall w, lang r w -> existsChar p w = true.
Proof.
  induction r as [|q|r1 IH1 r2 IH2|r1 IH1 r2 IH2|greedy min max r IH|n r IH| |];
    cbn [requires lang]; intros Hok w Hw; try discriminate.
  - destruct Hw as (ch & Hq & ->). simpl.
    now rewrite (subclass_sound q p ch Hok Hq).
  - destruct Hw as (w1 & w2 & -> & Hw1 & Hw2). rewrite existsChar_app.
    apply orb_true_iff in Hok as [H|H].
    + now rewrite (IH1 H _ Hw1).
    + rewrite (IH2 H _ Hw2). apply orb_true_r.
  - apply andb_true_iff in Hok as [H1 H2]. destruct Hw; auto.
  - apply andb_true_iff in Hok as [Hmin H]. apply Nat.ltb_lt in Hmin.
    destruct Hw as (k & Hk & _ & Hit).
    destruct Hit as [|k w1 w2 H1 _]; [lia|].
    rewrite existsChar_app, (IH H _ H1). reflexivity.
  - auto.
Qed.

Lemma lang_startsOn (p : ascii -> bool) (r : regex) :
  startsOn p r = true -> forall w, lang r w ->
    exists ch w', w = String ch w' /\ p ch = true.
Proof.
  induction r as [|q|r1 IH1 r2 IH2|r1 IH1 r2 IH2|greedy min max r IH|n r IH| |];
    cbn [startsOn lang]; intros Hok w Hw; try discriminate.
  - destruct Hw as (ch & Hq & ->). exists ch, EmptyString.
    split; [reflexivity|]. exact (subclass_sound q p ch Hok Hq).
  - destruct Hw as (w1 & w2 & -> & Hw1 & Hw2).
    destruct (IH1 Hok _ Hw1) as (ch & w' & -> & Hp).
    exists ch, (String.append w' w2). auto.
  - apply andb_true_iff in Hok as [H1 H2]. destruct Hw; auto.
  - apply andb_true_iff in Hok as [Hmin H]. apply Nat.ltb_lt in Hmin.
    destruct Hw as (k & Hk & _ & Hit).
    destruct Hit as [|k w1 w2 H1 _]; [lia|].
    destruct (IH H _ H1) as (ch & w' & -> & Hp).
    exists ch, (String.append w' w2). auto.
  - auto.
Qed.

Lemma iter_minLength (W : string -> Prop) (lo : nat) :
  (forall w, W w -> (lo <= String.length w)%nat) ->
  forall k w, iter W k w -> (k * lo <= String.length w)%nat.
Proof.
  intros HW k w Hit. induction Hit as [|k w1 w2 H1 _ IH]; [simpl; lia|].
  rewrite string_app_length. specialize (HW _ H1). simpl. lia.
Qed.

Lemma iter_maxLength (W : string -> Prop) (hi : nat) :
  (forall w, W w -> (String.length w <= hi)%nat) ->
  forall k w, iter W k w -> (String.length w <= k * hi)%nat.
Proof.
  intros HW k w Hit. induction Hit as [|k w1 w2 H1 _ IH]; [simpl; lia|].
  rewrite string_app_length. specialize (HW _ H1). simpl. lia.
Qed.

Lemma lang_minLength (r : regex) :
  forall w, lang r w -> (minLength r <= String.length w)%nat.
Proof.
  induction r as [|q|r1 IH1 r2 IH2|r1 IH1 r2 IH2|greedy min max r IH|n r IH| |];
    cbn [minLength lang]; intros w Hw.
  - subst; simpl; lia.
  - destruct Hw as (ch & _ & ->). simpl. lia.
  - destruct Hw as (w1 & w2 & -> & Hw1 & Hw2). rewrite string_app_length.
    specialize (IH1 _ Hw1). specialize (IH2 _ Hw2). lia.
  - destruct Hw as [Hw|Hw]; [specialize (IH1 _ Hw)|specialize (IH2 _ Hw)]; lia.
  - destruct Hw as (k & Hk & _ & Hit).
    pose proof (iter_minLength _ _ IH _ _ Hit) as Hlen. nia.
  - auto.
  - subst; simpl; lia.
  - subst; simpl; lia.
Qed.

Lemma lang_maxLength (r : regex) :
  forall hi w, maxLength r = Some hi -> lang r w -> (String.length w <= hi)%nat.
Proof.
  induction r as [|q|r1 IH1 r2 IH2|r1 IH1 r2 IH2|greedy min max r IH|n r IH| |];
    cbn [maxLength lang]; intros hi w Hhi Hw.
  - subst; simpl; lia.
  - destruct Hw as (ch & _ & ->). inversion Hhi. simpl. lia.
  - destruct (maxLength r1) as [a|]; [|discriminate].
    destruct (maxLength r2) as [b|]; [|discriminate].
    inversion Hhi; subst hi.
    destruct Hw as (w1 & w2 & -> & Hw1 & Hw2). rewrite string_app_length.
    specialize (IH1 a _ eq_refl Hw1). specialize (IH2 b _ eq_refl Hw2). lia.
  - destruct (maxLength r1) as [a|]; [|discriminate].
    destruct (maxLength r2) as [b|]; [|discriminate].
    inversion Hhi; subst hi.
    destruct Hw as [Hw|Hw];
      [specialize (IH1 a _ eq_refl Hw)|specialize (IH2 b _ eq_refl Hw)]; lia.
  - destruct max as [mx|]; [|discriminate].
    destruct (maxLength r) as [a|]; [|discriminate].
    inversion Hhi; subst hi.
    destruct Hw as (k & _ & Hk & Hit). simpl in Hk.
    pose proof (iter_maxLength _ a (fun w0 => IH a w0 eq_refl) _ _ Hit) as Hlen.
    nia.
  - eauto.
  - subst; simpl; lia.
  - subst; simpl; lia.
Qed.

(** *** Captures of a search *)

Lemma searchFrom_capture_lang (r : regex) (s : string) (i : nat)
    (m : matchResult) (n : nat) :
  wellFormed r = true -> alwaysSet r n = true ->
  searchFrom r i s = Some m ->
  exists g, In g (groupsNamed r n) /\ lang g (capture m n).
Proof.
  intros Hwf Hset H.
  apply (searchFrom_sound r Hwf) in H as (_ & _ & _ & _ & _ & Hg & Hin).
  apply groupLang_groupsNamed.
  apply capture_set_groupLang; [exact Hg|]. now apply Hin.
Qed.

Lemma searchFrom_capture_chars (r : regex) (s : string) (i : nat)
    (m : matchResult) (n : nat) (p : ascii -> bool) :
  wellFormed r = true ->
  forallb (onlyChars p) (groupsNamed r n) = true ->
  searchFrom r i s = Some m ->
  allChars p (capture m n) = true.
Proof.
  intros Hwf Hchk H.
  apply (searchFrom_sound r Hwf) in H as (_ & _ & _ & _ & _ & Hg & _).
  destruct (capture_groupLang r m n Hg) as [->|Hl]; [reflexivity|].
  apply groupLang_groupsNamed in Hl as (g & Hin & Hl).
  rewrite forallb_forall in Hchk.
  exact (lang_onlyChars p g (Hchk g Hin) _ Hl).
Qed.

Lemma searchFrom_capture_start (r : regex) (s : string) (i : nat)
    (m : matchResult) (n : nat) (p : ascii -> bool) :
  wellFormed r = true -> alwaysSet r n = true ->
  forallb (startsOn p) (groupsNamed r n) = true ->
  searchFrom r i s = Some m ->
  exists ch w, capture m n = String ch w /\ p ch = true.
Proof.
  intros Hwf Hset Hchk H.
  destruct (searchFrom_capture_lang r s i m n Hwf Hset H) as (g & Hin & Hl).
  rewrite forallb_forall in Hchk.
  exact (lang_startsOn p g (Hchk g Hin) _ Hl).
Qed.

(** A text in which a pattern is found has every kind of code unit the
    pattern requires. *)
Lemma searchFrom_requires (r : regex) (s : string) (i : nat)
    (m : matchResult) (p : ascii -> bool) :
  wellFormed r = true -> requires p r = true ->
  searchFrom r i s = Some m -> existsChar p s = true.
Proof.
  intros Hwf Hreq H.
  apply (searchFrom_sound r Hwf) in H as (pre & tail & -> & _ & Hl & _).
  rewrite !existsChar_app, (lang_requires p r Hreq _ Hl).
  now rewrite orb_true_r.
Qed.

(** *** The fuel of the quantifier *)

Lemma agreeFrom_later (N i j : nat) (c1 c2 : cont) :
  (i <= j)%nat -> agreeFrom N i c1 c2 -> agreeFrom N j c1 c2.
Proof. intros Hij H y Hy Hle. apply H; [exact Hy|lia]. Qed.

Lemma repeat_fuel (m : mstate -> cont -> option mstate) :
  forwardOnly m ->
  forall fuel1 fuel2 greedy min max N x c1 c2,
    inInput N x -> agreeFrom N (endIndex x) c1 c2 ->
    (min + String.length (rest x) + 1 <= fuel1)%nat ->
    (min + String.length (rest x) + 1 <= fuel2)%nat ->
    repeatMatcher m fuel1 greedy min max x c1
    = repeatMatcher m fuel2 greedy min max x c2.
Proof.
  intros Hm. induction fuel1 as [|fuel1 IH];
    intros fuel2 greedy min max N x c1 c2 Hx Hc H1 H2; [lia|].
  destruct fuel2 as [|fuel2]; [lia|].
  cbn [repeatMatcher].
  assert (Hstop : c1 x = c2 x) by (apply Hc; [exact Hx|lia]).
  assert (Hgo :
    m x (fun y =>
           if Nat.eqb min 0 && Nat.eqb (endIndex y) (endIndex x) then None
           else repeatMatcher m fuel1 greedy (Nat.pred min)
                  (option_map Nat.pred max) y c1)
    = m x (fun y =>
           if Nat.eqb min 0 && Nat.eqb (endIndex y) (endIndex x) then None
           else repeatMatcher m fuel2 greedy (Nat.pred min)
                  (option_map Nat.pred max) y c2)).
  { apply (Hm N); [exact Hx|]. intros y Hy Hle.
    destruct (Nat.eqb min 0 && Nat.eqb (endIndex y) (endIndex x)) eqn:E;
      [reflexivity|].
    unfold inInput in Hx, Hy.
    assert (Hless : (Nat.pred min + String.length (rest y) + 1
                     <= min + String.length (rest x))%nat).
    { apply andb_false_iff in E as [E|E]; apply Nat.eqb_neq in E; lia. }
    apply (IH fuel2 greedy _ _ N); [exact Hy| |lia|lia].
    eapply agreeFrom_later; [exact Hle|exact Hc]. }
  destruct max as [[|mx]|]; [exact Hstop| |];
    (destruct (negb (Nat.eqb min 0)); [exact Hgo|]);
    destruct greedy; rewrite Hgo, Hstop; reflexivity.
Qed.

Lemma matcher_forwardOnly (r : regex) : forwardOnly (matcher r).
Proof.
  induction r as [|p|r1 IH1 r2 IH2|r1 IH1 r2 IH2|greedy min max r IH|n r IH| |];
    intros N x c1 c2 Hx Hc; cbn [matcher].
  - apply Hc; [exact Hx|lia].
  - destruct (rest x) as [|ch s'] eqn:Hrest; [reflexivity|].
    destruct (p ch); [|reflexivity].
    apply Hc; unfold inInput in *; cbn [endIndex rest]; [|lia].
    rewrite Hrest in Hx. cbn [String.length] in Hx. lia.
  - apply (IH1 N); [exact Hx|]. intros y Hy Hle.
    apply (IH2 N); [exact Hy|].
    eapply agreeFrom_later; [exact Hle|exact Hc].
  - rewrite (IH1 N x c1 c2 Hx Hc), (IH2 N x c1 c2 Hx Hc). reflexivity.
  - apply (repeat_fuel (matcher r) IH _ _ greedy min max N); auto.
  - apply (IH N); [exact Hx|]. intros y Hy Hle.
    apply Hc; [exact Hy|exact Hle].
  - destruct (Nat.eqb (endIndex x) 0); [|reflexivity].
    apply Hc; [exact Hx|lia].
  - destruct (rest x); [|reflexivity]. apply Hc; [exact Hx|lia].
Qed.

(** The fuel that [matcher] gives to a quantifier is enough: with any
    larger fuel the outcome is the same, so the fuel never runs out. *)
Theorem quantifier_fuel_is_enough (r : regex) (greedy : bool) (min : nat)
    (max : option nat) (x : mstate) (c : cont) (fuel : nat) :
  (min + String.length (rest x) + 1 <= fuel)%nat ->
  repeatMatcher (matcher r) fuel greedy min max x c
  = matcher (Repeat greedy min max r) x c.
Proof.
  intros Hfuel. cbn [matcher].
  apply (repeat_fuel (matcher r) (matcher_forwardOnly r) _ _ greedy min max
           (endIndex x + String.length (rest x))%nat);
    [reflexivity| |exact Hfuel|lia].
  intros y _ _. reflexivity.
Qed.

End RegexLangFacts.
(* ===================================================================== *)
(** ** Properties of the numbers *)
(* ===================================================================== *)

Module NumberFacts.
Import Js Number.

Lemma readDigits_count (s : string) :
  forall acc count v n r,
    readDigits acc count s = (v, n, r) -> (count <= n)%nat.
Proof.
  induction s as [|c s IH]; intros acc count v n r H; simpl in H.
  - inversion H; subst. lia.
  - destruct (isDigit c).
    + apply IH in H. lia.
    + inversion H; subst. lia.
Qed.

Lemma digit_is_plain (ch : ascii) :
  isDigit ch = true ->
  isSpace ch = false /\ Ascii.eqb ch "-" = false /\ Ascii.eqb ch "+" = false.
Proof.
  destruct ch as [b0 b1 b2 b3 b4 b5 b6 b7].
  destruct b0, b1, b2, b3, b4, b5, b6, b7; vm_compute; intros H;
    try discriminate H; repeat split.
Qed.

Lemma readDecimal_digit (ch : ascii) (w : string) :
  isDigit ch = true -> exists q, readDecimal (String ch w) = Num q.
Proof.
  intros Hd. unfold readDecimal. cbn [readDigits]. rewrite Hd.
  destruct (readDigits (10 * 0 + digitValue ch) 1 w) as [[int intCount] afterInt] eqn:E.
  apply readDigits_count in E.
  assert (Hnz : forall k, Nat.eqb (intCount + k) 0 = false).
  { intros k. apply Nat.eqb_neq. lia. }
  destruct afterInt as [|c s']; [rewrite Hnz; eauto|].
  destruct (Ascii.eqb c ".") eqn:Ec.
  - apply Ascii.eqb_eq in Ec; subst c.
    destruct (readDigits int 0 s') as [[v n] r]. rewrite Hnz. eauto.
  - assert (Hother :
      (match String c s' with
       | String "." s'0 => let '(v, n, r) := readDigits int 0 s'0 in (v, n, r)
       | _ => (int, O, String c s')
       end) = (int, O, String c s')).
    { destruct c as [b0 b1 b2 b3 b4 b5 b6 b7].
      destruct b0, b1, b2, b3, b4, b5, b6, b7; try reflexivity.
      discriminate Ec. }
    rewrite Hother. rewrite Hnz. eauto.
Qed.

Lemma parseFloat_digit (ch : ascii) (w : string) :
  isDigit ch = true -> exists q, parseFloat (String ch w) = Num q.
Proof.
  intros Hd. destruct (digit_is_plain ch Hd) as (Hs & Hm & Hp).
  unfold parseFloat. cbn [trimStart]. rewrite Hs, Hm, Hp.
  now apply readDecimal_digit.
Qed.

Lemma parseFloat_empty : parseFloat EmptyString = NaN.
Proof. reflexivity. Qed.

Lemma gt_zero (p : Q) : gt (Num p) (Num 0) = true <-> (0 < p)%Q.
Proof.
  unfold gt. rewrite negb_true_iff. split.
  - intros H. apply Qnot_le_lt. intros Hle.
    apply Qle_bool_iff in Hle. congruence.
  - intros H. destruct (Qle_bool p 0) eqn:E; [|reflexivity].
    apply Qle_bool_iff in E. exfalso. eapply Qlt_not_le; eauto.
Qed.

(** The result of the fold of [Math.max] over numbers none of which is
    [NaN]: one of them, and no smaller than any of them. *)
Lemma fold_max2 (l : list number) :
  (forall a, In a l -> exists x, a = Num x) ->
  forall q,
    exists v,
      fold_left max2 l (Num q) = Num v
      /\ In (Num v) (Num q :: l)
      /\ forall a, In a (Num q :: l) -> leNum a (Num v).
Proof.
  induction l as [|a l IH]; intros Hnum q.
  - exists q. simpl. split; [reflexivity|]. split; [now left|].
    intros a [<-|[]]. simpl. apply Qle_refl.
  - destruct (Hnum a (or_introl eq_refl)) as [x ->].
    assert (Hl : forall a, In a l -> exists x, a = Num x)
      by (intros b Hb; apply Hnum; now right).
    cbn [fold_left max2].
    destruct (Qle_bool q x) eqn:E.
    + destruct (IH Hl x) as (v & Hv & Hin & Hle).
      exists v. split; [exact Hv|]. split.
      * right. exact Hin.
      * intros b [<-|Hb].
        -- specialize (Hle (Num x) (or_introl eq_refl)). simpl in *.
           apply Qle_bool_iff in E. eapply Qle_trans; eauto.
        -- now apply Hle.
    + destruct (IH Hl q) as (v & Hv & Hin & Hle).
      exists v. split; [exact Hv|]. split.
      * destruct Hin as [Hin|Hin]; [now left|right; now right].
      * intros b [<-|[<-|Hb]].
        -- apply Hle. now left.
        -- specialize (Hle (Num q) (or_introl eq_refl)). simpl in *.
           assert (Hxq : (x <= q)%Q).
           { apply Qlt_le_weak, Qnot_le_lt. intros Hqx.
             apply Qle_bool_iff in Hqx. congruence. }
           eapply Qle_trans; eauto.
        -- apply Hle. now right.
Qed.

Lemma mathMax_largest (l : list number) :
  l <> [] ->
  (forall a, In a l -> exists x, a = Num x) ->
  exists v,
    mathMax l = Some (Num v)
    /\ In (Num v) l
    /\ forall a, In a l -> leNum a (Num v).
Proof.
  intros Hne Hnum. destruct l as [|a l]; [contradiction|].
  destruct (Hnum a (or_introl eq_refl)) as [q ->].
  destruct (fold_max2 l (fun b Hb => Hnum b (or_intror Hb)) q)
    as (v & Hv & Hin & Hle).
  exists v. simpl. rewrite Hv. auto.
Qed.

End NumberFacts.
(* ===================================================================== *)
(** ** Properties of the field parser *)
(* ===================================================================== *)

Module OcrFacts.
Import Js Regex Number Ocr Calendar PlatformDate RegexFacts NumberFacts.

(** *** Amounts *)

(** A match of DECIMAL starts on a digit and consumes it. *)
Lemma decimal_starts_on_digit (x : mstate) (c : cont) (z : mstate) :
  matcher decimal x c = Some z ->
  exists ch s' y,
    rest x = String ch s' /\ isDigit ch = true
    /\ c y = Some z /\ (S (endIndex x) <= endIndex y)%nat.
Proof.
  unfold decimal, plus. cbn [matcher].
  replace (1 + String.length (rest x) + 1)%nat
    with (S (S (String.length (rest x)))) by lia.
  rewrite repeatMatcher_below_min. intros H.
  apply matcher_Char_inv in H as (ch & s' & Hrest & Hd & H).
  apply (repeatMatcher_advancing _ (matcher_advancing digit)) in H
    as (y & Hy & Hle).
  apply matcher_advancing in Hy as (y1 & Hy1 & Hle1).
  apply matcher_advancing in Hy1 as (y2 & Hy2 & Hle2).
  exists ch, s', y2. simpl in Hle. repeat split; auto. lia.
Qed.

Lemma takeString_first (n : nat) (ch : ascii) (s : string) :
  (0 < n)%nat -> exists w, takeString n (String ch s) = String ch w.
Proof. destruct n; [lia|]. simpl. eauto. Qed.

(** The text captured by a match of the dollar-amount pattern starts
    with a digit. *)
Lemma amount_capture (j : nat) (s : string) (m : matchResult) :
  matchAt amountRegex j s = Some m ->
  exists ch w, capture m 1 = String ch w /\ isDigit ch = true.
Proof.
  unfold matchAt.
  destruct (matcher amountRegex _ Some) as [z|] eqn:E; [|discriminate].
  intros H; inversion H; subst m; clear H.
  unfold amountRegex, chr in E. cbn [matcher rest endIndex captures] in E.
  destruct s as [|c0 s0]; [discriminate|].
  destruct (Ascii.eqb "$" c0); [|discriminate].
  apply decimal_starts_on_digit in E as (ch & s' & y & Hrest & Hd & Hy & Hle).
  inversion Hy; subst z; clear Hy.
  unfold capture, setCapture. cbn [groups captures lookupCapture Nat.eqb].
  rewrite Hrest.
  destruct (takeString_first (endIndex y - S j) ch s') as [w Hw].
  { simpl in Hle. lia. }
  simpl endIndex. rewrite Hw. eauto.
Qed.

Lemma amountsLoop_numbers (text : string) :
  forall fuel lastIndex amounts,
    (forall a, In a amounts -> exists x, a = Num x) ->
    forall a, In a (amountsLoop fuel text lastIndex amounts) ->
      exists x, a = Num x.
Proof.
  induction fuel as [|fuel IH]; intros lastIndex amounts Hacc a Ha;
    cbn [amountsLoop] in Ha; [now apply Hacc|].
  destruct (execGlobal amountRegex text lastIndex) as [[m|] lastIndex'] eqn:E;
    [|now apply Hacc].
  eapply IH; [|exact Ha].
  intros b Hb. apply in_app_or in Hb as [Hb|[<-|[]]]; [now apply Hacc|].
  unfold execGlobal in E.
  destruct (Nat.ltb (String.length text) lastIndex); [discriminate|].
  destruct (searchFrom amountRegex lastIndex (dropString lastIndex text))
    as [m'|] eqn:Es; [|discriminate].
  inversion E; subst m'.
  apply searchFrom_matchAt in Es as (j & s' & Hat).
  apply amount_capture in Hat as (ch & w & -> & Hd).
  now apply parseFloat_digit.
Qed.

Lemma dollarAmounts_numbers (text : string) (a : number) :
  In a (dollarAmounts text) -> exists x, a = Num x.
Proof.
  apply amountsLoop_numbers. intros b [].
Qed.



(** *** Merchant name *)

Lemma merchantCandidate_qualifies (line : string) :
  merchantCandidate line = qualifiesAsMerchant line.
Proof.
  unfold merchantCandidate, qualifiesAsMerchant, digitRegex, digit.
  now rewrite test_Char.
Qed.

Lemma extractMerchant_find (lines : list string) :
  extractMerchant lines = List.find qualifiesAsMerchant (firstn 3 lines).
Proof.
  unfold extractMerchant.
  destruct lines as [|a [|b [|c others]]];
    cbn [List.length Nat.ltb Nat.leb merchantLoop Nat.min nth firstn List.find];
    rewrite <- ?merchantCandidate_qualifies;
    repeat match goal with
    | |- context [merchantCandidate ?l] => destruct (merchantCandidate l)
    end; reflexivity.
Qed.

Lemma normalizedLines_spec (text line : string) :
  In line (normalizedLines text) <->
  line <> EmptyString /\ exists raw, In raw (split LF text) /\ line = trim raw.
Proof.
  unfold normalizedLines. rewrite List.filter_In, in_map_iff. split.
  - intros [(raw & Hraw & Hin) Ht]. split.
    + intros ->. discriminate Ht.
    + exists raw. auto.
  - intros [Hne (raw & Hin & Hraw)]. split.
    + exists raw. auto.
    + destruct line; [contradiction|reflexivity].
Qed.

(** *** What [trim] and [split] do *)
















(** *** Line items *)

Lemma parseLineItems_acc (lines : list string) :
  forall acc,
    fold_left
      (fun items line =>
         match lineItem line with
         | Some item => items ++ [item]
         | None => items
         end) lines acc
    = acc ++ flat_map
               (fun line => match lineItem line with
                            | Some item => [item]
                            | None => []
                            end) lines.
Proof.
  induction lines as [|line lines IH]; intros acc; simpl.
  - now rewrite app_nil_r.
  - rewrite IH. destruct (lineItem line); simpl; [|reflexivity].
    now rewrite <- app_assoc.
Qed.

Lemma parseLineItems_flat_map (lines : list string) :
  parseLineItems lines
  = flat_map (fun line => match lineItem line with
                          | Some item => [item]
                          | None => []
                          end) lines.
Proof. unfold parseLineItems. now rewrite parseLineItems_acc. Qed.

Lemma lineItem_rule (line : string) (item : LineItem) :
  lineItem line = Some item <->
  exists m p,
    exec itemRegex line = Some m
    /\ trim (capture m 1) <> EmptyString
    /\ parseFloat (capture m 3) = Num p
    /\ (0 < p)%Q
    /\ item = {| name := trim (capture m 1);
                 quantity := quantityOrOne (capture m 2);
                 price := Num p |}.
Proof.
  unfold lineItem, quantityOrOne. split.
  - destruct (exec itemRegex line) as [m|]; [|discriminate].
    destruct (truthy (trim (capture m 1))) eqn:Hn; [|discriminate].
    destruct (truthy (capture m 3)) eqn:Hp; [|discriminate].
    cbn [andb].
    destruct (parseFloat (capture m 3)) as [|p] eqn:Hprice; [discriminate|].
    cbn [isNaN negb andb].
    destruct (gt (Num p) (Num 0)) eqn:Hgt; [|discriminate].
    intros H; inversion H; subst item; clear H.
    exists m, p.
    split; [reflexivity|]. split; [|split; [exact Hprice|split]].
    + intros Hempty. rewrite Hempty in Hn. discriminate Hn.
    + now apply gt_zero.
    + f_equal. destruct (truthy (capture m 2)) eqn:Hq.
      * destruct (parseFloat (capture m 2)); reflexivity.
      * destruct (capture m 2); [reflexivity|discriminate Hq].
  - intros (m & p & Hm & Hname & Hprice & Hpos & ->).
    rewrite Hm.
    assert (Hn : truthy (trim (capture m 1)) = true)
      by (destruct (trim (capture m 1)); [contradiction|reflexivity]).
    assert (Hp : truthy (capture m 3) = true).
    { destruct (capture m 3); [|reflexivity].
      rewrite parseFloat_empty in Hprice. discriminate Hprice. }
    rewrite Hn, Hp, Hprice. cbn [andb isNaN negb].
    apply gt_zero in Hpos. rewrite Hpos.
    f_equal. f_equal. destruct (truthy (capture m 2)) eqn:Hq.
    + destruct (parseFloat (capture m 2)); reflexivity.
    + destruct (capture m 2); [reflexivity|discriminate Hq].
Qed.

(** C6: a line yields an item exactly when the item pattern matches it
    with a non-empty name and a price that parses to a strictly positive
    number; the quantity is the parsed quantity, 1 when there is none or
    it does not parse; the items are those of the lines, in the order of
    the lines, and each has a price above 0.  "Bagel 2 $3.50" gives
    Bagel, 2, 3.5 and "Service Fee $-1.00" gives nothing. *)
Theorem line_item_rule :
  (forall line item,
     lineItem line = Some item <->
     exists m p,
       exec itemRegex line = Some m
       /\ trim (capture m 1) <> EmptyString
       /\ parseFloat (capture m 3) = Num p
       /\ (0 < p)%Q
       /\ item = {| name := trim (capture m 1);
                    quantity := quantityOrOne (capture m 2);
                    price := Num p |})
  /\ (forall lines,
        parseLineItems lines
        = flat_map (fun line => match lineItem line with
                                | Some item => [item]
                                | None => []
                                end) lines)
  /\ (forall lines item,
        In item (parseLineItems lines) ->
        exists p, price item = Num p /\ (0 < p)%Q)
  /\ quantityOrOne EmptyString = Num 1
  /\ quantityOrOne "." = Num 1
  /\ parseLineItems ["Bagel 2 $3.50"]
     = [ {| name := "Bagel"; quantity := Num (2 # 1); price := Num (7 # 2) |} ]
  /\ parseLineItems ["Service Fee $-1.00"] = [].
Proof.
  split; [exact lineItem_rule|].
  split; [exact parseLineItems_flat_map|].
  split; [|repeat split; vm_compute; reflexivity].
  intros lines item Hin. rewrite parseLineItems_flat_map in Hin.
  apply in_flat_map in Hin as (line & _ & Hitem).
  destruct (lineItem line) as [it|] eqn:E; [|contradiction].
  destruct Hitem as [<-|[]].
  apply lineItem_rule in E as (m & p & _ & _ & _ & Hpos & ->).
  exists p. auto.
Qed.

Lemma line_item_rule_witness :
  exists p, price {| name := "Bagel"; quantity := Num (2 # 1); price := Num (7 # 2) |}
            = Num p /\ (0 < p)%Q.
Proof.
  destruct line_item_rule as (_ & _ & Hprice & _).
  apply (Hprice ["Bagel 2 $3.50"]).
  vm_compute. left. reflexivity.
Defined.

(** *** Date *)

(** C7, as stated, fails: the first match 02/30/2023 is not a valid
    calendar date, yet under the date parsing of the platform the date
    field is present: it is 2 March 2023, the day that lies 30 days into
    February. *)
Lemma invalid_calendar_date_counterexample :
  ~ (forall (localTZA : Z -> Z) (text : string) (m : matchResult),
       exec dateRegex text = Some m ->
       calendarDate (capture m 1) = None ->
       date (parseReceiptText (legacyDate localTZA) text) = None).
Proof.
  intros H.
  destruct (exec dateRegex invalidThenValidDateText) as [m|] eqn:E;
    [|vm_compute in E; discriminate E].
  specialize (H utcZone invalidThenValidDateText m E).
  vm_compute in E. inversion E; subst m; clear E.
  assert (Hinvalid : calendarDate "02/30/2023" = None) by (vm_compute; reflexivity).
  specialize (H Hinvalid). vm_compute in H. discriminate H.
Qed.

Lemma legacyDate_examples (localTZA : Z -> Z) :
  legacyDate localTZA "02/30/2023"
  = Some (1677715200000 - localTZA 1677715200000)
  /\ legacyDate localTZA "03/02/2023"
     = Some (1677715200000 - localTZA 1677715200000)
  /\ legacyDate localTZA "03/01/2023"
     = Some (1677628800000 - localTZA 1677628800000)
  /\ legacyDate localTZA "13/45/2023" = None
  /\ legacyDate localTZA "02/32/2023" = None.
Proof. repeat split. Qed.

(** C7, amended: only the first (leftmost) occurrence of the date
    pattern is looked at: the date is what the platform's date parsing
    makes of that occurrence, and it is absent exactly when the pattern
    occurs nowhere or the platform rejects the first occurrence; no
    later occurrence is tried.  What is rejected is decided by the
    platform: its parsing rejects a month above 12 and a day above 31
    (13/45/2023 followed by a valid date leaves the date absent), but
    carries a day of 1..31 that the month does not have into the next
    month, so that 02/30/2023 gives the same date as 03/02/2023. *)
Theorem first_date_match_only :
  (forall newDate text,
     date (parseReceiptText newDate text) = None <->
     exec dateRegex text = None
     \/ exists m, exec dateRegex text = Some m /\ newDate (capture m 1) = None)
  /\ (forall newDate text m,
        exec dateRegex text = Some m ->
        date (parseReceiptText newDate text) = newDate (capture m 1)
        /\ (forall j, (j < index m)%nat ->
              matchAt dateRegex j (dropString j text) = None))
  /\ (forall localTZA,
        date (parseReceiptText (legacyDate localTZA) rejectedThenValidDateText)
        = None
        /\ date (parseReceiptText (legacyDate localTZA) invalidThenValidDateText)
           = Some (1677715200000 - localTZA 1677715200000)
        /\ legacyDate localTZA "02/30/2023" = legacyDate localTZA "03/02/2023"
        /\ legacyDate localTZA "03/01/2023"
           = Some (1677628800000 - localTZA 1677628800000)).
Proof.
  split; [|split].
  - intros newDate text. cbn [parseReceiptText date]. unfold extractDate.
    destruct (exec dateRegex text) as [m|].
    + split.
      * intros H. right. exists m. auto.
      * intros [H|(m' & Hm & H)]; [discriminate H|]. now inversion Hm; subst.
    + split; auto.
  - intros newDate text m Hm. split.
    + cbn [parseReceiptText date]. unfold extractDate. now rewrite Hm.
    + now apply exec_first.
  - intros localTZA.
    destruct (legacyDate_examples localTZA) as (Hroll & Hmarch & Hvalid & Hrej & _).
    assert (Hfirst : forall text s,
              option_map (fun m => capture m 1) (exec dateRegex text) = Some s ->
              date (parseReceiptText (legacyDate localTZA) text)
              = legacyDate localTZA s).
    { intros text s. cbn [parseReceiptText date]. unfold extractDate.
      destruct (exec dateRegex text) as [m|]; cbn [option_map]; [|discriminate].
      intros H. now inversion H. }
    split; [|split; [|split]].
    + rewrite (Hfirst rejectedThenValidDateText "13/45/2023");
        [exact Hrej|vm_compute; reflexivity].
    + rewrite (Hfirst invalidThenValidDateText "02/30/2023");
        [exact Hroll|vm_compute; reflexivity].
    + now rewrite Hroll, Hmarch.
    + exact Hvalid.
Qed.

Lemma first_date_match_only_witness :
  date (parseReceiptText (legacyDate utcZone) rejectedThenValidDateText) = None
  /\ date (parseReceiptText (legacyDate utcZone) invalidThenValidDateText)
     = Some 1677715200000.
Proof.
  destruct first_date_match_only as (Habsent & Hfirst & _).
  split.
  - apply Habsent. right.
    destruct (exec dateRegex rejectedThenValidDateText) as [m|] eqn:E;
      [|vm_compute in E; discriminate E].
    exists m. split; [reflexivity|].
    vm_compute in E. inversion E. vm_compute. reflexivity.
  - destruct (exec dateRegex invalidThenValidDateText) as [m|] eqn:E;
      [|vm_compute in E; discriminate E].
    destruct (Hfirst (legacyDate utcZone) invalidThenValidDateText m E) as [-> _].
    vm_compute in E. inversion E. vm_compute. reflexivity.
Defined.

(** C10, as stated, fails: the text "Date: 12/31/2099" yields a date in
    2099, later than a current time in 2026. *)
Lemma date_not_after_now_counterexample :
  ~ (forall (text : string) (now d : Z),
       date (parseReceiptText calendarDate text) = Some d -> d <= now).
Proof.
  intros H.
  specialize (H futureDateText sampleNow 4102358400000).
  assert (Hd : date (parseReceiptText calendarDate futureDateText)
               = Some 4102358400000) by (vm_compute; reflexivity).
  specialize (H Hd). vm_compute in H. apply H. reflexivity.
Qed.

(** C10, amended: the field parser never compares the date with the
    current time: a date it produces is exactly what the platform's date
    parsing gives for the first match of the date pattern, and it can be
    later than now (12/31/2099 is returned as such). *)
Theorem date_is_first_match_unclamped (newDate : string -> option Z)
    (text : string) (d : Z) :
  date (parseReceiptText newDate text) = Some d ->
  exists m,
    exec dateRegex text = Some m
    /\ newDate (capture m 1) = Some d.
Proof.
  cbn [parseReceiptText date]. unfold extractDate.
  destruct (exec dateRegex text) as [m|]; [|discriminate].
  intros H. exists m. auto.
Qed.

Lemma date_is_first_match_unclamped_witness :
  exists m,
    exec dateRegex futureDateText = Some m
    /\ calendarDate (capture m 1) = Some 4102358400000.
Proof.
  apply (date_is_first_match_unclamped calendarDate futureDateText).
  vm_compute. reflexivity.
Defined.

(** *** The items field *)

(** C9, as stated, fails: on the empty text the result has no items
    field. *)
Lemma items_always_present_counterexample :
  ~ (forall (newDate : string -> option Z) (text : string),
       exists l, items (parseReceiptText newDate text) = Some l).
Proof.
  intros H. destruct (H calendarDate EmptyString) as [l Hl].
  vm_compute in Hl. discriminate Hl.
Qed.

(** C9, amended: the items field is present exactly when at least one
    line item was extracted, and then holds the extracted items in the
    order of the lines; when no line yields an item the field is absent,
    like the other three fields. *)
Theorem items_present_iff_nonempty (newDate : string -> option Z) (text : string) :
  (items (parseReceiptText newDate text) = None
   <-> parseLineItems (normalizedLines text) = [])
  /\ (forall l,
        items (parseReceiptText newDate text) = Some l ->
        l = parseLineItems (normalizedLines text) /\ l <> []).
Proof.
  cbn [parseReceiptText items].
  destruct (parseLineItems (normalizedLines text)) as [|it l'] eqn:E;
    cbn [List.length Nat.ltb Nat.leb].
  - split; [tauto|]. intros l H; discriminate H.
  - split.
    + split; intros H; discriminate H.
    + intros l H. inversion H; subst. split; [reflexivity|discriminate].
Qed.

Lemma items_present_iff_nonempty_witness :
  items (parseReceiptText calendarDate "Bagel 2 $3.50")
  = Some [ {| name := "Bagel"; quantity := Num (2 # 1); price := Num (7 # 2) |} ]
  /\ items (parseReceiptText calendarDate EmptyString) = None.
Proof.
  split.
  - destruct (items (parseReceiptText calendarDate "Bagel 2 $3.50")) as [l|] eqn:E;
      [|vm_compute in E; discriminate E].
    destruct (items_present_iff_nonempty calendarDate "Bagel 2 $3.50") as [_ H].
    destruct (H l E) as [-> _]. vm_compute. reflexivity.
  - apply (items_present_iff_nonempty calendarDate EmptyString).
    vm_compute. reflexivity.
Defined.

End OcrFacts.
(* ===================================================================== *)
(** ** Further properties of the numbers read by the parser *)
(* ===================================================================== *)

Module NumberMore.
Import Js Number NumberFacts OcrShapes.

Lemma digitValue_nonneg (c : ascii) : isDigit c = true -> 0 <= digitValue c.
Proof.
  unfold isDigit, inRange, digitValue. intros H.
  apply andb_true_iff in H as [H _]. apply N.leb_le in H. lia.
Qed.

Lemma readDigits_nonneg (s : string) :
  forall acc count v n r,
    0 <= acc -> readDigits acc count s = (v, n, r) -> 0 <= v.
Proof.
  induction s as [|c s IH]; intros acc count v n r Hacc H; cbn [readDigits] in H.
  - inversion H; subst. exact Hacc.
  - destruct (isDigit c) eqn:Hd.
    + eapply IH; [|exact H]. pose proof (digitValue_nonneg c Hd). lia.
    + inversion H; subst. exact Hacc.
Qed.

Lemma Num_Qred_nonneg (a : Z) (p : positive) (q : Q) :
  0 <= a -> Num (Qred (a # p)) = Num q -> (0 <= q)%Q.
Proof.
  intros Ha H. inversion H; subst q. rewrite Qred_correct.
  unfold Qle. simpl. lia.
Qed.

(** A numeral without sign is never read as a negative number. *)
Lemma readDecimal_nonneg (s : string) (q : Q) :
  readDecimal s = Num q -> (0 <= q)%Q.
Proof.
  unfold readDecimal.
  destruct (readDigits 0 0 s) as [[int intCount] afterInt] eqn:E.
  assert (Hint : 0 <= int) by (eapply readDigits_nonneg; [|exact E]; lia).
  destruct afterInt as [|c s'].
  - destruct (Nat.eqb (intCount + 0) 0); [discriminate|].
    now apply Num_Qred_nonneg.
  - destruct (Ascii.eqb c ".") eqn:Ec.
    + apply Ascii.eqb_eq in Ec; subst c.
      destruct (readDigits int 0 s') as [[v n] r] eqn:E'.
      assert (Hv : 0 <= v) by (eapply readDigits_nonneg; [|exact E']; lia).
      destruct (Nat.eqb (intCount + n) 0); [discriminate|].
      now apply Num_Qred_nonneg.
    + assert (Hother :
        (match String c s' with
         | String "." s'0 => let '(v, n, r) := readDigits int 0 s'0 in (v, n, r)
         | _ => (int, O, String c s')
         end) = (int, O, String c s')).
      { destruct c as [b0 b1 b2 b3 b4 b5 b6 b7].
        destruct b0, b1, b2, b3, b4, b5, b6, b7; try reflexivity.
        discriminate Ec. }
      rewrite Hother.
      destruct (Nat.eqb (intCount + 0) 0); [discriminate|].
      now apply Num_Qred_nonneg.
Qed.

Lemma digitOrDot_is_plain (ch : ascii) :
  isDigitOrDot ch = true ->
  isSpace ch = false /\ Ascii.eqb ch "-" = false /\ Ascii.eqb ch "+" = false.
Proof.
  destruct ch as [b0 b1 b2 b3 b4 b5 b6 b7].
  destruct b0, b1, b2, b3, b4, b5, b6, b7; vm_compute; intros H;
    try discriminate H; repeat split.
Qed.

(** Text made of digits and dots never parses to a negative number. *)
Lemma parseFloat_plain_nonneg (s : string) (q : Q) :
  RegexLang.allChars isDigitOrDot s = true ->
  parseFloat s = Num q -> (0 <= q)%Q.
Proof.
  destruct s as [|c s']; [discriminate|].
  cbn [RegexLang.allChars]. intros Hall.
  apply andb_true_iff in Hall as [Hc _].
  destruct (digitOrDot_is_plain c Hc) as (Hs & Hm & Hp).
  unfold parseFloat. cbn [trimStart]. rewrite Hs, Hm, Hp.
  apply readDecimal_nonneg.
Qed.

(** Text that starts with a digit parses to a number that is not
    negative. *)
Lemma parseFloat_digit_nonneg (ch : ascii) (w : string) :
  isDigit ch = true ->
  exists q, parseFloat (String ch w) = Num q /\ (0 <= q)%Q.
Proof.
  intros Hd. destruct (parseFloat_digit ch w Hd) as [q Hq].
  exists q. split; [exact Hq|].
  destruct (digit_is_plain ch Hd) as (Hs & Hm & Hp).
  unfold parseFloat in Hq. cbn [trimStart] in Hq. rewrite Hs, Hm, Hp in Hq.
  now apply readDecimal_nonneg in Hq.
Qed.

End NumberMore.

(* ===================================================================== *)
(** ** Further properties of the field parser *)
(* ===================================================================== *)

Module OcrMoreFacts.
Import Js Regex RegexLang Number Ocr OcrShapes.
Import RegexFacts RegexLangFacts NumberFacts NumberMore OcrFacts JsFacts.

(** *** The patterns of the service *)

Lemma totalRegex_wellFormed : wellFormed totalRegex = true.
Proof. vm_compute. reflexivity. Qed.

Lemma amountRegex_wellFormed : wellFormed amountRegex = true.
Proof. vm_compute. reflexivity. Qed.

Lemma dateRegex_wellFormed : wellFormed dateRegex = true.
Proof. vm_compute. reflexivity. Qed.

Lemma itemRegex_wellFormed : wellFormed itemRegex = true.
Proof. vm_compute. reflexivity. Qed.

(** *** Strings *)

Lemma existsChar_trimStart (p : ascii -> bool) (s : string) :
  existsChar p (trimStart s) = true -> existsChar p s = true.
Proof.
  induction s as [|c s IH]; cbn [trimStart existsChar]; [auto|].
  destruct (isSpace c); [|auto].
  intros H. rewrite (IH H). apply orb_true_r.
Qed.

Lemma existsChar_trimEnd (p : ascii -> bool) (s : string) :
  existsChar p (trimEnd s) = true -> existsChar p s = true.
Proof.
  induction s as [|c s IH]; cbn [trimEnd existsChar]; [auto|].
  destruct (trimEnd s) as [|c' t] eqn:E.
  - destruct (isSpace c); cbn [existsChar]; [discriminate|].
    rewrite orb_false_r. intros ->. reflexivity.
  - cbn [existsChar] in *. intros H.
    apply orb_true_iff in H as [H|H]; [now rewrite H|].
    rewrite (IH H). apply orb_true_r.
Qed.

Lemma existsChar_trim (p : ascii -> bool) (s : string) :
  existsChar p (trim s) = true -> existsChar p s = true.
Proof.
  intros H. now apply existsChar_trimStart, existsChar_trimEnd.
Qed.

Lemma existsChar_split (p : ascii -> bool) (sep : ascii) (s piece : string) :
  In piece (split sep s) -> existsChar p piece = true -> existsChar p s = true.
Proof.
  revert piece; induction s as [|c s IH]; intros piece Hin Hp.
  - destruct Hin as [<-|[]]. discriminate Hp.
  - cbn [split] in Hin. cbn [existsChar].
    destruct (Ascii.eqb c sep).
    + destruct Hin as [<-|Hin]; [discriminate Hp|].
      rewrite (IH _ Hin Hp). apply orb_true_r.
    + destruct (split sep s) as [|first others] eqn:E.
      * destruct Hin as [<-|[]]. cbn [existsChar] in Hp.
        rewrite orb_false_r in Hp. now rewrite Hp.
      * destruct Hin as [<-|Hin].
        -- cbn [existsChar] in Hp. apply orb_true_iff in Hp as [Hp|Hp].
           ++ now rewrite Hp.
           ++ rewrite (IH first (or_introl eq_refl) Hp). apply orb_true_r.
        -- rewrite (IH piece (or_intror Hin) Hp). apply orb_true_r.
Qed.

Lemma existsChar_line (p : ascii -> bool) (text line : string) :
  In line (normalizedLines text) -> existsChar p line = true ->
  existsChar p text = true.
Proof.
  intros Hin Hp. apply normalizedLines_spec in Hin as (_ & raw & Hraw & ->).
  eapply existsChar_split; [exact Hraw|]. now apply existsChar_trim.
Qed.





(** *** Amounts are numbers that are not negative *)

Lemma decimal_capture_number (r : regex) (s : string) (i : nat)
    (m : matchResult) (n : nat) :
  wellFormed r = true -> alwaysSet r n = true ->
  forallb (startsOn isDigit) (groupsNamed r n) = true ->
  searchFrom r i s = Some m ->
  exists q, parseFloat (capture m n) = Num q /\ (0 <= q)%Q.
Proof.
  intros Hwf Hset Hchk H.
  destruct (searchFrom_capture_start r s i m n isDigit Hwf Hset Hchk H)
    as (ch & w & -> & Hd).
  now apply parseFloat_digit_nonneg.
Qed.

Lemma amountsLoop_nonneg (text : string) :
  forall fuel lastIndex amounts,
    (forall a, In a amounts -> atLeastZero a) ->
    forall a, In a (amountsLoop fuel text lastIndex amounts) -> atLeastZero a.
Proof.
  induction fuel as [|fuel IH]; intros lastIndex amounts Hacc a Ha;
    cbn [amountsLoop] in Ha; [now apply Hacc|].
  destruct (execGlobal amountRegex text lastIndex) as [[m|] lastIndex'] eqn:E;
    [|now apply Hacc].
  eapply IH; [|exact Ha].
  intros b Hb. apply in_app_or in Hb as [Hb|[<-|[]]]; [now apply Hacc|].
  unfold execGlobal in E.
  destruct (Nat.ltb (String.length text) lastIndex); [discriminate|].
  destruct (searchFrom amountRegex lastIndex (dropString lastIndex text))
    as [m'|] eqn:Es; [|discriminate].
  inversion E; subst m'.
  destruct (decimal_capture_number amountRegex _ _ m 1
              amountRegex_wellFormed eq_refl eq_refl Es) as (q & -> & Hq).
  exact Hq.
Qed.

Lemma dollarAmounts_nonneg (text : string) (a : number) :
  In a (dollarAmounts text) -> atLeastZero a.
Proof. apply amountsLoop_nonneg. intros b []. Qed.

(** The total, when there is one, is never [NaN] and never negative,
    so it passes the bound [min: 0] of the receipt model.  This holds of
    the exact value of the numeral that is read, and rounding that value
    to a double, overflow to infinity included, keeps it. *)
Theorem total_is_not_negative (newDate : string -> option Z)
    (text : string) (v : number) :
  totalAmount (parseReceiptText newDate text) = Some v ->
  atLeastZero v.
Proof.
  cbn [parseReceiptText totalAmount]. unfold extractTotal.
  destruct (exec totalRegex text) as [m|] eqn:E.
  - intros H; inversion H; subst v; clear H.
    destruct (decimal_capture_number totalRegex text 0 m 1
                totalRegex_wellFormed eq_refl eq_refl E) as (q & -> & Hq).
    exact Hq.
  - destruct (dollarAmounts text) as [|a l] eqn:Ed; [discriminate|].
    cbn [List.length Nat.ltb Nat.leb]. intros H.
    destruct (mathMax_largest (a :: l)) as (q & Hq & Hin & _);
      [discriminate| |].
    + intros b Hb. rewrite <- Ed in Hb. now apply dollarAmounts_numbers in Hb.
    + rewrite Hq in H. inversion H; subst v.
      rewrite <- Ed in Hin. exact (dollarAmounts_nonneg text _ Hin).
Qed.

Lemma total_is_not_negative_witness :
  totalAmount (parseReceiptText (fun _ => None) "Subtotal: $7.50 Total $8.10")
  = Some (Num (15 # 2))
  /\ atLeastZero (Num (15 # 2)).
Proof.
  assert (H : totalAmount
                (parseReceiptText (fun _ => None) "Subtotal: $7.50 Total $8.10")
              = Some (Num (15 # 2))) by (vm_compute; reflexivity).
  split; [exact H|].
  exact (total_is_not_negative (fun _ => None)
           "Subtotal: $7.50 Total $8.10" (Num (15 # 2)) H).
Defined.

(** *** Items fit the item schema of the receipt model *)

Lemma itemRegex_quantity_chars :
  forallb (onlyChars isDigitOrDot) (groupsNamed itemRegex 2) = true.
Proof. vm_compute. reflexivity. Qed.

Lemma quantityOrOne_nonneg (line : string) (m : matchResult) :
  exec itemRegex line = Some m -> atLeastZero (quantityOrOne (capture m 2)).
Proof.
  intros H. unfold quantityOrOne.
  destruct (parseFloat (capture m 2)) as [|q] eqn:E; cbn [atLeastZero].
  - unfold Qle; simpl; lia.
  - eapply parseFloat_plain_nonneg; [|exact E].
    exact (searchFrom_capture_chars itemRegex line 0 m 2 isDigitOrDot
             itemRegex_wellFormed itemRegex_quantity_chars H).
Qed.

Lemma lineItem_fits_schema (line : string) (item : LineItem) :
  lineItem line = Some item ->
  name item <> EmptyString
  /\ atLeastZero (quantity item)
  /\ exists p, price item = Num p /\ (0 < p)%Q.
Proof.
  intros H. apply lineItem_rule in H as (m & p & Hm & Hname & _ & Hpos & ->).
  cbn [name quantity price]. split; [exact Hname|].
  split; [now apply (quantityOrOne_nonneg line)|eauto].
Qed.

(** Every item returned by the parser has a name that is not empty, a
    quantity that is a number at least 0 and a price that is a number
    above 0: the item schema of the receipt model (name required,
    quantity and price with minimum 0) accepts it. *)
Theorem items_fit_schema (newDate : string -> option Z) (text : string)
    (l : list LineItem) (item : LineItem) :
  items (parseReceiptText newDate text) = Some l ->
  In item l ->
  name item <> EmptyString
  /\ atLeastZero (quantity item)
  /\ exists p, price item = Num p /\ (0 < p)%Q.
Proof.
  cbn [parseReceiptText items].
  destruct (Nat.ltb 0 (List.length (parseLineItems (normalizedLines text))));
    [|discriminate].
  intros H Hin. inversion H; subst l; clear H.
  rewrite parseLineItems_flat_map in Hin.
  apply in_flat_map in Hin as (line & _ & Hitem).
  destruct (lineItem line) as [it|] eqn:E; [|contradiction].
  destruct Hitem as [<-|[]]. now apply (lineItem_fits_schema line).
Qed.

Lemma items_fit_schema_witness :
  name {| name := "Bagel"; quantity := Num (2 # 1); price := Num (7 # 2) |}
    <> EmptyString
  /\ atLeastZero (Num (2 # 1))
  /\ exists p, Num (7 # 2) = Num p /\ (0 < p)%Q.
Proof.
  apply (items_fit_schema (fun _ => None) "Bagel 2 $3.50"
           [ {| name := "Bagel"; quantity := Num (2 # 1); price := Num (7 # 2) |} ]).
  - vm_compute. reflexivity.
  - left. reflexivity.
Defined.

(** *** What a text without digits, or a line without white space, gives *)

Lemma totalRegex_requires_digit : requires isDigit totalRegex = true.
Proof. vm_compute. reflexivity. Qed.

Lemma amountRegex_requires_digit : requires isDigit amountRegex = true.
Proof. vm_compute. reflexivity. Qed.

Lemma dateRegex_requires_digit : requires isDigit dateRegex = true.
Proof. vm_compute. reflexivity. Qed.

Lemma itemRegex_requires_digit : requires isDigit itemRegex = true.
Proof. vm_compute. reflexivity. Qed.

Lemma itemRegex_requires_space : requires isSpace itemRegex = true.
Proof. vm_compute. reflexivity. Qed.

Lemma not_found_without (r : regex) (p : ascii -> bool) (s : string) (i : nat) :
  wellFormed r = true -> requires p r = true ->
  existsChar p s = false -> searchFrom r i s = None.
Proof.
  intros Hwf Hreq Hno. destruct (searchFrom r i s) as [m|] eqn:E; [|reflexivity].
  apply (searchFrom_requires r s i m p Hwf Hreq) in E. congruence.
Qed.

Lemma flat_map_nil {A B} (f : A -> list B) (l : list A) :
  (forall x, In x l -> f x = []) -> flat_map f l = [].
Proof.
  induction l as [|x l IH]; intros H; [reflexivity|].
  cbn [flat_map]. rewrite (H x (or_introl eq_refl)), IH; [reflexivity|].
  intros y Hy. apply H. now right.
Qed.

Lemma lineItem_needs_space (line : string) (item : LineItem) :
  lineItem line = Some item -> existsChar isSpace line = true.
Proof.
  intros H. apply lineItem_rule in H as (m & _ & Hm & _).
  exact (searchFrom_requires itemRegex line 0 m isSpace
           itemRegex_wellFormed itemRegex_requires_space Hm).
Qed.

Lemma lineItem_needs_digit (line : string) (item : LineItem) :
  lineItem line = Some item -> existsChar isDigit line = true.
Proof.
  intros H. apply lineItem_rule in H as (m & _ & Hm & _).
  exact (searchFrom_requires itemRegex line 0 m isDigit
           itemRegex_wellFormed itemRegex_requires_digit Hm).
Qed.

(** A line yields an item only if it has white space (between the name
    and the price) and a digit. *)
Theorem item_needs_space_and_digit (line : string) (item : LineItem) :
  lineItem line = Some item ->
  existsChar isSpace line = true /\ existsChar isDigit line = true.
Proof.
  intros H. split.
  - now apply (lineItem_needs_space line item).
  - now apply (lineItem_needs_digit line item).
Qed.

Lemma item_needs_space_and_digit_witness :
  existsChar isSpace "Bagel 2 $3.50" = true
  /\ existsChar isDigit "Bagel 2 $3.50" = true.
Proof.
  apply (item_needs_space_and_digit "Bagel 2 $3.50"
           {| name := "Bagel"; quantity := Num (2 # 1); price := Num (7 # 2) |}).
  vm_compute. reflexivity.
Defined.

(** From a text without any digit the parser gets no total, no date and
    no items. *)
Theorem digitless_text_has_no_amount_date_items (newDate : string -> option Z)
    (text : string) :
  existsChar isDigit text = false ->
  totalAmount (parseReceiptText newDate text) = None
  /\ date (parseReceiptText newDate text) = None
  /\ items (parseReceiptText newDate text) = None.
Proof.
  intros Hno. cbn [parseReceiptText totalAmount date items].
  split; [|split].
  - unfold extractTotal, exec.
    rewrite (not_found_without totalRegex isDigit text 0
               totalRegex_wellFormed totalRegex_requires_digit Hno).
    unfold dollarAmounts. cbn [amountsLoop]. unfold execGlobal.
    destruct (Nat.ltb (String.length text) 0); [reflexivity|].
    cbn [dropString].
    rewrite (not_found_without amountRegex isDigit text 0
               amountRegex_wellFormed amountRegex_requires_digit Hno).
    reflexivity.
  - unfold extractDate, exec.
    now rewrite (not_found_without dateRegex isDigit text 0
                   dateRegex_wellFormed dateRegex_requires_digit Hno).
  - rewrite parseLineItems_flat_map, flat_map_nil; [reflexivity|].
    intros line Hin. destruct (lineItem line) as [it|] eqn:E; [|reflexivity].
    apply lineItem_needs_digit in E as Hd.
    apply (existsChar_line isDigit text line Hin) in Hd. congruence.
Qed.

Lemma digitless_text_has_no_amount_date_items_witness :
  totalAmount (parseReceiptText (fun _ => None) "Total due: see cashier") = None
  /\ date (parseReceiptText (fun _ => None) "Total due: see cashier") = None
  /\ items (parseReceiptText (fun _ => None) "Total due: see cashier") = None.
Proof.
  apply (digitless_text_has_no_amount_date_items (fun _ => None)
           "Total due: see cashier").
  vm_compute. reflexivity.
Defined.

(** *** The text handed to the date parsing *)

Lemma dateRegex_chars : onlyChars isDateChar dateRegex = true.
Proof. vm_compute. reflexivity. Qed.

Lemma date_capture_is_match (j : nat) (s : string) (m : matchResult) :
  matchAt dateRegex j s = Some m -> capture m 1 = matched m.
Proof.
  unfold matchAt, dateRegex.
  change (matcher (Group 1 ?r) ?x ?c)
    with (matcher r x (fun y => c (setCapture 1 x y))).
  destruct (matcher _ _ _) as [z|] eqn:E; [|discriminate].
  intros H; inversion H; subst m; clear H.
  apply matcher_advancing in E as (y & Hy & _).
  inversion Hy; subst z. reflexivity.
Qed.

(** The date parsing of the platform is only ever given a piece of the
    text that is 6 to 10 characters long and made of digits and of the
    separators slash, dash and dot. *)
Theorem date_text_shape (newDate : string -> option Z) (text : string) (d : Z) :
  date (parseReceiptText newDate text) = Some d ->
  exists s pre tail,
    text = String.append pre (String.append s tail)
    /\ newDate s = Some d
    /\ allChars isDateChar s = true
    /\ (6 <= String.length s <= 10)%nat.
Proof.
  cbn [parseReceiptText date]. unfold extractDate.
  destruct (exec dateRegex text) as [m|] eqn:E; [|discriminate].
  intros Hd.
  destruct (exec_first dateRegex text m E) as [Hat _].
  apply date_capture_is_match in Hat. rewrite Hat in Hd.
  apply (exec_sound dateRegex text m dateRegex_wellFormed) in E
    as (pre & tail & Htext & _ & Hl & _).
  exists (matched m), pre, tail. split; [exact Htext|]. split; [exact Hd|].
  split; [exact (lang_onlyChars isDateChar dateRegex dateRegex_chars _ Hl)|].
  pose proof (lang_minLength dateRegex _ Hl) as Hmin.
  pose proof (lang_maxLength dateRegex 10 _ eq_refl Hl) as Hmax.
  change (minLength dateRegex) with 6%nat in Hmin. lia.
Qed.

Lemma date_text_shape_witness :
  exists s pre tail,
    Ocr.futureDateText = String.append pre (String.append s tail)
    /\ Calendar.calendarDate s = Some 4102358400000
    /\ allChars isDateChar s = true
    /\ (6 <= String.length s <= 10)%nat.
Proof.
  apply (date_text_shape Calendar.calendarDate Ocr.futureDateText).
  vm_compute. reflexivity.
Defined.

(** *** Texts without a label word *)





(** *** The fuel of the loop over the dollar amounts *)

Lemma dropString_length (n : nat) (s : string) :
  String.length (dropString n s) = (String.length s - n)%nat.
Proof.
  revert s; induction n as [|n IH]; intros s; cbn [dropString].
  - lia.
  - destruct s as [|c s]; [reflexivity|]. cbn [String.length]. apply IH.
Qed.

Lemma execGlobal_advances (text : string) (lastIndex : nat) (m : matchResult)
    (lastIndex' : nat) :
  execGlobal amountRegex text lastIndex = (Some m, lastIndex') ->
  (lastIndex + 2 <= lastIndex' <= String.length text)%nat.
Proof.
  unfold execGlobal.
  destruct (Nat.ltb (String.length text) lastIndex) eqn:El; [discriminate|].
  apply Nat.ltb_ge in El.
  destruct (searchFrom amountRegex lastIndex (dropString lastIndex text))
    as [m'|] eqn:Es; [|discriminate].
  intros H; inversion H; subst m' lastIndex'; clear H.
  apply (searchFrom_sound amountRegex amountRegex_wellFormed) in Es
    as (pre & tail & Hs & Hi & Hl & _).
  pose proof (lang_minLength amountRegex _ Hl) as Hmin.
  change (minLength amountRegex) with 2%nat in Hmin.
  apply (f_equal String.length) in Hs.
  rewrite dropString_length, !string_app_length in Hs. lia.
Qed.

(** The fuel given to the loop over the dollar amounts is enough: with
    any larger fuel the amounts found are the same. *)
Lemma amounts_fuel_is_enough (text : string) :
  forall fuel1 fuel2 lastIndex amounts,
    (String.length text - lastIndex < fuel1)%nat ->
    (String.length text - lastIndex < fuel2)%nat ->
    amountsLoop fuel1 text lastIndex amounts
    = amountsLoop fuel2 text lastIndex amounts.
Proof.
  induction fuel1 as [|fuel1 IH]; intros fuel2 lastIndex amounts H1 H2; [lia|].
  destruct fuel2 as [|fuel2]; [lia|]. cbn [amountsLoop].
  destruct (execGlobal amountRegex text lastIndex) as [[m|] lastIndex'] eqn:E;
    [|reflexivity].
  apply execGlobal_advances in E. apply IH; lia.
Qed.

(** *** The merchant name returned *)

Lemma In_firstn {A} (n : nat) (l : list A) (x : A) :
  In x (firstn n l) -> In x l.
Proof.
  revert l; induction n as [|n IH]; intros l H; [contradiction|].
  destruct l as [|y l]; [contradiction|].
  cbn [firstn] in H. destruct H as [->|H]; [now left|right; auto].
Qed.

Lemma firstn_app_enough {A} (n : nat) (l more : list A) :
  (n <= List.length l)%nat -> firstn n (l ++ more) = firstn n l.
Proof.
  revert l; induction n as [|n IH]; intros l H; [reflexivity|].
  destruct l as [|y l]; [cbn [List.length] in H; lia|].
  cbn [app firstn]. f_equal. apply IH. cbn [List.length] in H. lia.
Qed.

(** A merchant name returned by the parser is one of the first three
    normalized lines (a trimmed line of the text), has no digit, has
    more than 3 characters and contains neither "receipt" nor "tax" in
    any letter case; and the normalized lines after the third never
    change the merchant name. *)
Theorem merchant_name_invariants :
  (forall newDate text m,
     merchantName (parseReceiptText newDate text) = Some m ->
     In m (firstn 3 (normalizedLines text))
     /\ (exists raw, In raw (split LF text) /\ m = trim raw)
     /\ existsChar isDigit m = false
     /\ (3 < String.length m)%nat
     /\ includes (toLowerCase m) "receipt" = false
     /\ includes (toLowerCase m) "tax" = false)
  /\ (forall lines more,
        (3 <= List.length lines)%nat ->
        extractMerchant (lines ++ more) = extractMerchant lines).
Proof.
  split.
  - intros newDate text m. cbn [parseReceiptText merchantName].
    rewrite extractMerchant_find. intros H.
    apply find_some in H as [Hin Hq].
    split; [exact Hin|]. split.
    + apply In_firstn in Hin. apply normalizedLines_spec in Hin as (_ & Hraw).
      exact Hraw.
    + unfold qualifiesAsMerchant in Hq.
      rewrite !andb_true_iff, !negb_true_iff, Nat.ltb_lt in Hq. tauto.
  - intros lines more Hlen.
    now rewrite !extractMerchant_find, firstn_app_enough.
Qed.

Lemma merchant_name_invariants_witness :
  existsChar isDigit "Joe's Diner" = false
  /\ extractMerchant (["RECEIPT #12"; "Joe's Diner"; "Main Street"] ++ ["Total 5"])
     = Some "Joe's Diner".
Proof.
  destruct merchant_name_invariants as [Hinv Hfirst].
  split.
  - apply (Hinv (fun _ => None)
             (String.append "RECEIPT #12"
                (String.append newline
                   (String.append "Joe's Diner"
                      (String.append newline "Main Street"))))).
    vm_compute. reflexivity.
  - rewrite Hfirst; [vm_compute; reflexivity|cbn [List.length]; lia].
Defined.

(** *** Items of a text made of two texts *)

Lemma split_nonempty (sep : ascii) (s : string) : split sep s <> [].
Proof.
  destruct s as [|c s]; cbn [split]; [discriminate|].
  destruct (Ascii.eqb c sep); [discriminate|].
  destruct (split sep s); discriminate.
Qed.

Lemma split_join (sep : ascii) (a b : string) :
  split sep (String.append a (String sep b)) = split sep a ++ split sep b.
Proof.
  induction a as [|c a IH].
  - rewrite string_app_nil_l. cbn [split]. now rewrite Ascii.eqb_refl.
  - rewrite string_app_cons. cbn [split]. rewrite IH.
    destruct (Ascii.eqb c sep); [reflexivity|].
    destruct (split sep a) as [|piece pieces] eqn:E;
      [now apply split_nonempty in E|].
    reflexivity.
Qed.

Lemma normalizedLines_join (a b : string) :
  normalizedLines (String.append a (String LF b))
  = normalizedLines a ++ normalizedLines b.
Proof.
  unfold normalizedLines. now rewrite split_join, map_app, List.filter_app.
Qed.

Lemma flat_map_length_le {A B} (f : A -> list B) (l : list A) :
  (forall x, List.length (f x) <= 1)%nat ->
  (List.length (flat_map f l) <= List.length l)%nat.
Proof.
  intros Hf. induction l as [|x l IH]; [reflexivity|].
  cbn [flat_map List.length]. rewrite List.length_app.
  specialize (Hf x). lia.
Qed.

(** The items of two texts joined by a line break are the items of the
    first text followed by the items of the second, and a text never
    yields more items than it has normalized lines. *)
Theorem items_of_joined_texts (a b : string) :
  parseLineItems (normalizedLines (String.append a (String LF b)))
  = parseLineItems (normalizedLines a) ++ parseLineItems (normalizedLines b)
  /\ (List.length (parseLineItems (normalizedLines a))
      <= List.length (normalizedLines a))%nat.
Proof.
  split.
  - rewrite normalizedLines_join, !parseLineItems_flat_map.
    apply flat_map_app.
  - rewrite parseLineItems_flat_map. apply flat_map_length_le.
    intros line. destruct (lineItem line); cbn [List.length]; lia.
Qed.

End OcrMoreFacts.
(* ===================================================================== *)
(** ** Properties of the OCR pipeline *)
(* ===================================================================== *)

Module PipelineFacts.
Import Js Number Ocr Pipeline.

Lemma length_append (a b : string) :
  String.length (String.append a b) = (String.length a + String.length b)%nat.
Proof. induction a as [|c a IH]; simpl; [reflexivity|]. now rewrite IH. Qed.

Lemma splitLastSlash_parts (p dir base : string) :
  splitLastSlash p = Some (dir, base) -> p = String.append dir base.
Proof.
  revert dir base; induction p as [|c p IH]; intros dir base H; simpl in H.
  - discriminate H.
  - destruct (splitLastSlash p) as [[d b]|].
    + inversion H; subst.
      transitivity (String c (String.append d base)); [|reflexivity].
      f_equal. now apply IH.
    + destruct (Ascii.eqb c "/") eqn:E; [|discriminate].
      apply Ascii.eqb_eq in E. inversion H; subst. reflexivity.
Qed.

(** The output path is ten characters longer than the image path, hence
    another path. *)
Lemma outputPathOf_length (imagePath : string) :
  String.length (outputPathOf imagePath) = (String.length imagePath + 10)%nat.
Proof.
  unfold outputPathOf.
  destruct (splitLastSlash imagePath) as [[dir base]|] eqn:E.
  - apply splitLastSlash_parts in E. subst imagePath.
    rewrite !length_append. simpl. lia.
  - rewrite length_append. simpl. lia.
Qed.

Lemma outputPathOf_differs (imagePath : string) :
  String.eqb (outputPathOf imagePath) imagePath = false.
Proof.
  apply String.eqb_neq. intros H.
  pose proof (outputPathOf_length imagePath) as Hlen.
  rewrite H in Hlen. lia.
Qed.

Section Runs.
Variable sharpWrites : string -> bool.
Variable recognize : string -> option (string * Q).
Variable newDate : string -> option Z.

(** When the recognition succeeds the temporary file is removed. *)
Lemma success_removes_temp_file (files : gset string) (imagePath : string)
    (text : string) (engineConfidence : Q) :
  sharpWrites imagePath = true ->
  recognize (outputPathOf imagePath) = Some (text, engineConfidence) ->
  let run := processReceiptOCR sharpWrites recognize newDate files imagePath in
  (outputPathOf imagePath ∉ fst run)
  /\ (exists result, snd run = inl result).
Proof.
  intros Hsharp Hrec run. subst run.
  unfold processReceiptOCR, preprocessImage.
  rewrite Hsharp, Hrec, outputPathOf_differs. cbn [negb].
  unfold unlinkSync.
  assert (Hin : outputPathOf imagePath ∈ {[outputPathOf imagePath]} ∪ files)
    by set_solver.
  destruct (decide (outputPathOf imagePath ∈ {[outputPathOf imagePath]} ∪ files))
    as [Hyes|Hnot]; [|contradiction].
  cbn [fst snd]. split; [|eauto].
  apply not_elem_of_difference. right. now apply elem_of_singleton.
Qed.

(** When the recognition rejects, the error is raised with the temporary
    file still in place. *)
Lemma failure_keeps_temp_file (files : gset string) (imagePath : string) :
  sharpWrites imagePath = true ->
  recognize (outputPathOf imagePath) = None ->
  let run := processReceiptOCR sharpWrites recognize newDate files imagePath in
  (outputPathOf imagePath ∈ fst run)
  /\ snd run = inr ocrFailure.
Proof.
  intros Hsharp Hrec run. subst run.
  unfold processReceiptOCR, preprocessImage.
  rewrite Hsharp, Hrec. cbn [fst snd]. split; [set_solver|reflexivity].
Qed.

End Runs.

(** C8 fails on the code: when the image conversion has written the
    temporary file and the recognition step rejects, the pipeline raises
    its error and the temporary file "uploads/processed_r.jpg" is still
    there; on the path where the recognition succeeds it is removed. *)
Theorem temp_file_survives_ocr_failure :
  outputPathOf uploadedImage = "uploads/processed_r.jpg"
  /\ snd runWithFailingOcr = inr ocrFailure
  /\ ("uploads/processed_r.jpg" ∈ fst runWithFailingOcr)
  /\ ("uploads/processed_r.jpg" ∉ fst runWithWorkingOcr).
Proof.
  assert (Hout : outputPathOf uploadedImage = "uploads/processed_r.jpg")
    by (vm_compute; reflexivity).
  split; [exact Hout|]. rewrite <- Hout.
  destruct (failure_keeps_temp_file (fun _ => true) (fun _ => None)
              (fun _ => None) {[ uploadedImage ]} uploadedImage
              eq_refl eq_refl) as [Hin Herr].
  destruct (success_removes_temp_file (fun _ => true)
              (fun _ => Some ("Total $8.10", 87 # 1))
              (fun _ => None) {[ uploadedImage ]} uploadedImage
              "Total $8.10" (87 # 1) eq_refl eq_refl) as [Hout' _].
  split; [exact Herr|]. split; [exact Hin|exact Hout'].
Qed.

End PipelineFacts.
(* ===================================================================== *)
(** ** Properties of the categorization service *)
(* ===================================================================== *)

Module CategorizationFacts.
Import Js JsFacts Categorization.

(** *** Score objects *)

Lemma setProp_new (obj : scoreObject) (k : string) (v : Z) :
  ~ In k (map fst obj) -> setProp obj k v = obj ++ [(k, v)].
Proof.
  induction obj as [|[k' v'] obj IH]; simpl; intros Hk; [reflexivity|].
  destruct (String.eqb k' k) eqn:E.
  - apply String.eqb_eq in E. exfalso; apply Hk; now left.
  - rewrite IH; [reflexivity|]. intros Hin; apply Hk; now right.
Qed.

Lemma getProp_In (obj : scoreObject) (k : string) (v : Z) :
  List.NoDup (map fst obj) -> In (k, v) obj -> getProp obj k = Some v.
Proof.
  induction obj as [|[k' v'] obj IH]; simpl; intros Hnd Hin; [contradiction|].
  inversion Hnd as [|? ? Hnotin Hnd']; subst.
  destruct Hin as [Heq|Hin].
  - inversion Heq; subst. now rewrite String.eqb_refl.
  - destruct (String.eqb k' k) eqn:E.
    + apply String.eqb_eq in E; subst k'.
      exfalso; apply Hnotin. apply (in_map fst) in Hin. exact Hin.
    + now apply IH.
Qed.

Section Scores.
Variable input : CategorizationInput.

Lemma map_fst_scoreEntry (table : list (string * list string)) :
  map fst (map (scoreEntry input) table) = map fst table.
Proof. rewrite map_map. apply map_ext. reflexivity. Qed.

Lemma scoresOver_acc (table : list (string * list string)) (acc : scoreObject) :
  List.NoDup (map fst acc ++ map fst table) ->
  fold_left
    (fun obj entry => setProp obj (fst entry) (categoryScore input (snd entry)))
    table acc
  = acc ++ map (scoreEntry input) table.
Proof.
  revert acc; induction table as [|[c kws] table IH]; intros acc Hnd; simpl.
  - now rewrite app_nil_r.
  - assert (Hc : ~ In c (map fst acc)).
    { intros Hin. apply List.NoDup_remove_2 in Hnd. apply Hnd.
      apply in_or_app; now left. }
    rewrite setProp_new by exact Hc.
    rewrite IH.
    + rewrite <- app_assoc. reflexivity.
    + rewrite map_app. simpl. rewrite <- app_assoc. exact Hnd.
Qed.

Lemma scoresOver_map (table : list (string * list string)) :
  List.NoDup (map fst table) ->
  scoresOver table input = map (scoreEntry input) table.
Proof.
  intros Hnd. unfold scoresOver. now rewrite scoresOver_acc.
Qed.

End Scores.

Lemma table_keys_NoDup : List.NoDup (map fst CATEGORY_KEYWORDS).
Proof.
  apply (List.NoDup_count_occ' string_dec).
  intros x Hin. cbv [CATEGORY_KEYWORDS map fst] in Hin |- *.
  repeat (destruct Hin as [<-|Hin]; [vm_compute; reflexivity|]).
  contradiction.
Qed.

Lemma categoryScores_map (input : CategorizationInput) :
  categoryScores input = map (scoreEntry input) CATEGORY_KEYWORDS.
Proof. apply scoresOver_map, table_keys_NoDup. Qed.

Lemma categoryScores_keys (input : CategorizationInput) :
  map fst (categoryScores input) = getAllCategories.
Proof. rewrite categoryScores_map. apply map_fst_scoreEntry. Qed.

Lemma categoryScores_NoDup (input : CategorizationInput) :
  List.NoDup (map fst (categoryScores input)).
Proof. rewrite categoryScores_keys. apply table_keys_NoDup. Qed.

(** *** The reduction that picks the best entry *)

Lemma better_le (obj : scoreObject) (a b : string * Z) :
  List.NoDup (map fst obj) -> In a obj -> In b obj ->
  better obj a b = if Z.ltb (snd b) (snd a) then a else b.
Proof.
  intros Hnd Ha Hb. unfold better.
  destruct a as [ka va], b as [kb vb]; simpl.
  rewrite (getProp_In obj ka va Hnd Ha), (getProp_In obj kb vb Hnd Hb).
  reflexivity.
Qed.

(** Invariant of the reduction: the accumulator is an entry already seen,
    no entry before it is larger, every entry after it is smaller. *)
Lemma reduce_split (obj : scoreObject) :
  List.NoDup (map fst obj) ->
  forall others pre acc post,
    (forall e, In e (pre ++ acc :: post ++ others) -> In e obj) ->
    Forall (fun e => snd e <= snd acc) pre ->
    Forall (fun e => snd e < snd acc) post ->
    exists pre' post',
      pre ++ acc :: post ++ others
      = pre' ++ fold_left (better obj) others acc :: post'
      /\ Forall (fun e => snd e <= snd (fold_left (better obj) others acc)) pre'
      /\ Forall (fun e => snd e < snd (fold_left (better obj) others acc)) post'.
Proof.
  intros Hnd. induction others as [|b others IH]; intros pre acc post Hin Hpre Hpost.
  - exists pre, post. simpl. rewrite app_nil_r. auto.
  - cbn [fold_left].
    assert (Ha : In acc obj) by (apply Hin, in_or_app; right; now left).
    assert (Hb : In b obj).
    { apply Hin, in_or_app; right; right. apply in_or_app; right; now left. }
    rewrite (better_le obj acc b Hnd Ha Hb).
    destruct (Z.ltb (snd b) (snd acc)) eqn:E.
    + apply Z.ltb_lt in E.
      destruct (IH pre acc (post ++ [b])) as (pre' & post' & Heq & H1 & H2).
      * intros e He. apply Hin. rewrite <- app_assoc in He. exact He.
      * exact Hpre.
      * apply List.Forall_app; split; [exact Hpost|]. constructor; [exact E|constructor].
      * exists pre', post'. rewrite <- app_assoc in Heq. auto.
    + apply Z.ltb_ge in E.
      destruct (IH (pre ++ acc :: post) b []) as (pre' & post' & Heq & H1 & H2).
      * intros e He. apply Hin. rewrite <- app_assoc in He. exact He.
      * apply List.Forall_app; split.
        -- eapply List.Forall_impl; [|exact Hpre]. simpl; intros; lia.
        -- constructor; [exact E|].
           eapply List.Forall_impl; [|exact Hpost]. simpl; intros; lia.
      * constructor.
      * exists pre', post'. rewrite <- app_assoc in Heq. auto.
Qed.

Lemma reduceEntries_split (obj : scoreObject) :
  List.NoDup (map fst obj) -> obj <> [] ->
  exists best pre post,
    reduceEntries obj = Some best
    /\ obj = pre ++ best :: post
    /\ Forall (fun e => snd e <= snd best) pre
    /\ Forall (fun e => snd e < snd best) post.
Proof.
  intros Hnd Hne. destruct obj as [|first others]; [contradiction|].
  destruct (reduce_split (first :: others) Hnd others [] first [])
    as (pre & post & Heq & H1 & H2); [auto|constructor|constructor|].
  exists (fold_left (better (first :: others)) others first), pre, post.
  simpl in Heq. auto.
Qed.

(** *** The largest score *)

Lemma maxScoreOf_ge (obj : scoreObject) (e : string * Z) :
  In e obj -> snd e <= maxScoreOf obj.
Proof.
  induction obj as [|x obj IH]; simpl; [contradiction|].
  intros [->|Hin]; [lia|]. specialize (IH Hin). lia.
Qed.

Lemma maxScoreOf_nonneg (obj : scoreObject) : 0 <= maxScoreOf obj.
Proof. induction obj; simpl; lia. Qed.

Lemma maxScoreOf_attained (obj : scoreObject) :
  0 < maxScoreOf obj -> exists e, In e obj /\ snd e = maxScoreOf obj.
Proof.
  induction obj as [|x obj IH]; simpl; [lia|]. intros Hpos.
  destruct (Z.max_spec (snd x) (maxScoreOf obj)) as [[Hlt Hmax]|[Hle Hmax]].
  - destruct IH as (e & He & Hs); [lia|]. exists e. split; [now right|lia].
  - exists x. split; [now left|lia].
Qed.

Lemma categoryScores_nonempty (input : CategorizationInput) :
  categoryScores input <> [].
Proof. rewrite categoryScores_map. discriminate. Qed.

(** What the reduction returns, against the largest score. *)
Lemma best_of_object (obj : scoreObject) :
  List.NoDup (map fst obj) -> obj <> [] ->
  exists best pre post,
    reduceEntries obj = Some best
    /\ obj = pre ++ best :: post
    /\ Forall (fun e => snd e < snd best) post
    /\ (0 < maxScoreOf obj -> snd best = maxScoreOf obj)
    /\ snd best <= maxScoreOf obj.
Proof.
  intros Hnd Hne.
  destruct (reduceEntries_split obj Hnd Hne)
    as (best & pre & post & Hred & Heq & Hpre & Hpost).
  assert (Hbest : In best obj).
  { rewrite Heq. apply in_or_app; right; now left. }
  assert (Hle : snd best <= maxScoreOf obj) by now apply maxScoreOf_ge.
  exists best, pre, post.
  split; [exact Hred|]. split; [exact Heq|]. split; [exact Hpost|].
  split; [|exact Hle].
  intros Hpos.
  destruct (maxScoreOf_attained obj Hpos) as (e & He & Hs).
  assert (Hge : snd e <= snd best).
  { rewrite Heq in He. apply in_app_or in He as [He|[->|He]].
    - rewrite List.Forall_forall in Hpre. now apply Hpre.
    - lia.
    - rewrite List.Forall_forall in Hpost. specialize (Hpost _ He). lia. }
  lia.
Qed.

Lemma best_is_max (input : CategorizationInput) :
  exists best pre post,
    reduceEntries (categoryScores input) = Some best
    /\ categoryScores input = pre ++ best :: post
    /\ Forall (fun e => snd e < snd best) post
    /\ (0 < maxScore input -> snd best = maxScore input)
    /\ snd best <= maxScore input.
Proof.
  unfold maxScore.
  generalize (categoryScores_NoDup input) (categoryScores_nonempty input).
  generalize (categoryScores input). exact best_of_object.
Qed.

Lemma filter_all_false {A} (f : A -> bool) (l : list A) :
  Forall (fun x => f x = false) l -> List.filter f l = [].
Proof.
  induction 1 as [|x l Hx _ IH]; simpl; [reflexivity|]. now rewrite Hx.
Qed.

(** *** The score of a category *)

Lemma haystack_prefix (input : CategorizationInput) :
  exists rest,
    haystack input = String.append (toLowerCase (merchantName input)) rest.
Proof.
  unfold haystack. rewrite join_cons2, toLowerCase_app. eauto.
Qed.

Lemma keywordPoints_weighted (input : CategorizationInput) (keyword : string) :
  keywordPoints input keyword = merchantWeightedPoints input keyword.
Proof.
  unfold keywordPoints, merchantWeightedPoints.
  destruct (includes (toLowerCase (merchantName input)) (toLowerCase keyword)) eqn:Hm.
  - destruct (haystack_prefix input) as [rest ->].
    now rewrite (includes_app _ rest _ Hm).
  - destruct (includes (haystack input) (toLowerCase keyword)); reflexivity.
Qed.

Lemma fold_left_points (f : string -> Z) (l : list string) (a : Z) :
  fold_left (fun score keyword => score + f keyword) l a
  = a + sumPoints (map f l).
Proof.
  revert a; induction l as [|k l IH]; intros a; simpl; [lia|].
  rewrite IH. unfold sumPoints. lia.
Qed.

Lemma categoryScore_sum (input : CategorizationInput) (keywords : list string) :
  categoryScore input keywords
  = sumPoints (map (merchantWeightedPoints input) keywords).
Proof.
  unfold categoryScore. rewrite fold_left_points.
  rewrite (map_ext _ _ (keywordPoints_weighted input)). lia.
Qed.

Lemma table_score (input : CategorizationInput) (category : string)
    (keywords : list string) :
  In (category, keywords) CATEGORY_KEYWORDS ->
  getProp (categoryScores input) category = Some (categoryScore input keywords).
Proof.
  intros Hin. apply getProp_In; [apply categoryScores_NoDup|].
  rewrite categoryScores_map.
  change (category, categoryScore input keywords)
    with (scoreEntry input (category, keywords)).
  now apply in_map.
Qed.

(** The entries that attain the largest score end with the one the
    reduction returns. *)
Lemma last_maximal_of_object (obj : scoreObject) :
  List.NoDup (map fst obj) -> obj <> [] -> 0 < maxScoreOf obj ->
  exists best earlier,
    reduceEntries obj = Some best
    /\ 0 < snd best
    /\ map fst (List.filter (fun e => Z.eqb (snd e) (maxScoreOf obj)) obj)
       = earlier ++ [fst best].
Proof.
  intros Hnd Hne Hpos.
  destruct (best_of_object obj Hnd Hne)
    as (best & pre & post & Hred & Heq & Hpost & Hmax & _).
  specialize (Hmax Hpos).
  exists best,
    (map fst (List.filter (fun e => Z.eqb (snd e) (maxScoreOf obj)) pre)).
  split; [exact Hred|]. split; [lia|].
  generalize dependent (maxScoreOf obj). intros mx Hpos Hmax.
  rewrite Heq. rewrite List.filter_app. cbn [List.filter].
  assert (He : Z.eqb (snd best) mx = true) by (apply Z.eqb_eq; lia).
  rewrite He.
  rewrite (filter_all_false _ post).
  - rewrite map_app. reflexivity.
  - eapply List.Forall_impl; [|exact Hpost].
    cbn beta. intros e Hlt. apply Z.eqb_neq. lia.
Qed.

(** *** The claims about the scorer *)

(** C1, as stated, fails: with merchant name "Gas" the categories
    Transportation and Utilities tie at the maximum score 3, and the
    scorer returns Utilities, which is declared after Transportation. *)
Lemma tie_first_declared_counterexample :
  ~ (forall input : CategorizationInput,
       (2 <= List.length (maximalCategories input))%nat ->
       categorizeReceipt input = hd "Other" (maximalCategories input)).
Proof.
  intros H. specialize (H gasInput).
  assert (Hlen : (2 <= List.length (maximalCategories gasInput))%nat)
    by (vm_compute; lia).
  specialize (H Hlen). vm_compute in H. discriminate H.
Qed.

(** C1, amended: for every categorization input whose maximum keyword
    score is positive, the scorer returns the category declared LAST in
    the keyword table among the categories that attain the maximum (the
    reduction keeps its accumulator only on a strictly larger score). *)
Theorem tie_last_declared (input : CategorizationInput) :
  0 < maxScore input ->
  exists earlier,
    maximalCategories input = earlier ++ [categorizeReceipt input].
Proof.
  unfold maxScore, maximalCategories, categorizeReceipt, maxScore.
  generalize (categoryScores_NoDup input) (categoryScores_nonempty input).
  generalize (categoryScores input). intros obj Hnd Hne Hpos.
  destruct (last_maximal_of_object obj Hnd Hne Hpos)
    as (best & earlier & Hred & Hbest & Hlist).
  exists earlier. rewrite Hred.
  apply Z.ltb_lt in Hbest. rewrite Hbest. exact Hlist.
Qed.

Lemma tie_last_declared_witness :
  exists earlier,
    maximalCategories gasInput = earlier ++ [categorizeReceipt gasInput].
Proof.
  apply (tie_last_declared gasInput). vm_compute. reflexivity.
Defined.

(** *** The haystack, field by field *)

Lemma join_names (x : string) (l : list Item) :
  join " " (x :: map itemName l) = String.append x (spaceSeparatedNames l).
Proof.
  revert x; induction l as [|i l IH]; intros x.
  - cbn [map join spaceSeparatedNames fold_right].
    now rewrite RegexLangFacts.string_app_nil_r.
  - cbn [map]. rewrite join_cons2, IH. reflexivity.
Qed.

Lemma haystack_concatenated (input : CategorizationInput) :
  haystack input = toLowerCase (concatenatedTexts input).
Proof.
  unfold haystack, concatenatedTexts.
  assert (Hd : descriptionOrEmpty input
               = match description input with Some d => d | None => EmptyString end).
  { unfold descriptionOrEmpty. destruct (description input) as [[|c d]|]; reflexivity. }
  assert (Hi : itemNames input
               = map itemName (match items input with Some l => l | None => [] end)).
  { unfold itemNames. destruct (items input); reflexivity. }
  rewrite Hd, Hi, join_cons2, join_names. reflexivity.
Qed.

Lemma includes_suffix (a s p : string) :
  includes s p = true -> includes (String.append a s) p = true.
Proof.
  intros H. induction a as [|c a IH]; [exact H|].
  rewrite RegexLangFacts.string_app_cons. cbn [includes].
  rewrite IH. apply orb_true_r.
Qed.

Lemma names_include (l : list Item) (item : Item) (p : string) :
  In item l ->
  includes (toLowerCase (itemName item)) p = true ->
  includes (toLowerCase (spaceSeparatedNames l)) p = true.
Proof.
  intros Hin Hp. induction l as [|i l IH]; [contradiction|].
  cbn [spaceSeparatedNames fold_right]. fold (spaceSeparatedNames l).
  rewrite !toLowerCase_app. apply includes_suffix.
  destruct Hin as [->|Hin].
  - now apply includes_app.
  - apply includes_suffix. now apply IH.
Qed.

Lemma description_in_haystack (input : CategorizationInput) (d p : string) :
  description input = Some d ->
  includes (toLowerCase d) p = true -> includes (haystack input) p = true.
Proof.
  intros Hd Hp. rewrite haystack_concatenated. unfold concatenatedTexts.
  rewrite Hd, !toLowerCase_app.
  apply includes_suffix, includes_suffix. now apply includes_app.
Qed.

Lemma item_in_haystack (input : CategorizationInput) (l : list Item)
    (item : Item) (p : string) :
  items input = Some l -> In item l ->
  includes (toLowerCase (itemName item)) p = true ->
  includes (haystack input) p = true.
Proof.
  intros Hl Hin Hp. rewrite haystack_concatenated. unfold concatenatedTexts.
  rewrite Hl, !toLowerCase_app.
  apply includes_suffix, includes_suffix, includes_suffix.
  now apply (names_include l item).
Qed.

Lemma found_keyword_points (input : CategorizationInput) (keyword : string) :
  includes (haystack input) (toLowerCase keyword) = true ->
  1 <= keywordPoints input keyword.
Proof.
  intros H. unfold keywordPoints. rewrite H.
  destruct (includes (toLowerCase (merchantName input)) (toLowerCase keyword)); lia.
Qed.

(** C3: each keyword of a category contributes 3 points when its
    lowercase form occurs in the lowercased merchant name, otherwise 1
    point when it occurs in the haystack, otherwise 0 (the merchant
    weight replaces the base point); the score stored for a category of
    the table is the sum of these contributions over its keywords.  The
    haystack is the lowercased text made of the merchant name, the
    description and every item name, separated by spaces, so that a
    keyword found in the description or in the name of an item counts
    at least 1 point, and exactly 1 when the merchant name does not
    contain it.  "Starbucks Coffee" with no items and an empty
    description resolves to "Food & Dining" (its keyword "starbucks"
    counts 3, not 4); a merchant "ACME" with an item "Filter Coffee"
    resolves to "Food & Dining" with score 1, and with the description
    "Taxi to the Airport" to "Transportation". *)
Theorem merchant_weighted_score :
  (forall input keyword,
     keywordPoints input keyword = merchantWeightedPoints input keyword)
  /\ (forall input keyword,
        merchantWeightedPoints input keyword =
          if includes (toLowerCase (merchantName input)) (toLowerCase keyword)
          then 3
          else if includes (haystack input) (toLowerCase keyword) then 1 else 0)
  /\ (forall input category keywords,
        In (category, keywords) CATEGORY_KEYWORDS ->
        getProp (categoryScores input) category
        = Some (sumPoints (map (merchantWeightedPoints input) keywords)))
  /\ categorizeReceipt starbucksInput = "Food & Dining"
  /\ (forall input, haystack input = toLowerCase (concatenatedTexts input))
  /\ (forall input d keyword,
        description input = Some d ->
        includes (toLowerCase d) (toLowerCase keyword) = true ->
        1 <= keywordPoints input keyword)
  /\ (forall input l item keyword,
        items input = Some l -> In item l ->
        includes (toLowerCase (itemName item)) (toLowerCase keyword) = true ->
        1 <= keywordPoints input keyword)
  /\ (forall input keyword,
        includes (toLowerCase (merchantName input)) (toLowerCase keyword) = false ->
        keywordPoints input keyword <= 1)
  /\ (keywordPoints starbucksInput "starbucks" = 3
      /\ keywordPoints acmeCoffeeInput "coffee" = 1
      /\ getProp (categoryScores acmeCoffeeInput) "Food & Dining" = Some 1
      /\ categorizeReceipt acmeCoffeeInput = "Food & Dining"
      /\ keywordPoints acmeTaxiInput "taxi" = 1
      /\ keywordPoints acmeTaxiInput "airport" = 1
      /\ getProp (categoryScores acmeTaxiInput) "Transportation" = Some 2
      /\ categorizeReceipt acmeTaxiInput = "Transportation").
Proof.
  split; [exact keywordPoints_weighted|].
  split; [reflexivity|].
  split.
  { intros input category keywords Hin.
    rewrite (table_score input category keywords Hin).
    now rewrite categoryScore_sum. }
  split; [vm_compute; reflexivity|].
  split; [exact haystack_concatenated|].
  split.
  { intros input d keyword Hd Hp.
    apply found_keyword_points. now apply (description_in_haystack input d). }
  split.
  { intros input l item keyword Hl Hin Hp.
    apply found_keyword_points. now apply (item_in_haystack input l item). }
  split.
  { intros input keyword Hm. unfold keywordPoints. rewrite Hm.
    destruct (includes (haystack input) (toLowerCase keyword)); lia. }
  repeat split; vm_compute; reflexivity.
Qed.

Lemma merchant_weighted_score_witness :
  getProp (categoryScores starbucksInput) "Food & Dining" = Some 6
  /\ categorizeReceipt starbucksInput = "Food & Dining"
  /\ 1 <= keywordPoints acmeCoffeeInput "coffee" <= 1
  /\ 1 <= keywordPoints acmeTaxiInput "airport".
Proof.
  destruct merchant_weighted_score
    as (_ & _ & Hscore & Hex & _ & Hdescription & Hitem & Hone & _).
  split.
  { rewrite (Hscore starbucksInput "Food & Dining"
               (snd (hd ("", []) CATEGORY_KEYWORDS))).
    - vm_compute. reflexivity.
    - left. reflexivity. }
  split; [exact Hex|].
  split; [split|].
  - apply (Hitem acmeCoffeeInput
             [ {| itemName := "Filter Coffee"; itemPrice := 3 # 1 |} ]
             {| itemName := "Filter Coffee"; itemPrice := 3 # 1 |} "coffee").
    + reflexivity.
    + left. reflexivity.
    + vm_compute. reflexivity.
  - apply (Hone acmeCoffeeInput "coffee"). vm_compute. reflexivity.
  - apply (Hdescription acmeTaxiInput "Taxi to the Airport" "airport").
    + reflexivity.
    + vm_compute. reflexivity.
Defined.

(** C4: when every category's keyword score is 0 the scorer returns the
    fallback "Other", which is not a category of the keyword table, so
    no zero-scoring table category is ever returned. *)
Theorem zero_scores_give_Other (input : CategorizationInput) :
  (forall category score,
     In (category, score) (categoryScores input) -> score = 0) ->
  categorizeReceipt input = "Other"
  /\ ~ In "Other" (map fst CATEGORY_KEYWORDS)
  /\ ~ In (categorizeReceipt input) getAllCategories.
Proof.
  intros Hzero.
  assert (Hother : ~ In "Other" (map fst CATEGORY_KEYWORDS)).
  { cbv [CATEGORY_KEYWORDS map fst]. intros Hin.
    repeat (destruct Hin as [Hin|Hin]; [discriminate Hin|]). exact Hin. }
  assert (Hres : categorizeReceipt input = "Other").
  { destruct (best_is_max input) as (best & pre & post & Hred & Heq & _).
    unfold categorizeReceipt. rewrite Hred.
    assert (Hbest : snd best = 0).
    { destruct best as [c s]. apply (Hzero c s).
      rewrite Heq. apply in_or_app; right; now left. }
    now rewrite Hbest. }
  rewrite Hres. auto.
Qed.

Lemma zero_scores_give_Other_witness :
  categorizeReceipt randomLlcInput = "Other"
  /\ ~ In "Other" (map fst CATEGORY_KEYWORDS)
  /\ ~ In (categorizeReceipt randomLlcInput) getAllCategories.
Proof.
  apply (zero_scores_give_Other randomLlcInput).
  intros category score Hin. vm_compute in Hin.
  repeat (destruct Hin as [Hin|Hin]; [now inversion Hin|]).
  contradiction.
Defined.

End CategorizationFacts.
(* ===================================================================== *)
(** ** Further properties of the categorization service *)
(* ===================================================================== *)

Module CategorizationMoreFacts.
Import Js JsFacts Categorization CategorizationFacts CategorizationMore.

(** *** Points and scores *)

Lemma keywordPoints_range (input : CategorizationInput) (keyword : string) :
  0 <= keywordPoints input keyword <= 3.
Proof.
  unfold keywordPoints.
  destruct (includes (haystack input) (toLowerCase keyword));
    [destruct (includes _ _)|]; lia.
Qed.

Lemma keywordPoints_zero (input : CategorizationInput) (keyword : string) :
  keywordPoints input keyword = 0
  <-> includes (haystack input) (toLowerCase keyword) = false.
Proof.
  unfold keywordPoints.
  destruct (includes (haystack input) (toLowerCase keyword));
    [destruct (includes _ _)|]; split; intros H; try reflexivity;
    try discriminate H; lia.
Qed.

Lemma categoryScore_points (input : CategorizationInput) (keywords : list string) :
  categoryScore input keywords = sumPoints (map (keywordPoints input) keywords).
Proof. unfold categoryScore. rewrite fold_left_points. lia. Qed.

Lemma sumPoints_bounds (f : string -> Z) (hi : Z) (l : list string) :
  (forall k, 0 <= f k <= hi) ->
  0 <= sumPoints (map f l) <= hi * Z.of_nat (List.length l).
Proof.
  intros Hf. induction l as [|k l IH]; cbn [map sumPoints fold_right List.length].
  - lia.
  - specialize (Hf k). unfold sumPoints in IH. lia.
Qed.

Lemma sumPoints_member (f : string -> Z) (l : list string) (k : string) :
  (forall x, 0 <= f x) -> In k l -> f k <= sumPoints (map f l).
Proof.
  intros Hf. induction l as [|x l IH]; intros Hin; [contradiction|].
  cbn [map sumPoints fold_right].
  assert (Hrest : 0 <= sumPoints (map f l)).
  { clear IH Hin. induction l as [|y l IH]; cbn [map sumPoints fold_right];
      [lia|]. specialize (Hf y). unfold sumPoints in IH. lia. }
  unfold sumPoints in *. destruct Hin as [->|Hin].
  - lia.
  - specialize (IH Hin). specialize (Hf x). lia.
Qed.

Lemma sumPoints_zero (f : string -> Z) (l : list string) :
  (forall k, In k l -> f k = 0) -> sumPoints (map f l) = 0.
Proof.
  induction l as [|x l IH]; intros H; cbn [map sumPoints fold_right];
    [reflexivity|].
  rewrite (H x (or_introl eq_refl)). unfold sumPoints in IH.
  rewrite IH; [reflexivity|]. intros k Hk. apply H. now right.
Qed.

Lemma In_categoryScores (input : CategorizationInput) (c : string) (s : Z) :
  In (c, s) (categoryScores input) <->
  exists keywords,
    In (c, keywords) CATEGORY_KEYWORDS /\ s = categoryScore input keywords.
Proof.
  rewrite categoryScores_map, in_map_iff. split.
  - intros ([c' kws] & Heq & Hin). inversion Heq; subst. eauto.
  - intros (kws & Hin & ->). exists (c, kws). auto.
Qed.

(** The entry the reduction returns is an entry of the object that no
    entry exceeds. *)
Lemma best_dominates (input : CategorizationInput) :
  exists best,
    reduceEntries (categoryScores input) = Some best
    /\ In best (categoryScores input)
    /\ forall e, In e (categoryScores input) -> snd e <= snd best.
Proof.
  generalize (categoryScores_NoDup input) (categoryScores_nonempty input).
  generalize (categoryScores input). intros obj Hnd Hne.
  destruct (reduceEntries_split obj Hnd Hne)
    as (best & pre & post & Hred & Heq & Hpre & Hpost).
  exists best. split; [exact Hred|]. split.
  - rewrite Heq. apply in_or_app. right. now left.
  - intros e He. rewrite Heq in He.
    apply in_app_or in He as [He|[<-|He]].
    + rewrite List.Forall_forall in Hpre. now apply Hpre.
    + lia.
    + rewrite List.Forall_forall in Hpost. specialize (Hpost e He). lia.
Qed.

Lemma Other_not_listed : ~ In "Other" getAllCategories.
Proof.
  cbv [getAllCategories CATEGORY_KEYWORDS map fst]. intros Hin.
  repeat (destruct Hin as [Hin|Hin]; [discriminate Hin|]). exact Hin.
Qed.

Lemma enum_is_categories_and_Other :
  RECEIPT_CATEGORY_ENUM = getAllCategories ++ ["Other"].
Proof. reflexivity. Qed.

(** *** The result against the schema *)

Lemma scorer_result_listed_or_Other (input : CategorizationInput) :
  In (categorizeReceipt input) getAllCategories
  \/ categorizeReceipt input = "Other".
Proof.
  destruct (best_dominates input) as (best & Hred & Hin & _).
  unfold categorizeReceipt. rewrite Hred.
  destruct (Z.ltb 0 (snd best)); [left|now right].
  rewrite <- (categoryScores_keys input). now apply in_map.
Qed.

(** Whatever the input, the category returned is one of the fifteen
    values that the receipt schema and the route validators accept. *)
Theorem category_is_in_schema_enum (input : CategorizationInput) :
  In (categorizeReceipt input) RECEIPT_CATEGORY_ENUM.
Proof.
  rewrite enum_is_categories_and_Other. apply in_or_app.
  destruct (scorer_result_listed_or_Other input) as [Hlisted|Hother].
  - now left.
  - right. rewrite Hother. now left.
Qed.

(** The category returned, when it is not the fallback, is a category of
    the table whose score is positive and is the largest of all. *)
Theorem category_has_largest_score (input : CategorizationInput) :
  categorizeReceipt input <> "Other" ->
  exists score,
    In (categorizeReceipt input, score) (categoryScores input)
    /\ 0 < score
    /\ forall c s, In (c, s) (categoryScores input) -> s <= score.
Proof.
  destruct (best_dominates input) as (best & Hred & Hin & Hmax).
  unfold categorizeReceipt. rewrite Hred.
  destruct (Z.ltb 0 (snd best)) eqn:E; [|congruence].
  intros _. exists (snd best). apply Z.ltb_lt in E.
  split; [now destruct best|]. split; [exact E|].
  intros c s Hcs. exact (Hmax (c, s) Hcs).
Qed.

Lemma category_has_largest_score_witness :
  exists score,
    In (categorizeReceipt gasInput, score) (categoryScores gasInput)
    /\ 0 < score
    /\ forall c s, In (c, s) (categoryScores gasInput) -> s <= score.
Proof.
  apply (category_has_largest_score gasInput). vm_compute. discriminate.
Defined.

Lemma Other_means_no_keyword (input : CategorizationInput) :
  categorizeReceipt input = "Other" ->
  forall category keywords keyword,
    In (category, keywords) CATEGORY_KEYWORDS -> In keyword keywords ->
    includes (haystack input) (toLowerCase keyword) = false.
Proof.
  destruct (best_dominates input) as (best & Hred & Hin & Hmax).
  unfold categorizeReceipt. rewrite Hred.
  intros Hres category keywords keyword Hc Hk.
  assert (Hbest : snd best <= 0).
  { destruct (Z.ltb 0 (snd best)) eqn:E; [|now apply Z.ltb_ge].
    exfalso. apply Other_not_listed. rewrite <- Hres.
    rewrite <- (categoryScores_keys input). now apply in_map. }
  apply keywordPoints_zero.
  assert (Hscore : categoryScore input keywords <= 0).
  { apply (Z.le_trans _ (snd best)); [|exact Hbest].
    apply (Hmax (category, categoryScore input keywords)).
    apply In_categoryScores. eauto. }
  rewrite categoryScore_points in Hscore.
  pose proof (sumPoints_member (keywordPoints input) keywords keyword
                (fun x => proj1 (keywordPoints_range input x)) Hk).
  pose proof (keywordPoints_range input keyword). lia.
Qed.

Lemma no_keyword_means_Other (input : CategorizationInput) :
  (forall category keywords keyword,
     In (category, keywords) CATEGORY_KEYWORDS -> In keyword keywords ->
     includes (haystack input) (toLowerCase keyword) = false) ->
  categorizeReceipt input = "Other".
Proof.
  destruct (best_dominates input) as (best & Hred & Hin & Hmax).
  unfold categorizeReceipt. rewrite Hred. intros Hnone.
  assert (Hbest : snd best = 0).
  { destruct best as [c s]. apply In_categoryScores in Hin as (kws & Hc & ->).
    cbn [snd]. rewrite categoryScore_points. apply sumPoints_zero.
    intros k Hk. apply keywordPoints_zero. eapply Hnone; eauto. }
  now rewrite Hbest.
Qed.

(** The fallback is returned exactly when no keyword of the table occurs
    in the haystack. *)
Theorem Other_iff_no_keyword_found (input : CategorizationInput) :
  categorizeReceipt input = "Other" <->
  (forall category keywords keyword,
     In (category, keywords) CATEGORY_KEYWORDS -> In keyword keywords ->
     includes (haystack input) (toLowerCase keyword) = false).
Proof.
  split.
  - apply Other_means_no_keyword.
  - apply no_keyword_means_Other.
Qed.

Lemma Other_iff_no_keyword_found_witness :
  categorizeReceipt randomLlcInput = "Other"
  /\ includes (haystack randomLlcInput) (toLowerCase "gift") = false.
Proof.
  assert (Hres : categorizeReceipt randomLlcInput = "Other")
    by (vm_compute; reflexivity).
  split; [exact Hres|].
  apply (proj1 (Other_iff_no_keyword_found randomLlcInput) Hres
           "Gifts & Donations"
           ["gift"; "donation"; "charity"; "nonprofit"; "giving"; "present";
            "contribution"; "fundraiser"; "support"]).
  - cbv [CATEGORY_KEYWORDS]. do 13 right. left. reflexivity.
  - left. reflexivity.
Defined.

(** *** What the category depends on *)

Lemma toLowerCase_join (l : list string) :
  toLowerCase (join " " l) = join " " (map toLowerCase l).
Proof.
  induction l as [|x l IH]; [reflexivity|].
  destruct l as [|y l]; [reflexivity|].
  rewrite join_cons2. cbn [map]. rewrite join_cons2.
  rewrite !toLowerCase_app. cbn [map] in IH. rewrite IH. reflexivity.
Qed.

Lemma haystack_texts (input : CategorizationInput) :
  haystack input
  = join " " (map toLowerCase (merchantName input :: otherTexts input)).
Proof. unfold haystack, otherTexts. apply toLowerCase_join. Qed.

Lemma categoryScores_ext (a b : CategorizationInput) :
  (forall keyword, keywordPoints a keyword = keywordPoints b keyword) ->
  categoryScores a = categoryScores b.
Proof.
  intros H. rewrite !categoryScores_map. apply map_ext.
  intros [c kws]. unfold scoreEntry. cbn [fst snd]. f_equal.
  rewrite !categoryScore_points. f_equal. now apply map_ext.
Qed.

(** The category depends only on the lowercased merchant name,
    description (an absent one counts as empty) and item names (absent
    items count as none): inputs that agree on these get the same
    category, whatever the letter case and the item prices. *)
Theorem category_depends_on_lowercased_texts (a b : CategorizationInput) :
  toLowerCase (merchantName a) = toLowerCase (merchantName b) ->
  map toLowerCase (otherTexts a) = map toLowerCase (otherTexts b) ->
  categorizeReceipt a = categorizeReceipt b.
Proof.
  intros Hm Ht.
  assert (Hh : haystack a = haystack b).
  { rewrite !haystack_texts. cbn [map]. now rewrite Hm, Ht. }
  unfold categorizeReceipt. rewrite (categoryScores_ext a b); [reflexivity|].
  intros keyword. unfold keywordPoints. now rewrite Hh, Hm.
Qed.

Lemma category_depends_on_lowercased_texts_witness :
  categorizeReceipt
    {| merchantName := "STARBUCKS coffee"; items := None; description := None |}
  = categorizeReceipt starbucksInput.
Proof.
  apply category_depends_on_lowercased_texts; vm_compute; reflexivity.
Defined.

(** *** More items *)

Lemma join_snoc (sep : string) (l : list string) (x : string) :
  l <> [] ->
  join sep (l ++ [x]) = String.append (join sep l) (String.append sep x).
Proof.
  induction l as [|y l IH]; intros Hne; [contradiction|].
  destruct l as [|z l].
  - reflexivity.
  - change ((y :: z :: l) ++ [x]) with (y :: ((z :: l) ++ [x])).
    change ((z :: l) ++ [x]) with (z :: (l ++ [x])) at 1.
    rewrite join_cons2.
    change (z :: l ++ [x]) with ((z :: l) ++ [x]).
    rewrite IH by discriminate. rewrite join_cons2.
    rewrite !RegexLangFacts.string_app_assoc. reflexivity.
Qed.

Lemma itemNames_addItem (input : CategorizationInput) (item : Item) :
  itemNames (addItem input item) = itemNames input ++ [itemName item].
Proof.
  unfold itemNames, addItem. cbn [items].
  destruct (items input); [now rewrite map_app|reflexivity].
Qed.

Lemma haystack_addItem (input : CategorizationInput) (item : Item) :
  exists more, haystack (addItem input item)
               = String.append (haystack input) more.
Proof.
  unfold haystack. rewrite itemNames_addItem.
  change (descriptionOrEmpty (addItem input item))
    with (descriptionOrEmpty input).
  change (merchantName (addItem input item)) with (merchantName input).
  change (merchantName input :: descriptionOrEmpty input
            :: itemNames input ++ [itemName item])
    with ((merchantName input :: descriptionOrEmpty input :: itemNames input)
            ++ [itemName item]).
  rewrite join_snoc by discriminate. rewrite toLowerCase_app. eauto.
Qed.

Lemma keywordPoints_addItem (input : CategorizationInput) (item : Item)
    (keyword : string) :
  keywordPoints input keyword <= keywordPoints (addItem input item) keyword.
Proof.
  destruct (haystack_addItem input item) as [more Hh].
  unfold keywordPoints. rewrite Hh.
  change (merchantName (addItem input item)) with (merchantName input).
  destruct (includes (haystack input) (toLowerCase keyword)) eqn:E.
  - rewrite (includes_app _ more _ E).
    destruct (includes (toLowerCase (merchantName input)) (toLowerCase keyword));
      lia.
  - repeat match goal with
           | |- context [if ?b then _ else _] => destruct b
           end; lia.
Qed.

Lemma sumPoints_le (f g : string -> Z) (l : list string) :
  (forall k, f k <= g k) -> sumPoints (map f l) <= sumPoints (map g l).
Proof.
  intros H. induction l as [|x l IH]; cbn [map sumPoints fold_right]; [lia|].
  specialize (H x). unfold sumPoints in IH. lia.
Qed.

(** Adding an item to the input never lowers the score of a category,
    and never turns a category that was found into the fallback. *)
Theorem more_items_never_lower_scores (input : CategorizationInput)
    (item : Item) :
  (forall keywords,
     categoryScore input keywords
     <= categoryScore (addItem input item) keywords)
  /\ (categorizeReceipt input <> "Other" ->
      categorizeReceipt (addItem input item) <> "Other").
Proof.
  split.
  - intros keywords. rewrite !categoryScore_points.
    apply sumPoints_le. intros k. apply keywordPoints_addItem.
  - intros Hfound Hother. apply Hfound.
    apply no_keyword_means_Other. intros category keywords keyword Hc Hk.
    pose proof (Other_means_no_keyword (addItem input item) Hother
                  category keywords keyword Hc Hk) as Hnone.
    apply keywordPoints_zero in Hnone. apply keywordPoints_zero.
    pose proof (keywordPoints_addItem input item keyword).
    pose proof (keywordPoints_range input keyword). lia.
Qed.

Lemma more_items_never_lower_scores_witness :
  categorizeReceipt
    (addItem gasInput {| itemName := "Unleaded"; itemPrice := 40 # 1 |})
  <> "Other".
Proof.
  apply (more_items_never_lower_scores gasInput).
  vm_compute. discriminate.
Defined.

(** *** The table lookups *)

Lemma ownKeywords_In (table : list (string * list string)) (c : string)
    (keywords : list string) :
  List.NoDup (map fst table) -> In (c, keywords) table ->
  ownKeywords table c = Some keywords.
Proof.
  induction table as [|[c' k'] table IH]; cbn [ownKeywords map fst In];
    intros Hnd Hin; [contradiction|].
  inversion Hnd as [|? ? Hnotin Hnd']; subst.
  destruct Hin as [Heq|Hin].
  - inversion Heq; subst. now rewrite String.eqb_refl.
  - destruct (String.eqb c' c) eqn:E.
    + apply String.eqb_eq in E; subst c'. exfalso. apply Hnotin.
      apply (in_map fst) in Hin. exact Hin.
    + now apply IH.
Qed.

Lemma ownKeywords_absent (table : list (string * list string)) (c : string) :
  ~ In c (map fst table) -> ownKeywords table c = None.
Proof.
  induction table as [|[c' k'] table IH]; cbn [ownKeywords map fst In];
    intros Hnot; [reflexivity|].
  destruct (String.eqb c' c) eqn:E.
  - apply String.eqb_eq in E. exfalso. apply Hnot. now left.
  - apply IH. intros Hin. apply Hnot. now right.
Qed.

Lemma table_keywords_nonempty (c : string) (keywords : list string) :
  In (c, keywords) CATEGORY_KEYWORDS -> keywords <> [].
Proof.
  cbv [CATEGORY_KEYWORDS]. intros Hin.
  repeat (destruct Hin as [Heq|Hin]; [inversion Heq; discriminate|]).
  contradiction.
Qed.

(** [getAllCategories] lists 14 distinct categories; for each of them
    [getCategoryKeywords] returns the keywords of the table, a list that
    is not empty; for a name that is no category (as "Other") and no
    inherited property name it returns the empty list. *)
Theorem category_lookups :
  List.length getAllCategories = 14%nat
  /\ List.NoDup getAllCategories
  /\ (forall category keywords,
        In (category, keywords) CATEGORY_KEYWORDS ->
        In category getAllCategories
        /\ getCategoryKeywords category = Some keywords
        /\ keywords <> [])
  /\ (forall category,
        ~ In category getAllCategories ->
        ~ In category objectPrototypeNames ->
        getCategoryKeywords category = Some [])
  /\ getCategoryKeywords "Other" = Some [].
Proof.
  split; [reflexivity|]. split; [exact table_keys_NoDup|].
  split; [|split].
  - intros category keywords Hin. split; [|split].
    + apply (in_map fst) in Hin. exact Hin.
    + unfold getCategoryKeywords.
      now rewrite (ownKeywords_In _ _ _ table_keys_NoDup Hin).
    + now apply (table_keywords_nonempty category).
  - intros category Hnot Hproto. unfold getCategoryKeywords.
    rewrite (ownKeywords_absent _ _ Hnot).
    destruct (existsb (String.eqb category) objectPrototypeNames) eqn:E;
      [|reflexivity].
    apply existsb_exists in E as (x & Hx & Heq).
    apply String.eqb_eq in Heq. subst x. contradiction.
  - vm_compute. reflexivity.
Qed.

Lemma category_lookups_witness :
  getCategoryKeywords "Insurance"
  = Some ["insurance"; "policy"; "premium"; "coverage"; "claim"; "deductible";
          "allstate"; "state farm"; "geico"; "progressive"]
  /\ getCategoryKeywords "Groceries" = Some [].
Proof.
  destruct category_lookups as (_ & _ & Hown & Habsent & _).
  split.
  - apply Hown. cbv [CATEGORY_KEYWORDS]. do 11 right. left. reflexivity.
  - apply Habsent.
    + cbv [getAllCategories CATEGORY_KEYWORDS map fst]. intros Hin.
      repeat (destruct Hin as [Hin|Hin]; [discriminate Hin|]). exact Hin.
    + cbv [objectPrototypeNames]. intros Hin.
      repeat (destruct Hin as [Hin|Hin]; [discriminate Hin|]). exact Hin.
Defined.

End CategorizationMoreFacts.
(* ===================================================================== *)
(** ** Further properties of the OCR pipeline *)
(* ===================================================================== *)

Module PipelineMoreFacts.
Import Js Number Ocr Pipeline PipelineMore PipelineFacts.

(** *** The output path *)

Lemma splitLastSlash_None (p : string) :
  splitLastSlash p = None <-> isFileName p = true.
Proof.
  unfold isFileName. induction p as [|c p IH]; cbn [splitLastSlash existsChar].
  - split; reflexivity.
  - destruct (splitLastSlash p) as [[d b]|].
    + split; [discriminate|]. intros H.
      destruct IH as [_ IH]. rewrite negb_true_iff in H.
      apply orb_false_iff in H as [_ H].
      rewrite H in IH. discriminate (IH eq_refl).
    + destruct IH as [IH _]. specialize (IH eq_refl).
      rewrite negb_true_iff in IH. rewrite IH, orb_false_r.
      unfold isSlash. destruct (Ascii.eqb c "/"); split; intros H;
        try reflexivity; discriminate H.
Qed.

Lemma splitLastSlash_Some (p dir base : string) :
  splitLastSlash p = Some (dir, base) ->
  p = String.append dir base
  /\ isFileName base = true
  /\ exists parent, dir = String.append parent "/".
Proof.
  revert dir base; induction p as [|c p IH]; intros dir base H;
    cbn [splitLastSlash] in H; [discriminate|].
  destruct (splitLastSlash p) as [[d b]|] eqn:E.
  - inversion H; subst. destruct (IH d base eq_refl) as (Hp & Hb & parent & Hd).
    split; [|split; [exact Hb|]].
    + rewrite RegexLangFacts.string_app_cons. now f_equal.
    + exists (String c parent). rewrite RegexLangFacts.string_app_cons.
      now f_equal.
  - destruct (Ascii.eqb c "/") eqn:Ec; [|discriminate].
    apply Ascii.eqb_eq in Ec. inversion H; subst.
    split; [reflexivity|]. split; [now apply splitLastSlash_None|].
    exists EmptyString. reflexivity.
Qed.

Lemma splitLastSlash_join (parent base : string) :
  isFileName base = true ->
  splitLastSlash (String.append (String.append parent "/") base)
  = Some (String.append parent "/", base).
Proof.
  intros Hb. induction parent as [|c parent IH].
  - rewrite RegexLangFacts.string_app_nil_l.
    change (String.append "/" base) with (String "/" base).
    cbn [splitLastSlash].
    apply splitLastSlash_None in Hb. rewrite Hb. reflexivity.
  - rewrite !RegexLangFacts.string_app_cons. cbn [splitLastSlash].
    now rewrite IH.
Qed.

Lemma isFileName_processed (base : string) :
  isFileName base = true -> isFileName (String.append "processed_" base) = true.
Proof.
  unfold isFileName. rewrite RegexLangFacts.existsChar_app.
  intros H. rewrite negb_true_iff in *. now rewrite H.
Qed.

Lemma processed_inj (a b : string) :
  String.append "processed_" a = String.append "processed_" b -> a = b.
Proof. intros H. now inversion H. Qed.

Lemma outputPathOf_parts (p : string) :
  exists dir base,
    p = String.append dir base
    /\ isFileName base = true
    /\ (dir = EmptyString \/ exists parent, dir = String.append parent "/")
    /\ outputPathOf p = String.append dir (String.append "processed_" base).
Proof.
  unfold outputPathOf. destruct (splitLastSlash p) as [[dir base]|] eqn:E.
  - apply splitLastSlash_Some in E as (Hp & Hb & Hd).
    exists dir, base. auto.
  - apply splitLastSlash_None in E. exists EmptyString, p. auto.
Qed.

Lemma outputPathOf_injective (p q : string) :
  outputPathOf p = outputPathOf q -> p = q.
Proof.
  intros Heq.
  destruct (outputPathOf_parts p) as (d1 & b1 & -> & Hb1 & Hd1 & Ho1).
  destruct (outputPathOf_parts q) as (d2 & b2 & -> & Hb2 & Hd2 & Ho2).
  rewrite Ho1, Ho2 in Heq.
  apply isFileName_processed in Hb1, Hb2.
  destruct Hd1 as [->|[parent1 ->]]; destruct Hd2 as [->|[parent2 ->]].
  - rewrite !RegexLangFacts.string_app_nil_l in *.
    now apply processed_inj in Heq as ->.
  - exfalso. rewrite RegexLangFacts.string_app_nil_l in Heq.
    apply splitLastSlash_None in Hb1. rewrite Heq in Hb1.
    rewrite (splitLastSlash_join parent2 _ Hb2) in Hb1. discriminate Hb1.
  - exfalso. rewrite RegexLangFacts.string_app_nil_l in Heq.
    apply splitLastSlash_None in Hb2. rewrite <- Heq in Hb2.
    rewrite (splitLastSlash_join parent1 _ Hb1) in Hb2. discriminate Hb2.
  - pose proof (splitLastSlash_join parent1 _ Hb1) as H1.
    rewrite Heq, (splitLastSlash_join parent2 _ Hb2) in H1.
    assert (Hd : String.append parent1 "/" = String.append parent2 "/")
      by congruence.
    assert (Hb : String.append "processed_" b1 = String.append "processed_" b2)
      by congruence.
    rewrite Hd. now apply processed_inj in Hb as ->.
Qed.

(** The segments of a path end with its file name. *)
Lemma split_file_name (p : string) :
  match splitLastSlash p with
  | Some (dir, base) =>
      exists first segments, split "/" p = first :: segments ++ [base]
  | None => split "/" p = [p]
  end.
Proof.
  induction p as [|c p IH]; [reflexivity|].
  cbn [splitLastSlash split].
  destruct (splitLastSlash p) as [[dir base]|].
  - destruct IH as (first & segments & ->).
    destruct (Ascii.eqb c "/").
    + exists EmptyString, (first :: segments). reflexivity.
    + exists (String c first), segments. reflexivity.
  - rewrite IH. destruct (Ascii.eqb c "/").
    + exists EmptyString, []. reflexivity.
    + reflexivity.
Qed.

Lemma normalized_file_name (p : string) :
  isNormalizedPath p = true ->
  match splitLastSlash p with
  | Some (dir, base) => isPlainSegment base = true
  | None => isPlainSegment p = true
  end.
Proof.
  unfold isNormalizedPath. pose proof (split_file_name p) as H.
  destruct (splitLastSlash p) as [[dir base]|].
  - destruct H as (first & segments & ->).
    rewrite forallb_app. cbn [forallb].
    rewrite !andb_true_iff. tauto.
  - rewrite H. cbn [forallb]. rewrite andb_true_r, andb_false_r, orb_false_r.
    tauto.
Qed.

(** For normalized image paths: the output path keeps the directory of
    the image path and prefixes its file name, which is not empty, with
    processed_; and two different image paths never get the same output
    path. *)
Theorem output_path_of_normalized_paths :
  (forall p,
     isNormalizedPath p = true ->
     exists dir base,
       p = String.append dir base
       /\ isFileName base = true
       /\ isPlainSegment base = true
       /\ (dir = EmptyString \/ exists parent, dir = String.append parent "/")
       /\ outputPathOf p = String.append dir (String.append "processed_" base))
  /\ (forall p q,
        isNormalizedPath p = true -> isNormalizedPath q = true ->
        outputPathOf p = outputPathOf q -> p = q).
Proof.
  split.
  - intros p Hp. apply normalized_file_name in Hp.
    unfold outputPathOf. destruct (splitLastSlash p) as [[dir base]|] eqn:E.
    + apply splitLastSlash_Some in E as (Heq & Hb & Hd).
      exists dir, base.
      split; [exact Heq|]. split; [exact Hb|]. split; [exact Hp|].
      split; [right; exact Hd|reflexivity].
    + apply splitLastSlash_None in E. exists EmptyString, p.
      split; [reflexivity|]. split; [exact E|]. split; [exact Hp|].
      split; [left; reflexivity|reflexivity].
  - intros p q _ _. apply outputPathOf_injective.
Qed.

Lemma output_path_of_normalized_paths_witness :
  isNormalizedPath "uploads/a.jpg" = true
  /\ isNormalizedPath uploadedImage = true
  /\ outputPathOf "uploads/a.jpg" <> outputPathOf uploadedImage.
Proof.
  split; [reflexivity|]. split; [reflexivity|].
  intros H.
  apply (proj2 output_path_of_normalized_paths
           "uploads/a.jpg" uploadedImage eq_refl eq_refl) in H.
  discriminate H.
Defined.

Section Runs.
Variable sharpWrites : string -> bool.
Variable recognize : string -> option (string * Q).
Variable newDate : string -> option Z.

Lemma unlink_written (files : gset string) (p : string) :
  unlinkSync ({[ p ]} ∪ files) p = Some (({[ p ]} ∪ files) ∖ {[ p ]}).
Proof.
  unfold unlinkSync.
  destruct (decide (p ∈ {[p]} ∪ files)) as [_|Hnot]; [reflexivity|].
  exfalso. apply Hnot. apply elem_of_union. left. now apply elem_of_singleton.
Qed.

(** The pipeline touches no path but the output path: every other path,
    the uploaded image among them, is in the file system after the run
    exactly when it was there before. *)
Theorem only_the_output_path_is_touched (files : gset string)
    (imagePath p : string) :
  p <> outputPathOf imagePath ->
  (p ∈ fst (processReceiptOCR sharpWrites recognize newDate files imagePath) <-> p ∈ files)
  /\ (imagePath ∈ files -> imagePath ∈ fst (processReceiptOCR sharpWrites recognize newDate files imagePath)).
Proof.
  assert (Hframe : forall q, q <> outputPathOf imagePath ->
            (q ∈ fst (processReceiptOCR sharpWrites recognize newDate files imagePath) <-> q ∈ files)).
  { intros q Hq. unfold processReceiptOCR, preprocessImage.
    destruct (sharpWrites imagePath).
    - destruct (recognize (outputPathOf imagePath)) as [[text c]|].
      + rewrite outputPathOf_differs. cbn [negb]. rewrite unlink_written.
        cbn [fst]. rewrite elem_of_difference, elem_of_union, !elem_of_singleton.
        tauto.
      + cbn [fst]. rewrite elem_of_union, elem_of_singleton. tauto.
    - destruct (recognize imagePath) as [[text c]|].
      + rewrite String.eqb_refl. cbn [negb fst]. tauto.
      + cbn [fst]. tauto. }
  intros Hp. split; [now apply Hframe|].
  intros Hin. apply Hframe; [|exact Hin].
  intros Heq. pose proof (outputPathOf_differs imagePath) as Hd.
  apply String.eqb_neq in Hd. congruence.
Qed.


(** When the recognition engine rejects the image it is given, the
    pipeline raises; and whatever makes the pipeline raise, the error it
    raises carries its single message. *)
Theorem recognition_failure_raises (files : gset string) (imagePath : string) :
  (recognize (recognizedPath sharpWrites imagePath) = None ->
   snd (processReceiptOCR sharpWrites recognize newDate files imagePath)
   = inr ocrFailure)
  /\ (forall message,
        snd (processReceiptOCR sharpWrites recognize newDate files imagePath)
        = inr message ->
        message = ocrFailure).
Proof.
  unfold recognizedPath, processReceiptOCR, preprocessImage.
  destruct (sharpWrites imagePath).
  - destruct (recognize (outputPathOf imagePath)) as [[text c]|].
    + split; [intros H; discriminate H|].
      destruct (negb (String.eqb (outputPathOf imagePath) imagePath)).
      * destruct (unlinkSync _ _); cbn [snd]; intros message H;
          [discriminate H|now inversion H].
      * cbn [snd]. intros message H. discriminate H.
    + cbn [snd]. split; [reflexivity|].
      intros message H. now inversion H.
  - destruct (recognize imagePath) as [[text c]|].
    + split; [intros H; discriminate H|].
      destruct (negb (String.eqb imagePath imagePath)).
      * destruct (unlinkSync _ _); cbn [snd]; intros message H;
          [discriminate H|now inversion H].
      * cbn [snd]. intros message H. discriminate H.
    + cbn [snd]. split; [reflexivity|].
      intros message H. now inversion H.
Qed.


End Runs.

Lemma only_the_output_path_is_touched_witness :
  ("uploads/other.jpg" ∈ fst runWithWorkingOcr
   <-> "uploads/other.jpg" ∈ ({[ uploadedImage ]} : gset string))
  /\ (uploadedImage ∈ ({[ uploadedImage ]} : gset string) ->
      uploadedImage ∈ fst runWithWorkingOcr).
Proof.
  apply (only_the_output_path_is_touched (fun _ => true)
           (fun _ => Some ("Total $8.10", 87 # 1)) (fun _ => None)
           {[ uploadedImage ]} uploadedImage "uploads/other.jpg").
  vm_compute. discriminate.
Defined.


Lemma recognition_failure_raises_witness :
  snd runWithFailingOcr = inr ocrFailure.
Proof.
  apply (proj1 (recognition_failure_raises (fun _ => true) (fun _ => None)
                  (fun _ => None) {[ uploadedImage ]} uploadedImage)).
  reflexivity.
Defined.


End PipelineMoreFacts.
(* ===================================================================== *)
(** ** Properties of the receipt route and model around the services *)
(* ===================================================================== *)

Module ReceiptsFacts.
Import Js Categorization CategorizationMore CategorizationMoreFacts.
Import Ocr Receipts.

(** After the auto-categorization step of the POST handler: a category
    supplied with the request is kept; without one, a merchant name
    (supplied or found by OCR) gets the scorer's category; without
    either, the category stays absent.  When the supplied category is
    one the validator accepts, the category after the step is one of the
    schema's enum. *)
Theorem category_after_auto_categorization (category merchantName : option string)
    (items : option (list Item)) (description : option string) :
  (forall c, category = Some c -> truthy c = true ->
     autoCategorize category merchantName items description = Some c)
  /\ (truthyField category = false -> truthyField merchantName = false ->
      autoCategorize category merchantName items description = category)
  /\ (truthyField category = false ->
      forall name, merchantName = Some name -> truthy name = true ->
        autoCategorize category merchantName items description
        = Some (categorizeReceipt
                  {| Categorization.merchantName := name;
                     Categorization.items :=
                       Some (match items with Some l => l | None => [] end);
                     Categorization.description := description |}))
  /\ ((forall c, category = Some c -> In c RECEIPT_CATEGORY_ENUM) ->
      forall c', autoCategorize category merchantName items description = Some c' ->
        In c' RECEIPT_CATEGORY_ENUM).
Proof.
  unfold autoCategorize. split; [|split; [|split]].
  - intros c -> Hc. cbn [truthyField]. now rewrite Hc.
  - intros -> ->. reflexivity.
  - intros -> name -> Hname. cbn [truthyField]. now rewrite Hname.
  - intros Hvalid c'.
    destruct (negb (truthyField category) && truthyField merchantName);
      [|now apply Hvalid].
    destruct merchantName as [name|]; [|now apply Hvalid].
    intros H; inversion H; subst c'.
    rewrite enum_is_categories_and_Other. apply in_or_app.
    destruct (scorer_result_listed_or_Other
                {| Categorization.merchantName := name;
                   Categorization.items :=
                     Some (match items with Some l => l | None => [] end);
                   Categorization.description := description |})
      as [Hlisted|Hother]; [now left|].
    right. rewrite Hother. now left.
Qed.

Lemma category_after_auto_categorization_witness :
  autoCategorize (Some "Travel") (Some "Gas") None None = Some "Travel"
  /\ In "Utilities" RECEIPT_CATEGORY_ENUM.
Proof.
  destruct (category_after_auto_categorization None (Some "Gas") None None)
    as (_ & _ & _ & Henum).
  destruct (category_after_auto_categorization (Some "Travel") (Some "Gas")
              None None) as (Hkept & _).
  split.
  - apply Hkept; reflexivity.
  - apply Henum; [intros c H; discriminate H|].
    vm_compute. reflexivity.
Defined.

(** The date stored for a receipt is never after the time of the save:
    a date found by OCR (or supplied) is stored as it is unless it is in
    the future, in which case the time of the save is stored; without
    any date the time of the request is stored.  So the future date that
    the field parser may return never reaches the store. *)
Theorem stored_date_is_not_in_the_future (newDate : string -> option Z)
    (text : string) (manualDate : option Z)
    (handlerTime compareTime assignTime : Z) :
  handlerTime <= compareTime -> compareTime <= assignTime ->
  let found := mergeField manualDate (date (parseReceiptText newDate text)) in
  let stored := storedDate handlerTime compareTime assignTime found in
  stored <= assignTime
  /\ (forall d, found = Some d -> d <= compareTime -> stored = d)
  /\ (forall d, found = Some d -> compareTime < d -> stored = assignTime)
  /\ (found = None -> stored = handlerTime).
Proof.
  intros H1 H2 found stored. subst stored.
  generalize found. clear found. intros found.
  unfold storedDate, preSaveDate, defaultDate.
  split; [|split; [|split]].
  - destruct found as [d|].
    + destruct (Z.ltb compareTime d) eqn:E; [lia|].
      apply Z.ltb_ge in E. lia.
    + destruct (Z.ltb compareTime handlerTime) eqn:E; lia.
  - intros d -> Hd. destruct (Z.ltb compareTime d) eqn:E; [|reflexivity].
    apply Z.ltb_lt in E. lia.
  - intros d -> Hd. apply Z.ltb_lt in Hd. now rewrite Hd.
  - intros ->. destruct (Z.ltb compareTime handlerTime) eqn:E; [|reflexivity].
    apply Z.ltb_lt in E. lia.
Qed.

Lemma stored_date_is_not_in_the_future_witness :
  storedDate sampleNow sampleNow sampleNow
    (mergeField None (date (parseReceiptText Calendar.calendarDate futureDateText)))
  = sampleNow.
Proof.
  destruct (stored_date_is_not_in_the_future Calendar.calendarDate
              futureDateText None sampleNow sampleNow sampleNow)
    as (_ & _ & Hfuture & _); [lia|lia|].
  apply (Hfuture 4102358400000); vm_compute; reflexivity.
Defined.

End ReceiptsFacts.
(* ===================================================================== *)
(** ** Properties of the monthly reset *)
(* ===================================================================== *)

Module UsersFacts.
Import Users.

Section Reset.
Variable getMonth : Z -> Z.
Variable getFullYear : Z -> Z.

Lemma reset_same_month (now : Z) (usage : ApiUsage) :
  getMonth (lastResetDate usage) = getMonth now ->
  getFullYear (lastResetDate usage) = getFullYear now ->
  resetMonthlyApiUsage getMonth getFullYear now usage = usage.
Proof.
  intros Hm Hy. unfold resetMonthlyApiUsage.
  now rewrite Hm, Hy, !Z.eqb_refl.
Qed.

Lemma reset_lands_in_month (now : Z) (usage : ApiUsage) :
  getMonth (lastResetDate (resetMonthlyApiUsage getMonth getFullYear now usage))
  = getMonth now
  /\ getFullYear
       (lastResetDate (resetMonthlyApiUsage getMonth getFullYear now usage))
     = getFullYear now.
Proof.
  unfold resetMonthlyApiUsage.
  destruct (Z.eqb (getMonth (lastResetDate usage)) (getMonth now)) eqn:Em;
    destruct (Z.eqb (getFullYear (lastResetDate usage)) (getFullYear now)) eqn:Ey;
    cbn [negb orb lastResetDate]; auto.
  apply Z.eqb_eq in Em, Ey. auto.
Qed.

(** After [resetMonthlyApiUsage] the last reset date is in the month and
    year of the call; the counter is kept when the last reset was
    already in that month and is 0 otherwise; the quota is never
    changed; and calling it again at any time of the same month changes
    nothing. *)
Theorem monthly_reset (now : Z) (usage : ApiUsage) :
  let after := resetMonthlyApiUsage getMonth getFullYear now usage in
  getMonth (lastResetDate after) = getMonth now
  /\ getFullYear (lastResetDate after) = getFullYear now
  /\ maxOcrRequests after = maxOcrRequests usage
  /\ (getMonth (lastResetDate usage) = getMonth now ->
      getFullYear (lastResetDate usage) = getFullYear now ->
      after = usage)
  /\ ((getMonth (lastResetDate usage) <> getMonth now
       \/ getFullYear (lastResetDate usage) <> getFullYear now) ->
      ocrRequestsThisMonth after = 0 /\ lastResetDate after = now)
  /\ (forall later,
        getMonth later = getMonth now -> getFullYear later = getFullYear now ->
        resetMonthlyApiUsage getMonth getFullYear later after = after).
Proof.
  intros after.
  destruct (reset_lands_in_month now usage) as [Hm Hy]. fold after in Hm, Hy.
  split; [exact Hm|]. split; [exact Hy|]. split; [|split; [|split]].
  - subst after. unfold resetMonthlyApiUsage.
    destruct (negb _ || negb _); reflexivity.
  - apply reset_same_month.
  - intros Hdiff. subst after. unfold resetMonthlyApiUsage.
    destruct (Z.eqb (getMonth (lastResetDate usage)) (getMonth now)) eqn:Em;
      destruct (Z.eqb (getFullYear (lastResetDate usage)) (getFullYear now)) eqn:Ey;
      cbn [negb orb ocrRequestsThisMonth lastResetDate]; auto.
    apply Z.eqb_eq in Em, Ey. tauto.
  - intros later Hlm Hly. apply reset_same_month; congruence.
Qed.

End Reset.

Lemma monthly_reset_witness :
  ocrRequestsThisMonth
    (resetMonthlyApiUsage (fun t => t mod 12) (fun t => t / 12) 25
       {| ocrRequestsThisMonth := 7; maxOcrRequests := 50; lastResetDate := 24 |})
  = 0.
Proof.
  destruct (monthly_reset (fun t => t mod 12) (fun t => t / 12) 25
              {| ocrRequestsThisMonth := 7; maxOcrRequests := 50;
                 lastResetDate := 24 |})
    as (_ & _ & _ & _ & Hreset & _).
  apply Hreset. left. vm_compute. discriminate.
Defined.

End UsersFacts.
